(** * Document ingestion and retrieval pipeline: a shallow embedding

    The development follows the Python sources of the service:
    - [services/pdf_service.py]      fetching, text cleaning, chunking
    - [services/pinecone_service.py] vector upsert and query with fallbacks
    - [services/database_service.py] persistence of documents, chunks, answers
    - [controllers/query_controller.py] the ingest-then-answer coordinator

    Python [str] values are lists of Unicode code points; the external
    collaborators (HTTP, PDF parser, vector index, database, clock, uuid
    generator, language model) are an explicit environment, and the mutable
    stores are an explicit world threaded through a state-and-exception
    monad. *)

From Stdlib Require Import String Ascii DecimalString.
From Stdlib Require Import QArith.
From Stdlib Require Import List NArith Arith Lia Bool.
Import ListNotations.
Local Open Scope nat_scope.
Local Open Scope list_scope.

(* ===================================================================== *)
(** ** Python strings *)
(* ===================================================================== *)

Module Py.

(** A character is a Unicode code point. *)
Definition char := N.
Definition str := list char.

Definition py (s : string) : str := map N_of_ascii (list_ascii_of_string s).

Definition sp : char := 32%N.

(** [Py_UNICODE_ISSPACE]: the code points [str.strip()] removes and the
    regular-expression class [\s] matches on [str] patterns. *)
Definition is_space (c : char) : bool :=
  ((9 <=? c) && (c <=? 13) || (28 <=? c) && (c <=? 32)
   || (c =? 133) || (c =? 160) || (c =? 5760)
   || (8192 <=? c) && (c <=? 8202)
   || (c =? 8232) || (c =? 8233) || (c =? 8239) || (c =? 8287)
   || (c =? 12288))%N.

Definition nonempty {A} (l : list A) : bool :=
  match l with [] => false | _ :: _ => true end.

Fixpoint lstrip (s : str) : str :=
  match s with
  | [] => []
  | c :: s' => if is_space c then lstrip s' else s
  end.

Definition rstrip (s : str) : str := rev (lstrip (rev s)).

(** [s.strip()] *)
Definition strip (s : str) : str := rstrip (lstrip s).

(** [s.find(c)] for a one-character needle; [None] stands for [-1]. *)
Fixpoint find (c : char) (s : str) : option nat :=
  match s with
  | [] => None
  | d :: s' => if (d =? c)%N then Some 0
               else match find c s' with
                    | Some i => Some (S i)
                    | None => None
                    end
  end.

(** [s[-k:]]; Python reads [s[-0:]] as [s[0:]], the whole string. *)
Definition slice_last (k : nat) (s : str) : str :=
  match k with
  | 0 => s
  | _ => skipn (length s - k) s
  end.

(** [s[:k]] *)
Definition slice_to (k : nat) (s : str) : str := firstn k s.

(** [s.startswith(p)] *)
Fixpoint startswith (p s : str) : bool :=
  match p, s with
  | [], _ => true
  | _ :: _, [] => false
  | a :: p', b :: s' => (a =? b)%N && startswith p' s'
  end.

(** [str(i)] for a non-negative integer. *)
Definition str_of_nat (i : nat) : str :=
  py (NilEmpty.string_of_uint (Nat.to_uint i)).

End Py.
Import Py.

(* ===================================================================== *)
(** ** The regular-expression calls of [pdf_service.py]

    Every pattern in the source is one character class under a
    quantifier: [\s+], [[^\w\s.,;:!?()-]], [\.{3,}] and [[.!?]+]. *)
(* ===================================================================== *)

Module Re.

(** A character class with a greedy quantifier [{rep_min, rep_max}];
    [rep_max = None] is unbounded.  [rep_min] is at least 1 in every
    pattern of the source, so no pattern matches the empty string. *)
Record pattern := {
  cls : char -> bool;
  rep_min : nat;
  rep_max : option nat
}.

Fixpoint run_length (p : char -> bool) (s : str) : nat :=
  match s with
  | [] => 0
  | c :: s' => if p c then S (run_length p s') else 0
  end.

(** Length of the greedy match at the head of [s], if there is one. *)
Definition match_here (q : pattern) (s : str) : option nat :=
  let run := run_length (cls q) s in
  let n := match rep_max q with Some m => Nat.min run m | None => run end in
  if (rep_min q <=? n) && (1 <=? n) then Some n else None.

(** [re.sub]: scan left to right; where the pattern matches, emit the
    replacement and resume after the match, otherwise copy one character.
    The fuel is the length of the subject, which always suffices (see
    [sub_equation]). *)
Fixpoint sub_fuel (fuel : nat) (q : pattern) (repl s : str) : str :=
  match fuel with
  | 0 => s
  | S fuel' =>
      match s with
      | [] => []
      | c :: s' =>
          match match_here q s with
          | Some n => repl ++ sub_fuel fuel' q repl (skipn (n - 1) s')
          | None => c :: sub_fuel fuel' q repl s'
          end
      end
  end.

Definition sub (q : pattern) (repl s : str) : str :=
  sub_fuel (length s) q repl s.

(** [re.split] on a pattern [[class]+]: the fragments between maximal runs
    of class characters, empty fragments included. *)
Fixpoint split (p : char -> bool) (s : str) : list str :=
  match s with
  | [] => [[]]
  | c :: s' =>
      if p c then
        match s' with
        | d :: _ => if p d then split p s' else [] :: split p s'
        | [] => [[]; []]
        end
      else
        match split p s' with
        | f :: fs => (c :: f) :: fs
        | [] => [[c]]
        end
  end.

End Re.

(* ===================================================================== *)
(** ** [PDFService]: cleaning and chunking *)
(* ===================================================================== *)

(** [self.chunk_size], [self.chunk_overlap] *)
Record PDFService := {
  chunk_size : nat;
  chunk_overlap : nat
}.

(** [settings.CHUNK_SIZE = 1000], [settings.CHUNK_OVERLAP = 200] *)
Definition PDFService_init : PDFService :=
  {| chunk_size := 1000; chunk_overlap := 200 |}.

Definition is_period (c : char) : bool := (c =? 46)%N.

(** The class [[.!?]] *)
Definition is_terminator (c : char) : bool :=
  ((c =? 46) || (c =? 33) || (c =? 63))%N.

(** The punctuation listed in [[^\w\s.,;:!?()-]]: . , ; : ! ? ( ) - *)
Definition is_kept_punct (c : char) : bool :=
  ((c =? 46) || (c =? 44) || (c =? 59) || (c =? 58) || (c =? 33)
   || (c =? 63) || (c =? 40) || (c =? 41) || (c =? 45))%N.

Section CleanText.

(** [str.isalnum] per character, from Python's Unicode database. *)
Variable isalnum : char -> bool.

(** The class [\w] on a [str] pattern. *)
Definition is_word (c : char) : bool := isalnum c || (c =? 95)%N.

(** The class [[^\w\s.,;:!?()-]] *)
Definition is_special (c : char) : bool :=
  negb (is_word c || is_space c || is_kept_punct c).

Definition _clean_text (text : str) : str :=
  let text := Re.sub {| Re.cls := is_space; Re.rep_min := 1; Re.rep_max := None |}
                     (py " ") text in
  let text := Re.sub {| Re.cls := is_special; Re.rep_min := 1; Re.rep_max := Some 1 |}
                     (py "") text in
  let text := Re.sub {| Re.cls := is_period; Re.rep_min := 3; Re.rep_max := None |}
                     (py "...") text in
  strip text.

End CleanText.

Definition _split_into_sentences (text : str) : list str :=
  let sentences := Re.split is_terminator text in
  map strip (filter (fun s => nonempty (strip s)) sentences).

Definition _get_overlap_text (self : PDFService) (text : str) : str :=
  if length text <=? chunk_overlap self then text
  else
    let overlap := slice_last (chunk_overlap self) text in
    match find sp overlap with
    | Some space_index => strip (skipn space_index overlap)
    | None => overlap
    end.

(** One iteration of the loop of [chunk_text] over
    [(chunks, current_chunk)]. *)
Definition chunk_step (self : PDFService) (st : list str * str) (sentence : str)
  : list str * str :=
  let '(chunks, current_chunk) := st in
  if chunk_size self <? length current_chunk + length sentence then
    if nonempty current_chunk then
      (chunks ++ [strip current_chunk],
       _get_overlap_text self current_chunk ++ py " " ++ sentence)
    else (chunks, sentence)
  else
    (chunks,
     if nonempty current_chunk then current_chunk ++ py " " ++ sentence
     else sentence).

Definition chunk_text (self : PDFService) (text : str) : list str :=
  let sentences := _split_into_sentences text in
  let '(chunks, current_chunk) := fold_left (chunk_step self) sentences ([], []) in
  if nonempty current_chunk then chunks ++ [strip current_chunk] else chunks.

(* ===================================================================== *)
(** ** Records of the stores *)
(* ===================================================================== *)

Definition bytes := list N.
Definition embedding := list Q.

Fixpoint eqb_str (a b : str) : bool :=
  match a, b with
  | [], [] => true
  | c :: a', d :: b' => (c =? d)%N && eqb_str a' b'
  | _, _ => false
  end.

Lemma eqb_str_eq (a b : str) : eqb_str a b = true <-> a = b.
Proof.
  revert b. induction a as [|c a IH]; destruct b as [|d b]; simpl;
    try (split; [discriminate|congruence]); [tauto|].
  rewrite andb_true_iff, N.eqb_eq, IH. split.
  - intros [-> ->]. reflexivity.
  - intros H. inversion H. auto.
Qed.

Lemma eqb_str_refl (a : str) : eqb_str a a = true.
Proof. apply eqb_str_eq. reflexivity. Qed.

(** Rows of the [documents] table. *)
Module Document.
Record t := { id : str; url : str; uploaded_at : str }.
End Document.

(** Rows of the [document_chunks] table. *)
Module DocumentChunk.
Record t := {
  id : str;
  document_id : str;
  chunk_index : nat;
  chunk_text : str;
  pinecone_id : str;
  created_at : str
}.
End DocumentChunk.

(** Rows of the [user_queries] table. *)
Module UserQuery.
Record t := { id : str; document_id : str; query_text : str; created_at : str }.
End UserQuery.

(** Rows of the [answers] table. *)
Module Answer.
Record t := {
  id : str;
  query_id : str;
  answer_text : str;
  decision : option str;
  amount : option Q;
  created_at : str
}.
End Answer.

(** Rows of the [answer_clauses] table. *)
Module AnswerClause.
Record t := {
  id : str;
  answer_id : str;
  chunk_id : str;
  clause_text : str;
  similarity_score : Q;
  created_at : str
}.
End AnswerClause.

(** A vector as [store_chunks] hands it to the index. *)
Module Vector.
Record metadata := {
  document_id : str;
  chunk_index : nat;
  text : str;
  full_text : str
}.
Record t := { id : str; values : embedding; meta : metadata }.
End Vector.

(** A retrieval match as [search_similar_chunks] returns it. *)
Module Match.
Record t := {
  id : str;
  text : str;
  score : Q;
  chunk_index : nat;
  document_id : str
}.
End Match.

(* ===================================================================== *)
(** ** Collaborators and the world *)
(* ===================================================================== *)

Record response := { status_code : nat; content : bytes }.

(** What one HTTP request on the wire comes to. *)
Inductive wire_result :=
| WireResponse (r : response)
| WireConnectFailed
| WireConnectTimeout
| WireReadTimeout
| WireOther.

(** [requests.exceptions]: what [session.get] and [raise_for_status]
    raise. *)
Inductive requests_exn :=
| ReqConnectionError
| ReqConnectTimeout
| ReqReadTimeout
| ReqHTTPError (status : nat)
| ReqRetryError
| ReqOther.

(** [isinstance(e, requests.exceptions.ConnectionError)] *)
Definition is_requests_connection_error (e : requests_exn) : bool :=
  match e with ReqConnectionError | ReqConnectTimeout => true | _ => false end.

(** [isinstance(e, requests.exceptions.Timeout)] *)
Definition is_requests_timeout (e : requests_exn) : bool :=
  match e with ReqConnectTimeout | ReqReadTimeout => true | _ => false end.

Inductive exn :=
| ValueError (msg : str)
| ConnectionError (msg : str)
| TimeoutError (msg : str)
| FileNotFoundError (msg : str)
| PermissionError (msg : str)
| Exception_ (msg : str)
| RequestsError (e : requests_exn)
| APIError
| CollaboratorError.

(** What [PyPDF2.PdfReader] makes of a byte stream: a read error, or pages
    whose [extract_text()] returns text or raises ([None]). *)
Inductive pdf_result :=
| PdfReadError (msg : str)
| PdfPages (pages : list (option str)).

Inductive event :=
| EvExtractTextFromUrl (pdf_url : str)
| EvSessionGet (pdf_url : str) (attempt : nat)
| EvHttpRequest (pdf_url : str)
| EvAdapterBackoff
| EvSleep (seconds : nat)
| EvPdfReader
| EvChunkText
| EvStoreChunks (document_id : str) (chunks : list str)
| EvEncodeChunks (chunks : list str)
| EvUpsert (vectors : list Vector.t)
| EvEncodeQuery (query : str)
| EvIndexQuery (top_k : nat)
| EvGenerateContent (question : str).

(** The collaborators.  Every call that leaves the process takes the next
    number of a global count of such calls (the [tick] of the world):
    [raises n] says whether call number [n] raises; [uuid4], the clock and
    the wire answer by that number too. *)
Record env := {
  raises : nat -> bool;
  uuid4_at : nat -> str;
  timestamp_at : nat -> str;
  wire : str -> nat -> wire_result;
  PdfReader : bytes -> pdf_result;
  isalnum : char -> bool;
  embed : str -> embedding;
  index_query : list Vector.t -> embedding -> nat -> list (Vector.t * Q);
  generate_content : str -> list Match.t -> str
}.

Record world := {
  tick : nat;
  trace : list event;
  documents : list Document.t;
  document_chunks : list DocumentChunk.t;
  user_queries : list UserQuery.t;
  answers : list Answer.t;
  answer_clauses : list AnswerClause.t;
  index_vectors : list Vector.t
}.

Definition empty_world : world :=
  {| tick := 0; trace := []; documents := []; document_chunks := [];
     user_queries := []; answers := []; answer_clauses := [];
     index_vectors := [] |}.

Definition set_tick (n : nat) (s : world) : world :=
  {| tick := n; trace := trace s; documents := documents s;
     document_chunks := document_chunks s; user_queries := user_queries s;
     answers := answers s; answer_clauses := answer_clauses s;
     index_vectors := index_vectors s |}.

Definition add_event (e : event) (s : world) : world :=
  {| tick := tick s; trace := trace s ++ [e]; documents := documents s;
     document_chunks := document_chunks s; user_queries := user_queries s;
     answers := answers s; answer_clauses := answer_clauses s;
     index_vectors := index_vectors s |}.

Definition add_document (r : Document.t) (s : world) : world :=
  {| tick := tick s; trace := trace s; documents := documents s ++ [r];
     document_chunks := document_chunks s; user_queries := user_queries s;
     answers := answers s; answer_clauses := answer_clauses s;
     index_vectors := index_vectors s |}.

Definition add_document_chunk (r : DocumentChunk.t) (s : world) : world :=
  {| tick := tick s; trace := trace s; documents := documents s;
     document_chunks := document_chunks s ++ [r]; user_queries := user_queries s;
     answers := answers s; answer_clauses := answer_clauses s;
     index_vectors := index_vectors s |}.

Definition add_user_query (r : UserQuery.t) (s : world) : world :=
  {| tick := tick s; trace := trace s; documents := documents s;
     document_chunks := document_chunks s; user_queries := user_queries s ++ [r];
     answers := answers s; answer_clauses := answer_clauses s;
     index_vectors := index_vectors s |}.

Definition add_answer (r : Answer.t) (s : world) : world :=
  {| tick := tick s; trace := trace s; documents := documents s;
     document_chunks := document_chunks s; user_queries := user_queries s;
     answers := answers s ++ [r]; answer_clauses := answer_clauses s;
     index_vectors := index_vectors s |}.

Definition add_answer_clauses (rs : list AnswerClause.t) (s : world) : world :=
  {| tick := tick s; trace := trace s; documents := documents s;
     document_chunks := document_chunks s; user_queries := user_queries s;
     answers := answers s; answer_clauses := answer_clauses s ++ rs;
     index_vectors := index_vectors s |}.

Definition set_index_vectors (vs : list Vector.t) (s : world) : world :=
  {| tick := tick s; trace := trace s; documents := documents s;
     document_chunks := document_chunks s; user_queries := user_queries s;
     answers := answers s; answer_clauses := answer_clauses s;
     index_vectors := vs |}.

(* ===================================================================== *)
(** ** The monad of the services: world passing with exceptions

    A raised exception keeps the world as it was when it was raised; no
    store is rolled back. *)
(* ===================================================================== *)

Inductive result (A : Type) :=
| Ok (a : A)
| Raise (e : exn).
Arguments Ok {A} a.
Arguments Raise {A} e.

Definition M (A : Type) : Type := world -> result A * world.

Definition ret {A} (a : A) : M A := fun s => (Ok a, s).

Definition bind {A B} (m : M A) (k : A -> M B) : M B :=
  fun s => match m s with
           | (Ok a, s') => k a s'
           | (Raise e, s') => (Raise e, s')
           end.

Definition raise {A} (e : exn) : M A := fun s => (Raise e, s).

(** [try: m except Exception as e: handler(e)] *)
Definition try_except {A} (m : M A) (handler : exn -> M A) : M A :=
  fun s => match m s with
           | (Ok a, s') => (Ok a, s')
           | (Raise e, s') => handler e s'
           end.

Declare Scope monad_scope.
Delimit Scope monad_scope with monad.
Notation "x <- c ;; k" := (bind c (fun x => k))
  (at level 61, c at next level, right associativity) : monad_scope.
Notation "c ;; k" := (bind c (fun _ => k))
  (at level 61, right associativity) : monad_scope.
Local Open Scope monad_scope.

Definition get_world : M world := fun s => (Ok s, s).
Definition modify (f : world -> world) : M unit := fun s => (Ok tt, f s).
Definition log (e : event) : M unit := modify (add_event e).

(** A [for] loop that collects one value per element. *)
Fixpoint for_each {A B} (f : A -> M B) (l : list A) : M (list B) :=
  match l with
  | [] => ret []
  | a :: l' => b <- f a ;; bs <- for_each f l' ;; ret (b :: bs)
  end.

(** [enumerate(l)] *)
Definition enumerate {A} (l : list A) : list (nat * A) :=
  combine (seq 0 (length l)) l.

(* ===================================================================== *)
(** ** The services *)
(* ===================================================================== *)

(** [self.index is not None] *)
Record PineconeService := { index : bool }.

(** The controller's services. *)
Record QueryController := {
  pdf_service : PDFService;
  pinecone_service : PineconeService
}.

Section Services.

Variable E : env.

(** One call to a collaborator: take the next call number. *)
Definition external : M nat :=
  fun s => (Ok (tick s), set_tick (S (tick s)) s).

(** A call to a collaborator that may raise. *)
Definition fallible (e : exn) : M unit :=
  n <- external ;;
  if raises E n then raise e else ret tt.

(** [str(uuid.uuid4())] *)
Definition uuid4 : M str := n <- external ;; ret (uuid4_at E n).

(** [get_ist_timestamp()] *)
Definition get_ist_timestamp : M str := n <- external ;; ret (timestamp_at E n).

(** *** [requests] session with the mounted retry adapter

    [Retry(total=3, backoff_factor=1, status_forcelist=[429, 500, 502, 503,
    504], allowed_methods=["HEAD", "GET", "OPTIONS"])]: a request that
    fails to connect, times out or is answered with a listed status is
    sent again while retries are left; when they are used up the adapter
    raises: [RetryError] for a listed status, [ConnectTimeout] for a
    connect timeout, [ConnectionError] for the rest.  Between two sends
    the adapter sleeps for a backoff of its own choosing, recorded as
    [EvAdapterBackoff]; these are not the [time.sleep] calls of the retry
    loop below. *)

Definition status_forcelist : list nat := [429; 500; 502; 503; 504].

Definition in_forcelist (status : nat) : bool :=
  existsb (Nat.eqb status) status_forcelist.

Inductive get_result :=
| GotResponse (r : response)
| GetRaised (e : requests_exn).

Fixpoint adapter_send (pdf_url : str) (retries : nat) : M get_result :=
  n <- external ;;
  log (EvHttpRequest pdf_url) ;;
  let again (exhausted : requests_exn) : M get_result :=
    match retries with
    | 0 => ret (GetRaised exhausted)
    | S retries' => log EvAdapterBackoff ;; adapter_send pdf_url retries'
    end in
  match wire E pdf_url n with
  | WireResponse r =>
      if in_forcelist (status_code r) then again ReqRetryError
      else ret (GotResponse r)
  | WireConnectFailed => again ReqConnectionError
  | WireConnectTimeout => again ReqConnectTimeout
  | WireReadTimeout => again ReqConnectionError
  | WireOther => ret (GetRaised ReqOther)
  end.

(** [self.session.get(pdf_url, timeout=60, stream=True)] *)
Definition session_get (pdf_url : str) : M get_result :=
  adapter_send pdf_url 3.

(** [response.raise_for_status()] raises for 4xx and 5xx. *)
Definition is_error_status (status : nat) : bool :=
  (400 <=? status) && (status <? 600).

(** [time.sleep(seconds)] *)
Definition sleep (seconds : nat) : M unit := log (EvSleep seconds).

(** *** [PDFService.extract_text_from_url] *)

(** [except requests.exceptions.HTTPError as e] *)
Definition on_http_error {A} (pdf_url : str) (status : nat) : M A :=
  if status =? 404 then
    raise (FileNotFoundError (py "PDF not found at URL: " ++ pdf_url))
  else if status =? 403 then
    raise (PermissionError (py "Access denied to PDF: " ++ pdf_url))
  else raise (RequestsError (ReqHTTPError status)).

(** The retry loop, [for attempt in range(max_attempts)], from iteration
    [attempt] with [remaining] iterations to go.  [None] is a loop that
    ends without [break].  (The content-type check only logs a warning.) *)
Fixpoint download (pdf_url : str) (max_attempts remaining attempt : nat)
  : M (option response) :=
  match remaining with
  | 0 => ret None
  | S remaining' =>
      log (EvSessionGet pdf_url attempt) ;;
      r <- session_get pdf_url ;;
      match r with
      | GotResponse response =>
          if is_error_status (status_code response)
          then on_http_error pdf_url (status_code response)
          else ret (Some response)
      | GetRaised (ReqHTTPError status) => on_http_error pdf_url status
      | GetRaised e =>
          if is_requests_connection_error e then
            if attempt =? max_attempts - 1 then
              raise (ConnectionError
                       (py "Failed to connect to " ++ pdf_url ++ py " after "
                        ++ str_of_nat max_attempts
                        ++ py " attempts. Please check your internet connection and the URL."))
            else sleep (2 ^ attempt) ;;
                 download pdf_url max_attempts remaining' (S attempt)
          else if is_requests_timeout e then
            if attempt =? max_attempts - 1 then
              raise (TimeoutError
                       (py "Request timed out after " ++ str_of_nat max_attempts
                        ++ py " attempts. The server may be slow or unreachable."))
            else sleep (2 ^ attempt) ;;
                 download pdf_url max_attempts remaining' (S attempt)
          else
            (* except Exception *)
            if attempt =? max_attempts - 1 then raise (RequestsError e)
            else sleep (2 ^ attempt) ;;
                 download pdf_url max_attempts remaining' (S attempt)
      end
  end.

(** The page loop: [text += page.extract_text() + "\n"], a page that
    raises is skipped. *)
Definition pages_text (pages : list (option str)) : str :=
  fold_left (fun text page =>
               match page with
               | Some page_text => text ++ page_text ++ [10%N]
               | None => text
               end) pages [].

Definition extract_text_from_url (self : PDFService) (pdf_url : str) : M str :=
  log (EvExtractTextFromUrl pdf_url) ;;
  if negb (startswith (py "http://") pdf_url || startswith (py "https://") pdf_url)
  then raise (ValueError (py "Invalid URL format: " ++ pdf_url))
  else
    let max_attempts := 3 in
    response <- download pdf_url max_attempts max_attempts 0 ;;
    match response with
    | None => raise (Exception_ (py "Failed to download PDF after all attempts"))
    | Some response =>
        log EvPdfReader ;;
        match PdfReader E (content response) with
        | PdfReadError msg =>
            raise (ValueError (py "Invalid or corrupted PDF file: " ++ msg))
        | PdfPages pages =>
            if length pages =? 0 then
              raise (ValueError (py "PDF file appears to be empty or corrupted"))
            else
              let text := pages_text pages in
              if negb (nonempty (strip text)) then
                raise (ValueError (py "No text could be extracted from the PDF. The PDF may be image-based or corrupted."))
              else ret (_clean_text (isalnum E) text)
        end
    end.

(** [PDFService.chunk_text] as the controller awaits it. *)
Definition chunk_text_call (self : PDFService) (text : str) : M (list str) :=
  log EvChunkText ;; ret (chunk_text self text).

(** *** [PineconeService] *)

(** [self.embedding_model.encode(texts)]: one embedding per text, in
    order. *)
Definition encode (texts : list str) : M (list embedding) :=
  fallible CollaboratorError ;; ret (map (embed E) texts).

(** [index.upsert(vectors=...)] writes each vector under its id. *)
Definition upsert_one (v : Vector.t) (vs : list Vector.t) : list Vector.t :=
  if existsb (fun w => eqb_str (Vector.id w) (Vector.id v)) vs
  then map (fun w => if eqb_str (Vector.id w) (Vector.id v) then v else w) vs
  else vs ++ [v].

Definition index_upsert (vectors : list Vector.t) : M unit :=
  fallible CollaboratorError ;;
  modify (fun s => set_index_vectors
                     (fold_left (fun vs v => upsert_one v vs) vectors (index_vectors s)) s).

(** [f"{prefix}{document_id}_{i}_{str(uuid.uuid4())[:8]}"] *)
Definition make_id (prefix document_id : str) (i : nat) : M str :=
  u <- uuid4 ;;
  ret (prefix ++ document_id ++ py "_" ++ str_of_nat i ++ py "_" ++ slice_to 8 u).

(** [[f"{prefix}{document_id}_{i}_..." for i in range(len(chunks))]] *)
Definition dummy_ids (prefix document_id : str) (chunks : list str) : M (list str) :=
  for_each (make_id prefix document_id) (seq 0 (length chunks)).

Definition make_vector (document_id : str) (item : nat * (str * embedding))
  : M Vector.t :=
  let '(i, (chunk, embedding)) := item in
  pinecone_id <- make_id (py "") document_id i ;;
  ret {| Vector.id := pinecone_id;
         Vector.values := embedding;
         Vector.meta := {| Vector.document_id := document_id;
                           Vector.chunk_index := i;
                           Vector.text := slice_to 1000 chunk;
                           Vector.full_text := chunk |} |}.

Definition store_chunks (self : PineconeService) (chunks : list str)
    (document_id : str) : M (list str) :=
  log (EvStoreChunks document_id chunks) ;;
  if negb (index self) then dummy_ids (py "local_") document_id chunks
  else
    try_except
      (log (EvEncodeChunks chunks) ;;
       embeddings <- encode chunks ;;
       vectors <- for_each (make_vector document_id)
                           (enumerate (combine chunks embeddings)) ;;
       log (EvUpsert vectors) ;;
       index_upsert vectors ;;
       ret (map Vector.id vectors))
      (fun _ => dummy_ids (py "fallback_") document_id chunks).

Definition format_match (m : Vector.t * Q) : Match.t :=
  let '(v, score) := m in
  {| Match.id := Vector.id v;
     Match.text := Vector.full_text (Vector.meta v);
     Match.score := score;
     Match.chunk_index := Vector.chunk_index (Vector.meta v);
     Match.document_id := Vector.document_id (Vector.meta v) |}.

Definition search_similar_chunks (self : PineconeService) (query : str)
    (top_k : nat) : M (list Match.t) :=
  if negb (index self) then ret []
  else
    try_except
      (log (EvEncodeQuery query) ;;
       query_embedding <- encode [query] ;;
       log (EvIndexQuery top_k) ;;
       fallible CollaboratorError ;;
       s <- get_world ;;
       let matches := index_query E (index_vectors s)
                        (hd [] query_embedding) top_k in
       ret (map format_match matches))
      (fun _ => ret []).

(** *** [GeminiService.generate_answer]: the model's text, stripped, or
    the fixed fallback answer when the call raises. *)
Definition generate_answer (question : str) (relevant_chunks : list Match.t)
  : M str :=
  try_except
    (log (EvGenerateContent question) ;;
     fallible CollaboratorError ;;
     ret (strip (generate_content E question relevant_chunks)))
    (fun _ => ret (py "Unable to generate answer for the question: " ++ question)).

(** *** [DatabaseService]

    [table(...).select(...).eq(column, value).execute()] returns the rows
    whose column equals the value, in table order; [insert(row).execute()]
    appends the row and returns it.  [execute()] may raise. *)

Definition execute : M unit := fallible APIError.

Definition select_documents_by_url (url : str) : M (list Document.t) :=
  execute ;;
  s <- get_world ;;
  ret (filter (fun d => eqb_str (Document.url d) url) (documents s)).

Definition select_chunks_by_document_id (document_id : str)
  : M (list DocumentChunk.t) :=
  execute ;;
  s <- get_world ;;
  ret (filter (fun c => eqb_str (DocumentChunk.document_id c) document_id)
              (document_chunks s)).

Definition select_chunks_by_pinecone_id (pinecone_id : str)
  : M (list DocumentChunk.t) :=
  execute ;;
  s <- get_world ;;
  ret (filter (fun c => eqb_str (DocumentChunk.pinecone_id c) pinecone_id)
              (document_chunks s)).

Definition insert_document (r : Document.t) : M (list Document.t) :=
  execute ;; modify (add_document r) ;; ret [r].

Definition insert_document_chunk (r : DocumentChunk.t) : M (list DocumentChunk.t) :=
  execute ;; modify (add_document_chunk r) ;; ret [r].

Definition insert_user_query (r : UserQuery.t) : M (list UserQuery.t) :=
  execute ;; modify (add_user_query r) ;; ret [r].

Definition insert_answer (r : Answer.t) : M (list Answer.t) :=
  execute ;; modify (add_answer r) ;; ret [r].

Definition insert_answer_clauses (rs : list AnswerClause.t) : M unit :=
  execute ;; modify (add_answer_clauses rs).

Definition get_or_create_document (url : str) : M Document.t :=
  data <- select_documents_by_url url ;;
  match data with
  | document :: _ => ret document
  | [] =>
      id <- uuid4 ;;
      uploaded_at <- get_ist_timestamp ;;
      let new_document :=
        {| Document.id := id; Document.url := url;
           Document.uploaded_at := uploaded_at |} in
      data <- insert_document new_document ;;
      match data with
      | document :: _ => ret document
      | [] => raise (Exception_ (py "Failed to create document"))
      end
  end.

Definition has_chunks (document_id : str) : M bool :=
  try_except
    (data <- select_chunks_by_document_id document_id ;;
     ret (0 <? length data))
    (fun _ => ret false).

Definition create_document_chunk (document_id : str) (chunk_index : nat)
    (chunk_text pinecone_id : str) : M DocumentChunk.t :=
  id <- uuid4 ;;
  created_at <- get_ist_timestamp ;;
  let chunk_data :=
    {| DocumentChunk.id := id;
       DocumentChunk.document_id := document_id;
       DocumentChunk.chunk_index := chunk_index;
       DocumentChunk.chunk_text := chunk_text;
       DocumentChunk.pinecone_id := pinecone_id;
       DocumentChunk.created_at := created_at |} in
  data <- insert_document_chunk chunk_data ;;
  match data with
  | row :: _ => ret row
  | [] => raise (Exception_ (py "Failed to create document chunk"))
  end.

Definition create_user_query (document_id query_text : str) : M UserQuery.t :=
  id <- uuid4 ;;
  created_at <- get_ist_timestamp ;;
  let query_data :=
    {| UserQuery.id := id;
       UserQuery.document_id := document_id;
       UserQuery.query_text := query_text;
       UserQuery.created_at := created_at |} in
  data <- insert_user_query query_data ;;
  match data with
  | query :: _ => ret query
  | [] => raise (Exception_ (py "Failed to create user query"))
  end.

(** The body of the loop over [relevant_chunks]: look the match up by its
    vector-store id and, if a chunk row is found, build the clause. *)
Definition make_clause (answer_id : str) (chunk_data : Match.t)
  : M (list AnswerClause.t) :=
  chunk_response <- select_chunks_by_pinecone_id (Match.id chunk_data) ;;
  match chunk_response with
  | chunk :: _ =>
      id <- uuid4 ;;
      created_at <- get_ist_timestamp ;;
      ret [ {| AnswerClause.id := id;
               AnswerClause.answer_id := answer_id;
               AnswerClause.chunk_id := DocumentChunk.id chunk;
               AnswerClause.clause_text := slice_to 1000 (Match.text chunk_data);
               AnswerClause.similarity_score := Match.score chunk_data;
               AnswerClause.created_at := created_at |} ]
  | [] => ret []
  end.

Definition create_answer_with_clauses (query_id answer_text : str)
    (relevant_chunks : list Match.t) (decision : option str) (amount : option Q)
  : M Answer.t :=
  id <- uuid4 ;;
  created_at <- get_ist_timestamp ;;
  let answer_data :=
    {| Answer.id := id;
       Answer.query_id := query_id;
       Answer.answer_text := answer_text;
       Answer.decision := decision;
       Answer.amount := amount;
       Answer.created_at := created_at |} in
  data <- insert_answer answer_data ;;
  match data with
  | [] => raise (Exception_ (py "Failed to create answer"))
  | answer :: _ =>
      clauses <- for_each (make_clause (Answer.id answer)) relevant_chunks ;;
      let clauses_data := concat clauses in
      (if nonempty clauses_data then insert_answer_clauses clauses_data
       else ret tt) ;;
      ret answer
  end.

(** *** [QueryController] *)

Definition _store_document_chunks (self : QueryController) (document_id : str)
    (chunks : list str) : M unit :=
  chunk_data <- store_chunks (pinecone_service self) chunks document_id ;;
  for_each (fun '(i, (chunk_text, pinecone_id)) =>
              create_document_chunk document_id i chunk_text pinecone_id)
           (enumerate (combine chunks chunk_data)) ;;
  ret tt.

(** Step 2 when the document has no chunks: download, chunk, store. *)
Definition process_new_document (self : QueryController) (document : Document.t)
    (pdf_url : str) : M unit :=
  pdf_text <- extract_text_from_url (pdf_service self) pdf_url ;;
  chunks <- chunk_text_call (pdf_service self) pdf_text ;;
  _store_document_chunks self (Document.id document) chunks.

(** Step 3, the body of the loop over [questions]. *)
Definition process_question (self : QueryController) (document : Document.t)
    (question : str) : M str :=
  query <- create_user_query (Document.id document) question ;;
  relevant_chunks <- search_similar_chunks (pinecone_service self) question 5 ;;
  answer_text <- generate_answer question relevant_chunks ;;
  create_answer_with_clauses (UserQuery.id query) answer_text relevant_chunks
                             None None ;;
  ret answer_text.

Definition process_document_queries (self : QueryController) (pdf_url : str)
    (questions : list str) : M (list str) :=
  document <- get_or_create_document pdf_url ;;
  processed <- has_chunks (Document.id document) ;;
  (if negb processed then process_new_document self document pdf_url
   else ret tt) ;;
  for_each (process_question self document) questions.

End Services.

(* ===================================================================== *)
(** ** Facts about the string primitives *)
(* ===================================================================== *)

Section Preservation.

Variable P : char -> Prop.

Lemma lstrip_Forall (s : str) : Forall P s -> Forall P (lstrip s).
Proof.
  induction s as [|c s IH]; simpl; intros H; auto.
  destruct (is_space c); auto.
  inversion H; auto.
Qed.

Lemma rev_Forall (s : str) : Forall P s -> Forall P (rev s).
Proof.
  intros H. apply Forall_forall. intros x Hx.
  apply in_rev in Hx. rewrite Forall_forall in H. auto.
Qed.

Lemma strip_Forall (s : str) : Forall P s -> Forall P (strip s).
Proof.
  intros H. unfold strip, rstrip.
  auto using lstrip_Forall, rev_Forall.
Qed.

Lemma skipn_Forall (n : nat) (s : str) : Forall P s -> Forall P (skipn n s).
Proof.
  revert s. induction n as [|n IH]; intros s H; simpl; auto.
  destruct s; auto. inversion H; auto.
Qed.

Lemma slice_last_Forall (k : nat) (s : str) : Forall P s -> Forall P (slice_last k s).
Proof.
  intros H. destruct k; simpl; auto using skipn_Forall.
Qed.

Lemma _get_overlap_text_Forall (self : PDFService) (text : str) :
  Forall P text -> Forall P (_get_overlap_text self text).
Proof.
  intros H. unfold _get_overlap_text.
  destruct (length text <=? chunk_overlap self); auto.
  destruct (find sp (slice_last (chunk_overlap self) text));
    auto using strip_Forall, skipn_Forall, slice_last_Forall.
Qed.

End Preservation.

Create HintDb py.
#[local] Hint Resolve strip_Forall skipn_Forall slice_last_Forall
  _get_overlap_text_Forall : py.

(** No fragment returned by [re.split] holds a delimiter character. *)
Lemma split_no_delimiter (p : char -> bool) (s : str) :
  Forall (Forall (fun c => p c = false)) (Re.split p s).
Proof.
  induction s as [|c s IH]; simpl.
  - repeat constructor.
  - destruct (p c) eqn:Hc.
    + destruct s as [|d s']; [repeat constructor|].
      destruct (p d); auto.
    + destruct (Re.split p s) as [|f fs]; [repeat constructor; assumption|].
      inversion IH; subst. constructor; auto.
Qed.

Lemma _split_into_sentences_no_terminator (text : str) :
  Forall (Forall (fun c => is_terminator c = false)) (_split_into_sentences text).
Proof.
  unfold _split_into_sentences.
  apply Forall_forall. intros s Hs.
  apply in_map_iff in Hs. destruct Hs as (f & <- & Hf).
  apply filter_In in Hf. destruct Hf as [Hf _].
  apply strip_Forall.
  pose proof (split_no_delimiter is_terminator text) as H.
  rewrite Forall_forall in H. auto.
Qed.

(** Sentences are stripped and non-empty. *)
Lemma _split_into_sentences_nonempty (text : str) :
  Forall (fun s => s <> []) (_split_into_sentences text).
Proof.
  unfold _split_into_sentences.
  apply Forall_forall. intros s Hs.
  apply in_map_iff in Hs. destruct Hs as (f & <- & Hf).
  apply filter_In in Hf. destruct Hf as [_ Hf].
  destruct (strip f); [discriminate|congruence].
Qed.

Section ChunkInvariant.

Variable self : PDFService.
Variable P : char -> Prop.
Hypothesis P_space : P sp.

Definition chunks_ok (st : list str * str) : Prop :=
  Forall (Forall P) (fst st) /\ Forall P (snd st).

Lemma chunk_step_ok (st : list str * str) (sentence : str) :
  chunks_ok st -> Forall P sentence -> chunks_ok (chunk_step self st sentence).
Proof.
  destruct st as [chunks cur]. unfold chunks_ok, chunk_step. simpl.
  intros [Hch Hcur] Hs.
  assert (Hsp : Forall P (py " ")) by (repeat constructor; exact P_space).
  destruct (chunk_size self <? length cur + length sentence);
    destruct (nonempty cur); simpl; split; auto;
    repeat (apply Forall_app; split); auto using _get_overlap_text_Forall.
  constructor; auto. apply strip_Forall; auto.
Qed.

Lemma chunk_loop_ok (sentences : list str) (st : list str * str) :
  chunks_ok st -> Forall (Forall P) sentences ->
  chunks_ok (fold_left (chunk_step self) sentences st).
Proof.
  revert st. induction sentences as [|s ss IH]; intros st Hst Hss; simpl; auto.
  inversion Hss; subst. apply IH; auto using chunk_step_ok.
Qed.

End ChunkInvariant.

(* ===================================================================== *)
(** ** Chunks hold no sentence terminator *)
(* ===================================================================== *)

(** C10. For every input text and every chunk size and overlap, no chunk
    returned by [chunk_text] contains one of the characters '.', '!', '?':
    the sentence splitter consumes them, and chunks are built only from
    sentences, joining spaces and tails of earlier chunks. *)
Theorem chunk_text_no_terminator (self : PDFService) (text : str) :
  Forall (Forall (fun c => is_terminator c = false)) (chunk_text self text).
Proof.
  unfold chunk_text.
  pose proof (chunk_loop_ok self (fun c => is_terminator c = false) eq_refl
                (_split_into_sentences text) ([], [])) as H.
  destruct (fold_left (chunk_step self) (_split_into_sentences text) ([], []))
    as [chunks cur].
  destruct H as [Hch Hcur].
  - split; constructor.
  - apply _split_into_sentences_no_terminator.
  - simpl in *. destruct (nonempty cur); auto.
    apply Forall_app; split; auto.
    constructor; auto. apply strip_Forall; auto.
Qed.

(* ===================================================================== *)
(** ** The chunk bound *)
(* ===================================================================== *)

(** ["a" * n] *)
Definition times (c : string) (n : nat) : str := concat (repeat (py c) n).

(** C2, evaluated at a failing input.  With the configured sizes the text
    of 500 'a', a period and 500 'b' splits into two sentences of 500
    characters; the guard [len(current_chunk) + len(sentence) > 1000] does
    not count the joining space, so both land in one chunk of 1001
    characters although no sentence is longer than 1000. *)
Theorem chunk_text_exceeds_chunk_size :
  let text := times "a" 500 ++ py "." ++ times "b" 500 in
  _split_into_sentences text = [times "a" 500; times "b" 500] /\
  Forall (fun s => length s <= 1000) (_split_into_sentences text) /\
  chunk_text PDFService_init text = [times "a" 500 ++ py " " ++ times "b" 500] /\
  map (@length char) (chunk_text PDFService_init text) = [1001].
Proof.
  cbv zeta.
  assert (Hs : _split_into_sentences (times "a" 500 ++ py "." ++ times "b" 500)
               = [times "a" 500; times "b" 500]) by (vm_compute; reflexivity).
  split; [exact Hs|]. split.
  - rewrite Hs. repeat constructor; vm_compute; discriminate.
  - split; vm_compute; reflexivity.
Qed.

(** The same guard is not applied to the chunk that is seeded with an
    overlap tail: 900 'a' followed by a sentence of exactly 1000 'b' gives
    a second chunk of 200 + 1 + 1000 characters. *)
Lemma chunk_text_seeded_chunk_exceeds_chunk_size :
  let text := times "a" 900 ++ py "." ++ times "b" 1000 in
  Forall (fun s => length s <= 1000) (_split_into_sentences text) /\
  chunk_text PDFService_init text
  = [times "a" 900; times "a" 200 ++ py " " ++ times "b" 1000] /\
  map (@length char) (chunk_text PDFService_init text) = [900; 1201].
Proof.
  cbv zeta.
  assert (Hs : _split_into_sentences (times "a" 900 ++ py "." ++ times "b" 1000)
               = [times "a" 900; times "b" 1000]) by (vm_compute; reflexivity).
  split.
  - rewrite Hs. repeat constructor; vm_compute; discriminate.
  - split; vm_compute; reflexivity.
Qed.

(** What the guard does bound.  A chunk is either at most one character
    longer than [chunk_size] (the uncounted joining space), or no longer
    than an overlap seed, a space and one sentence. *)

Lemma lstrip_length (s : str) : length (lstrip s) <= length s.
Proof.
  induction s as [|c s IH]; simpl; [lia|].
  destruct (is_space c); simpl; lia.
Qed.

Lemma strip_length (s : str) : length (strip s) <= length s.
Proof.
  unfold strip, rstrip. rewrite length_rev.
  etransitivity; [apply lstrip_length|]. rewrite length_rev.
  apply lstrip_length.
Qed.

Lemma _get_overlap_text_length (self : PDFService) (text : str) :
  0 < chunk_overlap self ->
  length (_get_overlap_text self text) <= chunk_overlap self.
Proof.
  intros Hpos. unfold _get_overlap_text.
  destruct (length text <=? chunk_overlap self) eqn:Hle.
  - apply Nat.leb_le in Hle. exact Hle.
  - apply Nat.leb_gt in Hle. unfold slice_last.
    destruct (chunk_overlap self) as [|k] eqn:Hk; [lia|].
    assert (Htail : length (skipn (length text - S k) text) <= S k)
      by (rewrite length_skipn; lia).
    destruct (find sp (skipn (length text - S k) text)); [|exact Htail].
    etransitivity; [apply strip_length|].
    rewrite length_skipn. lia.
Qed.

Section Bound.

Variable self : PDFService.
Hypothesis overlap_pos : 0 < chunk_overlap self.
Variable all : list str.

Definition bounded (c : str) : Prop :=
  length c <= chunk_size self + 1 \/
  exists sentence, In sentence all /\
                   length c <= chunk_overlap self + 1 + length sentence.

Lemma bounded_strip (c : str) : bounded c -> bounded (strip c).
Proof.
  pose proof (strip_length c) as Hs.
  intros [H|(s & Hin & H)]; [left; lia|right; exists s; split; [exact Hin|lia]].
Qed.

Lemma chunk_step_bounded (st : list str * str) (sentence : str) :
  In sentence all ->
  Forall bounded (fst st) /\ bounded (snd st) ->
  Forall bounded (fst (chunk_step self st sentence)) /\
  bounded (snd (chunk_step self st sentence)).
Proof.
  destruct st as [chunks cur]. simpl. intros Hin [Hch Hcur].
  unfold chunk_step.
  destruct (chunk_size self <? length cur + length sentence) eqn:Hov.
  - destruct (nonempty cur); simpl.
    + split.
      * apply Forall_app. split; [exact Hch|].
        constructor; [apply bounded_strip; assumption|constructor].
      * right. exists sentence. split; [exact Hin|].
        pose proof (_get_overlap_text_length self cur overlap_pos).
        rewrite !length_app. simpl. lia.
    + split; [exact Hch|]. right. exists sentence. split; [exact Hin|lia].
  - apply Nat.ltb_ge in Hov. simpl. split; [exact Hch|].
    destruct (nonempty cur).
    + left. rewrite !length_app. simpl. lia.
    + left. lia.
Qed.

Lemma chunk_loop_bounded (sentences : list str) (st : list str * str) :
  Forall (fun s => In s all) sentences ->
  Forall bounded (fst st) /\ bounded (snd st) ->
  Forall bounded (fst (fold_left (chunk_step self) sentences st)) /\
  bounded (snd (fold_left (chunk_step self) sentences st)).
Proof.
  revert st. induction sentences as [|s ss IH]; intros st Hall Hst; simpl; auto.
  inversion Hall; subst. apply IH; auto using chunk_step_bounded.
Qed.

End Bound.

Lemma chunk_text_length_bound (self : PDFService) (text : str) :
  0 < chunk_overlap self ->
  Forall (bounded self (_split_into_sentences text)) (chunk_text self text).
Proof.
  intros Hpos. unfold chunk_text.
  pose proof (chunk_loop_bounded self Hpos (_split_into_sentences text)
                (_split_into_sentences text) ([], [])) as H.
  destruct (fold_left (chunk_step self) (_split_into_sentences text) ([], []))
    as [chunks cur].
  destruct H as [Hch Hcur].
  - apply Forall_forall. auto.
  - split; [constructor|]. left. simpl. lia.
  - simpl in *. destruct (nonempty cur); [|exact Hch].
    apply Forall_app. split; [exact Hch|].
    constructor; [|constructor]. apply bounded_strip; assumption.
Qed.

(** X7. With the configured sizes and no sentence longer than 1000
    characters, no chunk is longer than 1201 characters; the two runs above
    reach 1001 and 1201. *)
Lemma chunk_text_length_bound_configured (text : str) (chunk : str) :
  Forall (fun s => length s <= 1000) (_split_into_sentences text) ->
  In chunk (chunk_text PDFService_init text) ->
  length chunk <= 1201.
Proof.
  intros Hs Hin.
  assert (Hpos : 0 < chunk_overlap PDFService_init) by (simpl; lia).
  pose proof (chunk_text_length_bound PDFService_init text Hpos) as H.
  rewrite Forall_forall in H. destruct (H chunk Hin) as [Hb|(s & Hsin & Hb)].
  - simpl in Hb. lia.
  - rewrite Forall_forall in Hs. specialize (Hs s Hsin). simpl in Hb. lia.
Qed.

(* ===================================================================== *)
(** ** The overlap seam *)
(* ===================================================================== *)

(** The seed as the specification words it: the last [overlap_len]
    characters of the closed chunk, starting after the first space of that
    tail, or the whole tail when it has no space. *)
Definition seam_seed_as_stated (overlap_len : nat) (closed : str) : str :=
  let tail := skipn (length closed - overlap_len) closed in
  match find sp tail with
  | Some i => skipn (S i) tail
  | None => tail
  end.

Definition seam_rule_as_stated (self : PDFService) : Prop :=
  forall chunks current_chunk sentence,
    current_chunk <> [] ->
    chunk_size self < length current_chunk + length sentence ->
    chunk_step self (chunks, current_chunk) sentence
    = (chunks ++ [strip current_chunk],
       seam_seed_as_stated (chunk_overlap self) current_chunk ++ py " " ++ sentence).

(** The seed the code computes: a closed chunk of at most [overlap_len]
    characters is carried over whole; otherwise its last [overlap_len]
    characters are cut after their first space and the cut is stripped of
    surrounding whitespace, or taken verbatim when they hold no space. *)
Definition overlap_seed (overlap_len : nat) (closed : str) : str :=
  if length closed <=? overlap_len then closed
  else
    let tail := skipn (length closed - overlap_len) closed in
    match find sp tail with
    | Some i => strip (skipn (S i) tail)
    | None => tail
    end.

Lemma find_skipn (c : char) (s : str) (i : nat) :
  find c s = Some i -> skipn i s = c :: skipn (S i) s.
Proof.
  revert i. induction s as [|d s IH]; simpl; intros i H; [discriminate|].
  destruct (N.eqb_spec d c) as [->|Hd].
  - inversion H; subst. reflexivity.
  - destruct (find c s) as [j|]; [|discriminate].
    inversion H; subst. simpl. apply IH. reflexivity.
Qed.

Lemma strip_cons_space (s : str) : strip (sp :: s) = strip s.
Proof. reflexivity. Qed.

Lemma _get_overlap_text_seed (self : PDFService) (text : str) :
  0 < chunk_overlap self ->
  _get_overlap_text self text = overlap_seed (chunk_overlap self) text.
Proof.
  intros Hpos. unfold _get_overlap_text, overlap_seed.
  destruct (length text <=? chunk_overlap self); [reflexivity|].
  unfold slice_last. destruct (chunk_overlap self) as [|k] eqn:Hk; [lia|].
  destruct (find sp (skipn (length text - S k) text)) as [i|] eqn:Hf;
    [|reflexivity].
  rewrite (find_skipn _ _ _ Hf). apply strip_cons_space.
Qed.

(** The loop of [chunk_text] with the running chunks it closes written
    down as they are at [chunks.append(current_chunk.strip())], before the
    strip: one for every sentence that does not fit a non-empty running
    chunk, and the last running chunk when the loop ends.  The state is
    that of [chunk_step]. *)
Fixpoint running_from (self : PDFService) (sentences : list str)
    (st : list str * str) : list str :=
  match sentences with
  | [] => if nonempty (snd st) then [snd st] else []
  | sentence :: sentences' =>
      let rest := running_from self sentences' (chunk_step self st sentence) in
      if (chunk_size self <? length (snd st) + length sentence)
         && nonempty (snd st)
      then snd st :: rest
      else rest
  end.

Definition running_chunks (self : PDFService) (text : str) : list str :=
  running_from self (_split_into_sentences text) ([], []).

(** What is carried over a seam, from a closed running chunk to the
    running chunk that follows it: the next one starts with the overlap
    text of the closed one, one space and a sentence that did not fit the
    closed one. *)
Definition carried (self : PDFService) (sentences : list str)
    (closed next : str) : Prop :=
  exists sentence more,
    In sentence sentences /\
    chunk_size self < length closed + length sentence /\
    next = _get_overlap_text self closed ++ py " " ++ sentence ++ more.

Lemma nonempty_app_cons {A} (a b : list A) (c : A) : nonempty (a ++ c :: b) = true.
Proof. destruct a; reflexivity. Qed.

Ltac norm_app :=
  repeat (simpl; rewrite <- ?app_assoc; rewrite <- ?app_comm_cons); simpl.

(** The chunks returned are the closed running chunks, stripped. *)
Lemma chunk_loop_closed (self : PDFService) (sentences : list str)
    (st : list str * str) :
  (let '(chunks, current_chunk) := fold_left (chunk_step self) sentences st in
   if nonempty current_chunk then chunks ++ [strip current_chunk] else chunks)
  = fst st ++ map strip (running_from self sentences st).
Proof.
  revert st. induction sentences as [|sentence sentences IH]; intros [chunks cur].
  - simpl. destruct (nonempty cur); simpl; [reflexivity|].
    rewrite app_nil_r. reflexivity.
  - cbn [fold_left running_from]. rewrite IH. cbn [snd fst].
    unfold chunk_step at 1.
    destruct (chunk_size self <? length cur + length sentence);
      destruct (nonempty cur); cbn [fst andb map]; try reflexivity.
    rewrite <- app_assoc. reflexivity.
Qed.

Section Seams.

Variable self : PDFService.
Variable all : list str.

(** Every two neighbours of a list are related. *)
Fixpoint chained (P : str -> str -> Prop) (l : list str) : Prop :=
  match l with
  | a :: (b :: _) as l' => P a b /\ chained P l'
  | _ => True
  end.

Lemma chained_nth (P : str -> str -> Prop) (l : list str) (i : nat) (a b : str) :
  chained P l -> nth_error l i = Some a -> nth_error l (S i) = Some b -> P a b.
Proof.
  revert i. induction l as [|x l IH]; intros i Hc Ha Hb.
  - destruct i; discriminate.
  - destruct l as [|y l']; [destruct i; discriminate|].
    destruct Hc as [Hxy Hc]. destruct i as [|i].
    + simpl in Ha, Hb. inversion Ha; inversion Hb; subst. exact Hxy.
    + simpl in Ha. apply (IH i Hc Ha). exact Hb.
Qed.

(** The running chunks closed from a state on are chained by seams, and
    the first of them is at a seam with whatever closed chunk seeded the
    running chunk of the state. *)
Lemma running_from_seams (sentences : list str) (st : list str * str) :
  Forall (fun s => In s all) sentences ->
  chained (carried self all) (running_from self sentences st) /\
  forall prev first,
    carried self all prev (snd st) ->
    hd_error (running_from self sentences st) = Some first ->
    carried self all prev first.
Proof.
  revert st. induction sentences as [|sentence sentences IH];
    intros [chunks cur] Hall.
  - simpl. destruct (nonempty cur); simpl; split; auto.
    + intros prev first Hs Hf. inversion Hf; subst. exact Hs.
    + intros prev first _ Hf. discriminate.
  - inversion Hall as [|x xs Hin Hall']; subst.
    cbn [running_from snd].
    destruct (IH (chunk_step self (chunks, cur) sentence) Hall') as [Hch Hhd].
    unfold chunk_step in Hch, Hhd |- *.
    destruct (chunk_size self <? length cur + length sentence) eqn:Hov.
    + destruct (nonempty cur) eqn:Hne; cbn [andb].
      * (* the running chunk is closed *)
        apply Nat.ltb_lt in Hov.
        assert (Hseam : carried self all cur
                          (_get_overlap_text self cur ++ py " " ++ sentence)).
        { exists sentence, []. rewrite app_nil_r. auto. }
        split.
        -- cbn [snd] in Hhd.
           destruct (running_from self sentences
                       (chunks ++ [strip cur],
                        _get_overlap_text self cur ++ py " " ++ sentence))
             as [|next rest] eqn:Hrun; [exact I|].
           split; [|exact Hch].
           apply (Hhd cur next Hseam). reflexivity.
        -- intros prev first Hs Hf. inversion Hf; subst. exact Hs.
      * (* an empty running chunk: the sentence starts it *)
        split; [exact Hch|].
        intros prev first (s0 & more & _ & _ & Hcur) _.
        destruct cur; [|discriminate].
        destruct (_get_overlap_text self prev); discriminate.
    + cbn [andb]. split; [exact Hch|].
      intros prev first (s0 & more & Hs0 & Hlen & Hcur) Hf.
      apply (Hhd prev first); [|exact Hf].
      cbn [snd]. exists s0, (more ++ py " " ++ sentence).
      split; [exact Hs0|]. split; [exact Hlen|].
      assert (Hne : nonempty cur = true)
        by (rewrite Hcur; apply nonempty_app_cons).
      rewrite Hne, Hcur. norm_app. reflexivity.
Qed.

(** Any two neighbours among the running chunks of a text. *)
Lemma running_chunks_carried (text : str) (i : nat) (closed next : str) :
  all = _split_into_sentences text ->
  nth_error (running_chunks self text) i = Some closed ->
  nth_error (running_chunks self text) (S i) = Some next ->
  carried self all closed next.
Proof.
  intros Hall Hi HSi.
  destruct (running_from_seams (_split_into_sentences text) ([], [])) as [Hch _].
  - apply Forall_forall. rewrite Hall. auto.
  - apply (chained_nth _ _ _ _ _ Hch Hi HSi).
Qed.

End Seams.

(** C3, as stated, fails on a closed chunk of at most [overlap_len]
    characters: the text "hello world. " followed by 1000 'a' closes the
    chunk "hello world" and seeds the next chunk with all of it, where the
    stated rule starts the seed after the first space, at "world". *)
Lemma overlap_seam_counterexample :
  chunk_text PDFService_init (py "hello world. " ++ times "a" 1000)
  = [py "hello world"; py "hello world " ++ times "a" 1000] /\
  seam_seed_as_stated 200 (py "hello world") = py "world" /\
  ~ seam_rule_as_stated PDFService_init.
Proof.
  split; [vm_compute; reflexivity|].
  split; [vm_compute; reflexivity|].
  intros H.
  specialize (H [] (py "hello world") (times "a" 1000)).
  assert (Hne : py "hello world" <> []) by discriminate.
  assert (Hov : chunk_size PDFService_init
                < length (py "hello world") + length (times "a" 1000))
    by (vm_compute; lia).
  specialize (H Hne Hov).
  apply (f_equal (fun st => nth 0 (snd st) 0%N)) in H.
  vm_compute in H. discriminate.
Qed.

(** C3, amended.  For every text and every configuration with a positive
    overlap, the chunks of [chunk_text] are the running chunks the loop
    closes, stripped, and any two neighbours among these running chunks
    meet at a seam: the earlier one was closed because a sentence would
    exceed [chunk_size], and the later one starts with the seed of the
    earlier one, a space and that sentence.  The seed is the whole closed
    chunk when it has at most [chunk_overlap] characters; otherwise it is
    the last [chunk_overlap] characters cut after their first space and
    stripped, or verbatim when they hold no space. *)
Theorem chunk_text_overlap_seam (self : PDFService) (text : str) :
  0 < chunk_overlap self ->
  chunk_text self text = map strip (running_chunks self text) /\
  forall i closed next,
    nth_error (running_chunks self text) i = Some closed ->
    nth_error (running_chunks self text) (S i) = Some next ->
    exists sentence more,
      In sentence (_split_into_sentences text) /\
      chunk_size self < length closed + length sentence /\
      next = overlap_seed (chunk_overlap self) closed
             ++ py " " ++ sentence ++ more.
Proof.
  intros Hpos. split.
  - unfold chunk_text, running_chunks.
    apply (chunk_loop_closed self (_split_into_sentences text) ([], [])).
  - intros i closed next Hi HSi.
    destruct (running_chunks_carried self (_split_into_sentences text) text
                i closed next eq_refl Hi HSi)
      as (sentence & more & Hin & Hlen & Hnext).
    exists sentence, more. rewrite <- _get_overlap_text_seed by exact Hpos.
    auto.
Qed.

(** A text whose first sentence has 302 characters and whose second does
    not fit: the first running chunk is closed, and the second is seeded
    with the last 200 characters of the first, from after their first
    space. *)
Definition seam_text : str := times "ab " 100 ++ py "cd. " ++ times "e" 900.

Lemma chunk_text_overlap_seam_witness :
  chunk_text PDFService_init seam_text
  = [times "ab " 100 ++ py "cd";
     times "ab " 65 ++ py "cd " ++ times "e" 900] /\
  exists sentence more,
    In sentence (_split_into_sentences seam_text) /\
    chunk_size PDFService_init
    < length (times "ab " 100 ++ py "cd") + length sentence /\
    times "ab " 65 ++ py "cd " ++ times "e" 900
    = overlap_seed (chunk_overlap PDFService_init) (times "ab " 100 ++ py "cd")
      ++ py " " ++ sentence ++ more.
Proof.
  assert (Hpos : 0 < chunk_overlap PDFService_init) by (simpl; lia).
  destruct (chunk_text_overlap_seam PDFService_init seam_text Hpos)
    as [Hchunks Hseam].
  split.
  - rewrite Hchunks. vm_compute. reflexivity.
  - apply (Hseam 0); vm_compute; reflexivity.
Defined.

(* ===================================================================== *)
(** ** Text normalization *)
(* ===================================================================== *)

(** *** The normalization as the specification words it *)

(** The maximal runs of a string: consecutive characters on which the
    class [p] agrees, in order. *)
Fixpoint runs (p : char -> bool) (s : str) : list str :=
  match s with
  | [] => []
  | c :: s' =>
      match runs p s' with
      | (d :: b) :: bs =>
          if Bool.eqb (p c) (p d) then (c :: d :: b) :: bs
          else [c] :: (d :: b) :: bs
      | rs => [c] :: rs
      end
  end.

Definition run_of (p : char -> bool) (r : str) : bool :=
  match r with c :: _ => p c | [] => false end.

(** Replace every run of [p]-characters of length at least [m]. *)
Definition replace_runs (p : char -> bool) (m : nat) (repl s : str) : str :=
  concat (map (fun r => if run_of p r && (m <=? length r) then repl else r)
              (runs p s)).

(** Collapse every whitespace run to a single space. *)
Definition collapse_whitespace (s : str) : str := replace_runs is_space 1 [sp] s.

(** Keep word characters, whitespace and the listed punctuation. *)
Definition keep_allowed (isalnum : char -> bool) (s : str) : str :=
  filter (fun c => is_word isalnum c || is_space c || is_kept_punct c) s.

(** Collapse every run of three or more periods to three periods. *)
Definition collapse_periods (s : str) : str :=
  replace_runs is_period 3 [46; 46; 46]%N s.

Definition clean_text_spec (isalnum : char -> bool) (text : str) : str :=
  strip (collapse_periods (keep_allowed isalnum (collapse_whitespace text))).

(** *** The regular-expression substitution *)

Lemma skipn_length_le {A} (n : nat) (l : list A) : length (skipn n l) <= length l.
Proof. rewrite length_skipn. lia. Qed.

Lemma sub_fuel_enough (q : Re.pattern) (repl : str) (fuel1 fuel2 : nat) (s : str) :
  length s <= fuel1 -> length s <= fuel2 ->
  Re.sub_fuel fuel1 q repl s = Re.sub_fuel fuel2 q repl s.
Proof.
  revert fuel2 s. induction fuel1 as [|f1 IH]; intros fuel2 s H1 H2.
  - destruct s; [|simpl in H1; lia]. destruct fuel2; reflexivity.
  - destruct fuel2 as [|f2].
    + destruct s; [reflexivity|simpl in H2; lia].
    + simpl. destruct s as [|c s']; [reflexivity|]. simpl in H1, H2.
      destruct (Re.match_here q (c :: s')) as [n|].
      * f_equal. apply IH;
          pose proof (skipn_length_le (n - 1) s'); lia.
      * f_equal. apply IH; lia.
Qed.

(** The recursive equations of [re.sub]; the fuel never runs out. *)
Lemma sub_equation (q : Re.pattern) (repl : str) (c : char) (s' : str) :
  Re.sub q repl (c :: s') =
  match Re.match_here q (c :: s') with
  | Some n => repl ++ Re.sub q repl (skipn (n - 1) s')
  | None => c :: Re.sub q repl s'
  end.
Proof.
  unfold Re.sub. simpl Re.sub_fuel at 1.
  change (length (c :: s')) with (S (length s')). cbv beta iota.
  simpl Re.sub_fuel at 1.
  destruct (Re.match_here q (c :: s')) as [n|]; [|reflexivity].
  f_equal. apply sub_fuel_enough; auto using skipn_length_le.
Qed.

Lemma sub_nil (q : Re.pattern) (repl : str) : Re.sub q repl [] = [].
Proof. reflexivity. Qed.

(** A class under [{1,1}]: every matching character is replaced. *)
Lemma sub_single_delete (p : char -> bool) (s : str) :
  Re.sub {| Re.cls := p; Re.rep_min := 1; Re.rep_max := Some 1 |} [] s
  = filter (fun c => negb (p c)) s.
Proof.
  induction s as [|c s IH]; [reflexivity|].
  rewrite sub_equation. unfold Re.match_here. simpl.
  destruct (p c); simpl.
  - rewrite ?Nat.min_0_r. simpl. exact IH.
  - rewrite IH. reflexivity.
Qed.

Section SubRuns.

Variable p : char -> bool.
Variable m : nat.
Variable repl : str.
Hypothesis m_pos : 1 <= m.

Let q := {| Re.cls := p; Re.rep_min := m; Re.rep_max := None |}.

Lemma runs_head (c : char) (s : str) :
  exists b bs, runs p (c :: s) = (c :: b) :: bs.
Proof.
  simpl. destruct (runs p s) as [|[|d b] bs]; eauto.
  destruct (Bool.eqb (p c) (p d)); eauto.
Qed.

Lemma runs_cons_true (c : char) (s : str) :
  p c = true ->
  runs p (c :: s)
  = (c :: firstn (Re.run_length p s) s) :: runs p (skipn (Re.run_length p s) s).
Proof.
  revert c. induction s as [|d s IH]; intros c Hc; [reflexivity|].
  change (runs p (c :: d :: s)) with
    (match runs p (d :: s) with
     | (e :: b) :: bs =>
         if Bool.eqb (p c) (p e) then (c :: e :: b) :: bs
         else [c] :: (e :: b) :: bs
     | rs => [c] :: rs
     end).
  simpl Re.run_length. destruct (p d) eqn:Hd.
  - rewrite (IH d Hd). rewrite Hc, Hd. reflexivity.
  - destruct (runs_head d s) as (b & bs & Hr).
    simpl firstn. simpl skipn. rewrite Hr, Hc, Hd. reflexivity.
Qed.

Lemma runs_cons_false (c : char) (s : str) :
  p c = false ->
  replace_runs p m repl (c :: s) = c :: replace_runs p m repl s.
Proof.
  intros Hc. unfold replace_runs. simpl runs.
  destruct (runs p s) as [|[|d b] bs] eqn:Hr.
  - simpl. rewrite Hc. reflexivity.
  - simpl. rewrite Hc. reflexivity.
  - destruct (p d) eqn:Hd; rewrite Hc; simpl Bool.eqb; cbv iota;
      simpl; rewrite Hc, ?Hd; reflexivity.
Qed.

Lemma run_length_firstn (s : str) :
  length (firstn (Re.run_length p s) s) = Re.run_length p s.
Proof.
  induction s as [|c s IH]; [reflexivity|].
  simpl. destruct (p c); simpl; auto.
Qed.

(** Below the minimum, a [p]-character at the head of a run is copied. *)
Lemma replace_runs_short (c : char) (s : str) :
  p c = true -> S (Re.run_length p s) < m ->
  replace_runs p m repl (c :: s) = c :: replace_runs p m repl s.
Proof.
  intros Hc Hlt. unfold replace_runs. rewrite (runs_cons_true c s Hc).
  simpl map. simpl concat. rewrite Hc. simpl andb.
  rewrite run_length_firstn.
  destruct (m <=? S (Re.run_length p s)) eqn:Hm; [apply Nat.leb_le in Hm; lia|].
  destruct s as [|d s']; [reflexivity|].
  simpl Re.run_length in *. destruct (p d) eqn:Hd.
  - rewrite (runs_cons_true d s' Hd). simpl map. simpl concat.
    rewrite Hd. simpl andb. rewrite run_length_firstn.
    destruct (m <=? S (Re.run_length p s')) eqn:Hm';
      [apply Nat.leb_le in Hm'; lia|].
    reflexivity.
  - reflexivity.
Qed.

Lemma replace_runs_long (c : char) (s : str) :
  p c = true -> m <= S (Re.run_length p s) ->
  replace_runs p m repl (c :: s)
  = repl ++ replace_runs p m repl (skipn (Re.run_length p s) s).
Proof.
  intros Hc Hle. unfold replace_runs. rewrite (runs_cons_true c s Hc).
  simpl map. simpl concat. rewrite Hc. simpl andb.
  rewrite run_length_firstn.
  apply Nat.leb_le in Hle. rewrite Hle. reflexivity.
Qed.

(** [re.sub] of a class under [{m,}] replaces exactly the maximal runs of
    length at least [m]. *)
Lemma sub_replace_runs (s : str) : Re.sub q repl s = replace_runs p m repl s.
Proof.
  remember (length s) as n eqn:Hn.
  assert (Hle : length s <= n) by lia. clear Hn.
  revert s Hle. induction n as [|n IH]; intros s Hle.
  - destruct s; [reflexivity|simpl in Hle; lia].
  - destruct s as [|c s']; [reflexivity|]. simpl in Hle.
    rewrite sub_equation. unfold Re.match_here. simpl Re.cls. simpl Re.rep_max.
    simpl Re.rep_min. simpl Re.run_length.
    destruct (p c) eqn:Hc.
    + destruct (m <=? S (Re.run_length p s')) eqn:Hm; simpl andb; cbv iota.
      * apply Nat.leb_le in Hm.
        rewrite (replace_runs_long c s' Hc Hm).
        simpl Nat.sub. rewrite Nat.sub_0_r. f_equal.
        apply IH. pose proof (skipn_length_le (Re.run_length p s') s'). lia.
      * apply Nat.leb_gt in Hm.
        rewrite (replace_runs_short c s' Hc Hm). f_equal. apply IH. lia.
    + destruct (m <=? 0) eqn:Hm; [apply Nat.leb_le in Hm; lia|].
      simpl andb. cbv iota.
      rewrite (runs_cons_false c s' Hc).
      f_equal. apply IH. lia.
Qed.

End SubRuns.

(** C7. For every input string (and whatever Python's Unicode table makes
    of [isalnum]), [_clean_text] computes, in this order: every whitespace
    run collapsed to one space, every character outside word characters,
    whitespace and . , ; : ! ? ( ) - removed, every run of three or more
    periods collapsed to three periods, and leading and trailing whitespace
    trimmed.  Being a function of its input, the result is determined by
    the input alone. *)
Theorem _clean_text_normalizes (isalnum : char -> bool) (text : str) :
  _clean_text isalnum text = clean_text_spec isalnum text.
Proof.
  unfold _clean_text, clean_text_spec.
  unfold collapse_periods, collapse_whitespace, keep_allowed.
  rewrite (sub_replace_runs is_space 1 (py " ")) by lia.
  rewrite sub_single_delete.
  rewrite (sub_replace_runs is_period 3 (py "...")) by lia.
  f_equal. f_equal.
  apply filter_ext. intros c. unfold is_special. apply negb_involutive.
Qed.

(* ===================================================================== *)
(** ** Running the monad *)
(* ===================================================================== *)

(** The world after [n] more collaborator calls and the events [evs]. *)
Definition advance (n : nat) (evs : list event) (s : world) : world :=
  {| tick := n + tick s; trace := trace s ++ evs; documents := documents s;
     document_chunks := document_chunks s; user_queries := user_queries s;
     answers := answers s; answer_clauses := answer_clauses s;
     index_vectors := index_vectors s |}.

Lemma world_ext (s s' : world) :
  tick s = tick s' -> trace s = trace s' -> documents s = documents s' ->
  document_chunks s = document_chunks s' -> user_queries s = user_queries s' ->
  answers s = answers s' -> answer_clauses s = answer_clauses s' ->
  index_vectors s = index_vectors s' -> s = s'.
Proof.
  destruct s, s'. simpl. intros. subst. reflexivity.
Qed.

Ltac world_eq :=
  apply world_ext; simpl; rewrite <- ?app_assoc, ?app_nil_r; simpl;
  try reflexivity; try lia.

Lemma advance_0 (s : world) : advance 0 [] s = s.
Proof. world_eq. Qed.

Lemma advance_advance (n m : nat) (evs evs' : list event) (s : world) :
  advance n evs (advance m evs' s) = advance (n + m) (evs' ++ evs) s.
Proof. world_eq. Qed.

Lemma set_tick_advance (s : world) : set_tick (S (tick s)) s = advance 1 [] s.
Proof. world_eq. Qed.

Lemma add_event_advance (e : event) (s : world) : add_event e s = advance 0 [e] s.
Proof. world_eq. Qed.

Lemma documents_advance n evs s : documents (advance n evs s) = documents s.
Proof. reflexivity. Qed.
Lemma document_chunks_advance n evs s :
  document_chunks (advance n evs s) = document_chunks s.
Proof. reflexivity. Qed.
Lemma user_queries_advance n evs s : user_queries (advance n evs s) = user_queries s.
Proof. reflexivity. Qed.
Lemma answers_advance n evs s : answers (advance n evs s) = answers s.
Proof. reflexivity. Qed.
Lemma answer_clauses_advance n evs s :
  answer_clauses (advance n evs s) = answer_clauses s.
Proof. reflexivity. Qed.
Lemma index_vectors_advance n evs s : index_vectors (advance n evs s) = index_vectors s.
Proof. reflexivity. Qed.
Lemma tick_advance n evs s : tick (advance n evs s) = n + tick s.
Proof. reflexivity. Qed.
Lemma trace_advance n evs s : trace (advance n evs s) = trace s ++ evs.
Proof. reflexivity. Qed.

Section Running.

Variable E : env.

Lemma bind_ok {A B} (m : M A) (k : A -> M B) (s s' : world) (a : A) :
  m s = (Ok a, s') -> bind m k s = k a s'.
Proof. intros H. unfold bind. rewrite H. reflexivity. Qed.

Lemma bind_raise {A B} (m : M A) (k : A -> M B) (s s' : world) (e : exn) :
  m s = (Raise e, s') -> bind m k s = (Raise e, s').
Proof. intros H. unfold bind. rewrite H. reflexivity. Qed.

Lemma run_external (s : world) : external s = (Ok (tick s), advance 1 [] s).
Proof. unfold external. rewrite set_tick_advance. reflexivity. Qed.

Lemma run_log (e : event) (s : world) : log e s = (Ok tt, advance 0 [e] s).
Proof. unfold log, modify. rewrite add_event_advance. reflexivity. Qed.

Lemma run_uuid4 (s : world) : uuid4 E s = (Ok (uuid4_at E (tick s)), advance 1 [] s).
Proof. unfold uuid4. rewrite (bind_ok _ _ _ _ _ (run_external s)). reflexivity. Qed.

Lemma run_get_ist_timestamp (s : world) :
  get_ist_timestamp E s = (Ok (timestamp_at E (tick s)), advance 1 [] s).
Proof.
  unfold get_ist_timestamp. rewrite (bind_ok _ _ _ _ _ (run_external s)).
  reflexivity.
Qed.

Lemma run_fallible (e : exn) (s : world) :
  fallible E e s
  = (if raises E (tick s) then Raise e else Ok tt, advance 1 [] s).
Proof.
  unfold fallible. rewrite (bind_ok _ _ _ _ _ (run_external s)).
  destruct (raises E (tick s)); reflexivity.
Qed.

(** The same steps under a continuation. *)

Lemma bind_bind {A B C} (m : M A) (k : A -> M B) (k' : B -> M C) (s : world) :
  bind (bind m k) k' s = bind m (fun a => bind (k a) k') s.
Proof. unfold bind. destruct (m s) as [[a|e] s']; reflexivity. Qed.

Lemma bind_ret {A B} (a : A) (k : A -> M B) (s : world) : bind (ret a) k s = k a s.
Proof. reflexivity. Qed.

Lemma bind_log {B} (e : event) (k : unit -> M B) (s : world) :
  bind (log e) k s = k tt (advance 0 [e] s).
Proof. apply bind_ok, run_log. Qed.

Lemma bind_uuid4 {B} (k : str -> M B) (s : world) :
  bind (uuid4 E) k s = k (uuid4_at E (tick s)) (advance 1 [] s).
Proof. apply bind_ok, run_uuid4. Qed.

Lemma bind_get_ist_timestamp {B} (k : str -> M B) (s : world) :
  bind (get_ist_timestamp E) k s = k (timestamp_at E (tick s)) (advance 1 [] s).
Proof. apply bind_ok, run_get_ist_timestamp. Qed.

Lemma bind_fallible_ok {B} (e : exn) (k : unit -> M B) (s : world) :
  raises E (tick s) = false ->
  bind (fallible E e) k s = k tt (advance 1 [] s).
Proof. intros H. apply bind_ok. rewrite run_fallible, H. reflexivity. Qed.

Lemma bind_fallible_raise {B} (e : exn) (k : unit -> M B) (s : world) :
  raises E (tick s) = true ->
  bind (fallible E e) k s = (Raise e, advance 1 [] s).
Proof. intros H. apply bind_raise. rewrite run_fallible, H. reflexivity. Qed.

Lemma bind_get_world {B} (k : world -> M B) (s : world) :
  bind get_world k s = k s s.
Proof. reflexivity. Qed.

Lemma bind_modify {B} (f : world -> world) (k : unit -> M B) (s : world) :
  bind (modify f) k s = k tt (f s).
Proof. reflexivity. Qed.

Lemma try_except_ok {A} (m : M A) (h : exn -> M A) (s s' : world) (a : A) :
  m s = (Ok a, s') -> try_except m h s = (Ok a, s').
Proof. intros H. unfold try_except. rewrite H. reflexivity. Qed.

Lemma try_except_raise {A} (m : M A) (h : exn -> M A) (s s' : world) (e : exn) :
  m s = (Raise e, s') -> try_except m h s = h e s'.
Proof. intros H. unfold try_except. rewrite H. reflexivity. Qed.

End Running.

(* ===================================================================== *)
(** ** The retry loop of the fetcher *)
(* ===================================================================== *)

(** The events of one [session.get] whose every request is answered with a
    status of the force list: [retries + 1] requests with a backoff of the
    adapter between them. *)
Fixpoint exhausted_events (pdf_url : str) (retries : nat) : list event :=
  match retries with
  | 0 => [EvHttpRequest pdf_url]
  | S retries' =>
      EvHttpRequest pdf_url :: EvAdapterBackoff :: exhausted_events pdf_url retries'
  end.

Definition always_status (E : env) (pdf_url : str) (status : nat) : Prop :=
  forall n, exists r, wire E pdf_url n = WireResponse r /\ status_code r = status.

Lemma adapter_send_exhausted (E : env) (pdf_url : str) (status : nat)
    (retries : nat) (s : world) :
  always_status E pdf_url status -> in_forcelist status = true ->
  adapter_send E pdf_url retries s
  = (Ok (GetRaised ReqRetryError),
     advance (S retries) (exhausted_events pdf_url retries) s).
Proof.
  intros Hw Hf. revert s. induction retries as [|k IH]; intros s.
  - simpl. rewrite (bind_ok _ _ _ _ _ (run_external s)).
    rewrite (bind_ok _ _ _ _ _ (run_log _ _)).
    destruct (Hw (tick s)) as (r & -> & Hr). rewrite Hr, Hf.
    unfold ret. f_equal. rewrite advance_advance. reflexivity.
  - simpl. rewrite (bind_ok _ _ _ _ _ (run_external s)).
    rewrite (bind_ok _ _ _ _ _ (run_log _ _)).
    destruct (Hw (tick s)) as (r & -> & Hr). rewrite Hr, Hf.
    rewrite (bind_ok _ _ _ _ _ (run_log _ _)).
    rewrite IH. f_equal. rewrite !advance_advance. world_eq.
Qed.

(** The loop-level view of a trace: the attempts of the retry loop and the
    waits between them. *)
Definition is_attempt_or_sleep (e : event) : bool :=
  match e with
  | EvSessionGet _ _ | EvSleep _ => true
  | _ => false
  end.



Definition http_requests (evs : list event) : nat :=
  length (filter (fun e => match e with EvHttpRequest _ => true | _ => false end) evs).


Definition valid_scheme (pdf_url : str) : bool :=
  startswith (py "http://") pdf_url || startswith (py "https://") pdf_url.

(** The events of a fetch whose every request is answered with 503. *)
Definition events_always_503 (pdf_url : str) : list event :=
  [EvExtractTextFromUrl pdf_url; EvSessionGet pdf_url 0]
  ++ exhausted_events pdf_url 3
  ++ [EvSleep 1; EvSessionGet pdf_url 1]
  ++ exhausted_events pdf_url 3
  ++ [EvSleep 2; EvSessionGet pdf_url 2]
  ++ exhausted_events pdf_url 3.

Lemma extract_text_always_503 (E : env) (self : PDFService) (pdf_url : str)
    (s : world) :
  valid_scheme pdf_url = true ->
  always_status E pdf_url 503 ->
  extract_text_from_url E self pdf_url s
  = (Raise (RequestsError ReqRetryError),
     advance 12 (events_always_503 pdf_url) s).
Proof.
  intros Hscheme Hw. unfold extract_text_from_url.
  rewrite (bind_ok _ _ _ _ _ (run_log _ _)).
  unfold valid_scheme in Hscheme. rewrite Hscheme. simpl negb. cbv iota.
  assert (Hget : forall s0, session_get E pdf_url s0
                 = (Ok (GetRaised ReqRetryError),
                    advance 4 (exhausted_events pdf_url 3) s0)).
  { intros s0. unfold session_get.
    apply (adapter_send_exhausted E pdf_url 503 3 s0 Hw). reflexivity. }
  apply bind_raise.
  simpl download.
  rewrite (bind_ok _ _ _ _ _ (run_log _ _)).
  rewrite (bind_ok _ _ _ _ _ (Hget _)). simpl.
  unfold sleep. rewrite (bind_ok _ _ _ _ _ (run_log _ _)).
  rewrite (bind_ok _ _ _ _ _ (run_log _ _)).
  rewrite (bind_ok _ _ _ _ _ (Hget _)). simpl.
  rewrite (bind_ok _ _ _ _ _ (run_log _ _)).
  rewrite (bind_ok _ _ _ _ _ (run_log _ _)).
  rewrite (bind_ok _ _ _ _ _ (Hget _)). simpl.
  unfold raise. f_equal. rewrite !advance_advance. world_eq.
Qed.




Lemma fetch_always_503_requests (E : env) (self : PDFService)
    (pdf_url : str) (s : world) :
  valid_scheme pdf_url = true ->
  always_status E pdf_url 503 ->
  http_requests
    (skipn (length (trace s))
           (trace (snd (extract_text_from_url E self pdf_url s)))) = 12.
Proof.
  intros Hscheme Hw. rewrite extract_text_always_503 by assumption.
  simpl snd. simpl trace. rewrite skipn_app, skipn_all, Nat.sub_diag.
  reflexivity.
Qed.

(* ===================================================================== *)
(** ** The vector index: ids and degraded mode *)
(* ===================================================================== *)

Section Ids.

Variable E : env.

(** The id made for ordinal [i] from the uuid drawn at call [n]. *)
Definition id_at (prefix document_id : str) (i n : nat) : str :=
  prefix ++ document_id ++ py "_" ++ str_of_nat i ++ py "_"
  ++ slice_to 8 (uuid4_at E n).

(** The ids made for the ordinals [l], drawing uuids from call [n] on. *)
Fixpoint ids_from (prefix document_id : str) (n : nat) (l : list nat) : list str :=
  match l with
  | [] => []
  | i :: l' => id_at prefix document_id i n :: ids_from prefix document_id (S n) l'
  end.

Lemma run_make_id (prefix document_id : str) (i : nat) (s : world) :
  make_id E prefix document_id i s
  = (Ok (id_at prefix document_id i (tick s)), advance 1 [] s).
Proof.
  unfold make_id. rewrite (bind_ok _ _ _ _ _ (run_uuid4 E s)). reflexivity.
Qed.

Lemma run_for_each_make_id (prefix document_id : str) (l : list nat) (s : world) :
  for_each (make_id E prefix document_id) l s
  = (Ok (ids_from prefix document_id (tick s) l), advance (length l) [] s).
Proof.
  revert s. induction l as [|i l IH]; intros s.
  - simpl. unfold ret. rewrite advance_0. reflexivity.
  - simpl. rewrite (bind_ok _ _ _ _ _ (run_make_id _ _ _ _)).
    rewrite (bind_ok _ _ _ _ _ (IH _)). unfold ret. simpl tick.
    f_equal. world_eq.
Qed.

Lemma run_dummy_ids (prefix document_id : str) (chunks : list str) (s : world) :
  dummy_ids E prefix document_id chunks s
  = (Ok (ids_from prefix document_id (tick s) (seq 0 (length chunks))),
     advance (length chunks) [] s).
Proof.
  unfold dummy_ids. rewrite run_for_each_make_id, length_seq. reflexivity.
Qed.

Lemma ids_from_length (prefix document_id : str) (n : nat) (l : list nat) :
  length (ids_from prefix document_id n l) = length l.
Proof. revert n. induction l; intros n; simpl; auto. Qed.

Lemma startswith_app (p s : str) : startswith p (p ++ s) = true.
Proof.
  induction p as [|c p IH]; [reflexivity|].
  simpl. rewrite N.eqb_refl. exact IH.
Qed.

Lemma ids_from_prefix (prefix document_id : str) (n : nat) (l : list nat) :
  Forall (fun id => startswith prefix id = true)
         (ids_from prefix document_id n l).
Proof.
  revert n. induction l as [|i l IH]; intros n; simpl; constructor; auto.
  apply startswith_app.
Qed.

(** The [k]-th id carries the [k]-th ordinal. *)
Lemma ids_from_nth (prefix document_id : str) (n : nat) (l : list nat)
    (k : nat) (id : str) :
  nth_error (ids_from prefix document_id n l) k = Some id ->
  exists i, nth_error l k = Some i /\ id = id_at prefix document_id i (n + k).
Proof.
  revert n k. induction l as [|i l IH]; intros n k H.
  - destruct k; discriminate.
  - destruct k as [|k]; simpl in H.
    + inversion H. exists i. rewrite Nat.add_0_r. split; reflexivity.
    + destruct (IH _ _ H) as (j & Hj & ->). exists j. split; [exact Hj|].
      f_equal. lia.
Qed.

(** The vectors built for the enumerated (chunk, embedding) pairs. *)
Fixpoint vectors_from (document_id : str) (n : nat)
    (items : list (nat * (str * embedding))) : list Vector.t :=
  match items with
  | [] => []
  | (i, (chunk, embedding)) :: items' =>
      {| Vector.id := id_at [] document_id i n;
         Vector.values := embedding;
         Vector.meta := {| Vector.document_id := document_id;
                           Vector.chunk_index := i;
                           Vector.text := slice_to 1000 chunk;
                           Vector.full_text := chunk |} |}
      :: vectors_from document_id (S n) items'
  end.

Lemma run_for_each_make_vector (document_id : str)
    (items : list (nat * (str * embedding))) (s : world) :
  for_each (make_vector E document_id) items s
  = (Ok (vectors_from document_id (tick s) items), advance (length items) [] s).
Proof.
  revert s. induction items as [|[i [chunk emb]] items IH]; intros s.
  - simpl. unfold ret. rewrite advance_0. reflexivity.
  - simpl. unfold make_vector at 1.
    rewrite (bind_ok _ _ _ _ _
               (bind_ok _ _ _ _ _ (run_make_id _ _ _ _))).
    unfold ret at 1.
    rewrite (bind_ok _ _ _ _ _ (IH _)). unfold ret. simpl tick.
    f_equal. world_eq.
Qed.

Lemma enumerate_length {A} (l : list A) : length (enumerate l) = length l.
Proof. unfold enumerate. rewrite length_combine, length_seq. lia. Qed.

Lemma vectors_from_ids (document_id : str) (n : nat)
    (items : list (nat * (str * embedding))) :
  map Vector.id (vectors_from document_id n items)
  = ids_from [] document_id n (map fst items).
Proof.
  revert n. induction items as [|[i [chunk emb]] items IH]; intros n; simpl;
    [reflexivity|]. rewrite IH. reflexivity.
Qed.

Lemma vectors_from_meta (document_id : str) (n : nat)
    (items : list (nat * (str * embedding))) :
  map (fun v => (Vector.chunk_index (Vector.meta v),
                 Vector.full_text (Vector.meta v)))
      (vectors_from document_id n items)
  = map (fun item => (fst item, fst (snd item))) items.
Proof.
  revert n. induction items as [|[i [chunk emb]] items IH]; intros n; simpl;
    [reflexivity|]. rewrite IH. reflexivity.
Qed.

Lemma enumerate_fst {A} (l : list A) : map fst (enumerate l) = seq 0 (length l).
Proof.
  unfold enumerate. generalize 0. induction l as [|a l IH]; intros n; simpl;
    [reflexivity|]. rewrite IH. reflexivity.
Qed.

Lemma enumerate_snd {A} (l : list A) : map snd (enumerate l) = l.
Proof.
  unfold enumerate. generalize 0. induction l as [|a l IH]; intros n; simpl;
    [reflexivity|]. rewrite IH. reflexivity.
Qed.

Lemma combine_map_fst {A B} (f : A -> B) (l : list A) :
  map fst (combine l (map f l)) = l.
Proof. induction l; simpl; congruence. Qed.

Lemma combine_map_length {A B} (f : A -> B) (l : list A) :
  length (combine l (map f l)) = length l.
Proof. rewrite length_combine, length_map. lia. Qed.

(** What [store_chunks] comes to, case by case. *)
Inductive stored (self : PineconeService) (chunks : list str)
    (document_id : str) (s : world) : list str -> world -> Prop :=
| stored_local :
    index self = false ->
    stored self chunks document_id s
      (ids_from (py "local_") document_id (tick s) (seq 0 (length chunks)))
      (advance (length chunks) [EvStoreChunks document_id chunks] s)
| stored_encode_raised :
    index self = true -> raises E (tick s) = true ->
    stored self chunks document_id s
      (ids_from (py "fallback_") document_id (S (tick s)) (seq 0 (length chunks)))
      (advance (S (length chunks))
               [EvStoreChunks document_id chunks; EvEncodeChunks chunks] s)
| stored_upsert_raised vectors :
    index self = true -> raises E (tick s) = false ->
    raises E (tick s + S (length chunks)) = true ->
    vectors = vectors_from document_id (S (tick s))
                (enumerate (combine chunks (map (embed E) chunks))) ->
    stored self chunks document_id s
      (ids_from (py "fallback_") document_id (tick s + S (S (length chunks)))
                (seq 0 (length chunks)))
      (advance (S (S (length chunks + length chunks)))
               [EvStoreChunks document_id chunks; EvEncodeChunks chunks;
                EvUpsert vectors] s)
| stored_upserted vectors :
    index self = true -> raises E (tick s) = false ->
    raises E (tick s + S (length chunks)) = false ->
    vectors = vectors_from document_id (S (tick s))
                (enumerate (combine chunks (map (embed E) chunks))) ->
    stored self chunks document_id s
      (map Vector.id vectors)
      (set_index_vectors
         (fold_left (fun vs v => upsert_one v vs) vectors (index_vectors s))
         (advance (S (S (length chunks)))
                  [EvStoreChunks document_id chunks; EvEncodeChunks chunks;
                   EvUpsert vectors] s)).


Lemma bind_for_each_make_vector {B} (document_id : str)
    (items : list (nat * (str * embedding))) (k : list Vector.t -> M B)
    (s : world) :
  bind (for_each (make_vector E document_id) items) k s
  = k (vectors_from document_id (tick s) items) (advance (length items) [] s).
Proof. apply bind_ok, run_for_each_make_vector. Qed.

Lemma enumerate_combine_length (chunks : list str) :
  length (enumerate (combine chunks (map (embed E) chunks))) = length chunks.
Proof. rewrite enumerate_length, combine_map_length. reflexivity. Qed.

Lemma run_store_chunks (self : PineconeService) (chunks : list str)
    (document_id : str) (s : world) :
  exists ids s',
    store_chunks E self chunks document_id s = (Ok ids, s') /\
    stored self chunks document_id s ids s'.
Proof.
  unfold store_chunks. rewrite bind_log; cbv beta.
  destruct (index self) eqn:Hidx; cbv beta iota delta [negb].
  - destruct (raises E (tick s)) eqn:Hr.
    + erewrite try_except_raise.
      2:{ rewrite bind_log; cbv beta. unfold encode. rewrite bind_bind; cbv beta.
          apply bind_fallible_raise. exact Hr. }
      rewrite run_dummy_ids. eexists _, _. split; [reflexivity|].
      simpl tick.
      replace (advance _ _ _)
        with (advance (S (length chunks))
                [EvStoreChunks document_id chunks; EvEncodeChunks chunks] s)
        by world_eq.
      apply stored_encode_raised; assumption.
    + set (vectors := vectors_from document_id (S (tick s))
                        (enumerate (combine chunks (map (embed E) chunks)))).
      destruct (raises E (tick s + S (length chunks))) eqn:Hu.
      * erewrite try_except_raise.
        2:{ rewrite bind_log; cbv beta. unfold encode. rewrite bind_bind; cbv beta.
            rewrite bind_fallible_ok by exact Hr; cbv beta. rewrite bind_ret; cbv beta.
            rewrite bind_for_each_make_vector; cbv beta. rewrite bind_log; cbv beta.
            unfold index_upsert. rewrite bind_bind; cbv beta.
            apply bind_fallible_raise. simpl tick.
            rewrite enumerate_combine_length.
            replace (length chunks + S (tick s))
              with (tick s + S (length chunks)) by lia.
            exact Hu. }
        rewrite run_dummy_ids. eexists _, _. split; [reflexivity|].
        simpl tick. rewrite enumerate_combine_length.
        replace (S (length chunks + S (tick s)))
          with (tick s + S (S (length chunks))) by lia.
        replace (advance (length chunks) _ _)
          with (advance (S (S (length chunks + length chunks)))
                  [EvStoreChunks document_id chunks; EvEncodeChunks chunks;
                   EvUpsert vectors] s)
          by (rewrite ?enumerate_combine_length; world_eq).
        apply stored_upsert_raised; auto.
      * erewrite try_except_ok.
        2:{ rewrite bind_log; cbv beta. unfold encode. rewrite bind_bind; cbv beta.
            rewrite bind_fallible_ok by exact Hr; cbv beta. rewrite bind_ret; cbv beta.
            rewrite bind_for_each_make_vector; cbv beta. rewrite bind_log; cbv beta.
            unfold index_upsert. rewrite !bind_bind; cbv beta.
            rewrite bind_fallible_ok; cbv beta.
            2:{ simpl tick. rewrite enumerate_combine_length.
                replace (length chunks + S (tick s))
                  with (tick s + S (length chunks)) by lia.
                exact Hu. }
            rewrite bind_modify; cbv beta. reflexivity. }
        eexists _, _. split; [reflexivity|].
        simpl tick. simpl index_vectors.
        replace (set_index_vectors _ _)
          with (set_index_vectors
                  (fold_left (fun vs v => upsert_one v vs) vectors (index_vectors s))
                  (advance (S (S (length chunks)))
                     [EvStoreChunks document_id chunks; EvEncodeChunks chunks;
                      EvUpsert vectors] s))
          by (rewrite ?enumerate_combine_length; world_eq).
        apply stored_upserted; auto.
  - rewrite run_dummy_ids. eexists _, _. split; [reflexivity|].
    simpl tick.
    replace (advance _ _ _)
      with (advance (length chunks) [EvStoreChunks document_id chunks] s)
      by world_eq.
    apply stored_local. assumption.
Qed.

End Ids.

Section Degraded.

Variable E : env.

Lemma vectors_from_length (document_id : str) (n : nat)
    (items : list (nat * (str * embedding))) :
  length (vectors_from E document_id n items) = length items.
Proof.
  revert n. induction items as [|[i [c e]] items IH]; intros n; simpl; auto.
Qed.

Lemma stored_length (self : PineconeService) (chunks : list str)
    (document_id : str) (s s' : world) (ids : list str) :
  stored E self chunks document_id s ids s' -> length ids = length chunks.
Proof.
  intros H. destruct H; subst;
    rewrite ?ids_from_length, ?length_seq, ?length_map, ?vectors_from_length,
      ?enumerate_combine_length; reflexivity.
Qed.

(** What [search_similar_chunks] comes to, case by case. *)
Lemma run_search_similar_chunks (self : PineconeService) (query : str)
    (top_k : nat) (s : world) :
  exists matches s',
    search_similar_chunks E self query top_k s = (Ok matches, s') /\
    (index self = false -> matches = []) /\
    (index self = true ->
     raises E (tick s) = true \/ raises E (S (tick s)) = true -> matches = []) /\
    documents s' = documents s /\
    document_chunks s' = document_chunks s /\
    user_queries s' = user_queries s /\
    answers s' = answers s /\
    answer_clauses s' = answer_clauses s /\
    index_vectors s' = index_vectors s /\
    exists evs, trace s' = trace s ++ evs /\
                Forall (fun e => match e with
                                 | EvEncodeQuery _ | EvIndexQuery _ => True
                                 | _ => False
                                 end) evs.
Proof.
  unfold search_similar_chunks.
  destruct (index self) eqn:Hidx; cbv beta iota delta [negb].
  - destruct (raises E (tick s)) eqn:Hr.
    + erewrite try_except_raise.
      2:{ rewrite bind_log; cbv beta. unfold encode. rewrite bind_bind; cbv beta.
          apply bind_fallible_raise. exact Hr. }
      eexists _, _. split; [reflexivity|].
      repeat split; auto.
      exists [EvEncodeQuery query]. simpl. rewrite <- app_assoc. split; auto.
    + destruct (raises E (S (tick s))) eqn:Hq.
      * erewrite try_except_raise.
        2:{ rewrite bind_log; cbv beta. unfold encode. rewrite bind_bind; cbv beta.
            rewrite bind_fallible_ok by exact Hr; cbv beta.
            rewrite bind_ret; cbv beta. rewrite bind_log; cbv beta.
            apply bind_fallible_raise. exact Hq. }
        eexists _, _. split; [reflexivity|].
        repeat split; auto.
        exists [EvEncodeQuery query; EvIndexQuery top_k]. simpl.
        rewrite <- !app_assoc. split; auto.
      * erewrite try_except_ok.
        2:{ rewrite bind_log; cbv beta. unfold encode. rewrite bind_bind; cbv beta.
            rewrite bind_fallible_ok by exact Hr; cbv beta.
            rewrite bind_ret; cbv beta. rewrite bind_log; cbv beta.
            rewrite bind_fallible_ok by exact Hq; cbv beta.
            rewrite bind_get_world; cbv beta. reflexivity. }
        eexists _, _. split; [reflexivity|].
        repeat split; auto; try discriminate.
        -- intros _ [H|H]; congruence.
        -- exists [EvEncodeQuery query; EvIndexQuery top_k]. simpl.
           rewrite <- !app_assoc. split; auto.
  - eexists _, _. split; [reflexivity|].
    repeat split; auto; try discriminate.
    exists []. rewrite app_nil_r. split; auto.
Qed.

End Degraded.

(** C4. In every world and for every query and every list of chunks,
    neither operation of the vector index raises.  Without an index
    ([self.index is None]) [search_similar_chunks] returns the empty
    sequence and [store_chunks] returns one id per chunk, each starting
    with "local_".  With an index, when encoding or the upsert raises
    [store_chunks] returns one id per chunk, each starting with
    "fallback_", and when encoding or the query raises
    [search_similar_chunks] returns the empty sequence. *)
Theorem degraded_mode_results (E : env) (self : PineconeService)
    (chunks : list str) (document_id query : str) (top_k : nat) (s : world) :
  (exists ids s',
      store_chunks E self chunks document_id s = (Ok ids, s') /\
      length ids = length chunks /\
      (index self = false ->
       Forall (fun id => startswith (py "local_") id = true) ids) /\
      (index self = true ->
       raises E (tick s) = true \/ raises E (tick s + S (length chunks)) = true ->
       Forall (fun id => startswith (py "fallback_") id = true) ids))
  /\
  (exists matches s',
      search_similar_chunks E self query top_k s = (Ok matches, s') /\
      (index self = false -> matches = []) /\
      (index self = true ->
       raises E (tick s) = true \/ raises E (S (tick s)) = true ->
       matches = [])).
Proof.
  split.
  - destruct (run_store_chunks E self chunks document_id s) as (ids & s' & Hrun & Hst).
    exists ids, s'. split; [exact Hrun|].
    split; [eapply stored_length; eassumption|].
    split.
    + intros Hidx. destruct Hst; try congruence. apply ids_from_prefix.
    + intros Hidx [Hr|Hr]; destruct Hst; try congruence; apply ids_from_prefix.
  - destruct (run_search_similar_chunks E self query top_k s)
      as (ms & s' & Hrun & Hnone & Hraise & _).
    exists ms, s'. auto.
Qed.

(* ===================================================================== *)
(** ** Persisting the chunks of a document *)
(* ===================================================================== *)

Section StoreChunks.

Variable E : env.

(** The row [create_document_chunk] builds in the world [s]. *)
Definition chunk_row (document_id : str) (chunk_index : nat)
    (chunk_text pinecone_id : str) (s : world) : DocumentChunk.t :=
  {| DocumentChunk.id := uuid4_at E (tick s);
     DocumentChunk.document_id := document_id;
     DocumentChunk.chunk_index := chunk_index;
     DocumentChunk.chunk_text := chunk_text;
     DocumentChunk.pinecone_id := pinecone_id;
     DocumentChunk.created_at := timestamp_at E (S (tick s)) |}.

Lemma run_create_document_chunk (document_id : str) (chunk_index : nat)
    (chunk_text pinecone_id : str) (s : world) :
  create_document_chunk E document_id chunk_index chunk_text pinecone_id s
  = if raises E (S (S (tick s))) then (Raise APIError, advance 3 [] s)
    else (Ok (chunk_row document_id chunk_index chunk_text pinecone_id s),
          add_document_chunk
            (chunk_row document_id chunk_index chunk_text pinecone_id s)
            (advance 3 [] s)).
Proof.
  unfold create_document_chunk.
  rewrite bind_uuid4; cbv beta. rewrite bind_get_ist_timestamp; cbv beta.
  unfold insert_document_chunk, execute. rewrite !bind_bind; cbv beta.
  simpl tick.
  destruct (raises E (S (S (tick s)))) eqn:Hr.
  - rewrite bind_fallible_raise by exact Hr. f_equal. world_eq.
  - rewrite bind_fallible_ok by exact Hr; cbv beta.
    rewrite bind_bind; cbv beta. rewrite bind_modify; cbv beta.
    rewrite bind_ret; cbv beta. unfold ret. f_equal.
    unfold chunk_row. simpl. world_eq.
Qed.

Definition chunk_fields (r : DocumentChunk.t) : nat * (str * str) :=
  (DocumentChunk.chunk_index r,
   (DocumentChunk.chunk_text r, DocumentChunk.pinecone_id r)).

Lemma run_create_document_chunks (document_id : str)
    (items : list (nat * (str * str))) (s s' : world)
    (rows : list DocumentChunk.t) :
  for_each (fun '(i, (chunk_text, pinecone_id)) =>
              create_document_chunk E document_id i chunk_text pinecone_id)
           items s = (Ok rows, s') ->
  document_chunks s' = document_chunks s ++ rows /\
  map chunk_fields rows = items /\
  Forall (fun r => DocumentChunk.document_id r = document_id) rows /\
  index_vectors s' = index_vectors s /\
  documents s' = documents s.
Proof.
  revert s rows. induction items as [|[i [c p]] items IH]; intros s rows H.
  - simpl in H. inversion H; subst. rewrite app_nil_r. repeat split; auto.
  - simpl in H. unfold bind at 1 in H.
    rewrite run_create_document_chunk in H.
    destruct (raises E (S (S (tick s)))); [discriminate|].
    unfold bind at 1 in H.
    destruct (for_each _ items _) as [[rs|e] s1] eqn:Hloop; [|discriminate].
    inversion H; subst. clear H.
    destruct (IH _ _ Hloop) as (Hdc & Hmap & Hall & Hiv & Hdoc).
    simpl in Hdc, Hiv, Hdoc.
    repeat split.
    + rewrite Hdc, <- app_assoc. reflexivity.
    + simpl. rewrite Hmap. reflexivity.
    + constructor; auto.
    + exact Hiv.
    + exact Hdoc.
Qed.

Lemma seq_nth_error (n k i : nat) :
  nth_error (seq n k) i = Some (n + i) \/ nth_error (seq n k) i = None.
Proof.
  revert n i. induction k as [|k IH]; intros n i.
  - right. destruct i; reflexivity.
  - destruct i as [|i]; simpl.
    + left. f_equal. lia.
    + destruct (IH (S n) i) as [H|H]; [left|right]; rewrite H; auto.
Qed.

(** Every id returned by [store_chunks] carries its own ordinal. *)
Lemma stored_ids_ordinal (self : PineconeService) (chunks : list str)
    (document_id : str) (s s' : world) (ids : list str) (i : nat) (id : str) :
  stored E self chunks document_id s ids s' ->
  nth_error ids i = Some id ->
  exists prefix suffix,
    id = prefix ++ document_id ++ py "_" ++ str_of_nat i ++ py "_" ++ suffix.
Proof.
  intros Hst Hi.
  assert (Hgen : forall prefix n,
             nth_error (ids_from E prefix document_id n (seq 0 (length chunks))) i
             = Some id ->
             exists prefix suffix,
               id = prefix ++ document_id ++ py "_" ++ str_of_nat i ++ py "_" ++ suffix).
  { intros prefix n H. apply ids_from_nth in H. destruct H as (j & Hj & ->).
    destruct (seq_nth_error 0 (length chunks) i) as [Hs|Hs];
      rewrite Hs in Hj; [|discriminate].
    inversion Hj; subst j. simpl. eexists _, _. unfold id_at. reflexivity. }
  destruct Hst; subst; eauto.
  rewrite vectors_from_ids, enumerate_fst, combine_map_length in Hi. eauto.
Qed.

End StoreChunks.

Definition of_document (document_id : str) (r : DocumentChunk.t) : bool :=
  eqb_str (DocumentChunk.document_id r) document_id.

Lemma stored_tables (E : env) (self : PineconeService) (chunks : list str)
    (document_id : str) (s s' : world) (ids : list str) :
  stored E self chunks document_id s ids s' ->
  document_chunks s' = document_chunks s /\ documents s' = documents s.
Proof. intros H. destruct H; auto. Qed.

Lemma stored_vectors (E : env) (self : PineconeService) (chunks : list str)
    (document_id : str) (s s' : world) (ids : list str) :
  stored E self chunks document_id s ids s' ->
  index_vectors s' = index_vectors s \/
  exists vectors,
    index_vectors s'
    = fold_left (fun vs v => upsert_one v vs) vectors (index_vectors s) /\
    map Vector.id vectors = ids /\
    map (fun v => Vector.full_text (Vector.meta v)) vectors = chunks /\
    map (fun v => Vector.chunk_index (Vector.meta v)) vectors
    = seq 0 (length chunks).
Proof.
  intros H. destruct H; auto.
  right. exists vectors. subst vectors. repeat split.
  - pose proof (vectors_from_meta E document_id (S (tick s))
                  (enumerate (combine chunks (map (embed E) chunks)))) as Hm.
    apply (f_equal (map snd)) in Hm. rewrite !map_map in Hm. simpl in Hm.
    rewrite Hm. rewrite <- (map_map snd fst), enumerate_snd.
    apply combine_map_fst.
  - pose proof (vectors_from_meta E document_id (S (tick s))
                  (enumerate (combine chunks (map (embed E) chunks)))) as Hm.
    apply (f_equal (map fst)) in Hm. rewrite !map_map in Hm. simpl in Hm.
    rewrite Hm. rewrite enumerate_fst, combine_map_length. reflexivity.
Qed.

Lemma enumerate_combine_fields (chunks ids : list str) :
  length ids = length chunks ->
  map fst (enumerate (combine chunks ids)) = seq 0 (length chunks) /\
  map (fun item : nat * (str * str) => fst (snd item))
      (enumerate (combine chunks ids)) = chunks /\
  map (fun item : nat * (str * str) => snd (snd item))
      (enumerate (combine chunks ids)) = ids.
Proof.
  intros Hlen.
  assert (Hc : length (combine chunks ids) = length chunks)
    by (rewrite length_combine; lia).
  split; [rewrite enumerate_fst, Hc; reflexivity|].
  split.
  - rewrite <- (map_map snd fst), enumerate_snd.
    clear Hc. revert ids Hlen.
    induction chunks as [|c chunks IH]; intros [|i ids] Hlen; simpl in *;
      try reflexivity; try discriminate.
    f_equal. apply IH. lia.
  - rewrite <- (map_map snd snd), enumerate_snd.
    clear Hc. revert ids Hlen.
    induction chunks as [|c chunks IH]; intros [|i ids] Hlen; simpl in *;
      try reflexivity; try discriminate.
    f_equal. apply IH. lia.
Qed.

(** The ordinals of the rows a document has in the chunk table. *)
Definition ordinals (document_id : str) (s : world) : list nat :=
  map DocumentChunk.chunk_index
      (filter (of_document document_id) (document_chunks s)).

(** The ordinals of every document are 0, 1, ..., N-1, each once. *)
Definition dense_ordinals (s : world) : Prop :=
  forall document_id,
    NoDup (ordinals document_id s) /\
    forall i, In i (ordinals document_id s)
              <-> i < length (ordinals document_id s).

(** The claim as the specification words it: a completed call leaves the
    ordinals of every document dense. *)
Definition ordinal_density_as_stated (E : env) (self : QueryController) : Prop :=
  forall pdf_url questions s answers s',
    dense_ordinals s ->
    process_document_queries E self pdf_url questions s = (Ok answers, s') ->
    dense_ordinals s'.

(** C6, amended.  Whenever [_store_document_chunks] completes for a
    document and [N] chunks: [store_chunks] returned [N] ids, the [i]-th of
    which was made for ordinal [i] (and, when the upsert went through, is
    the id of the vector that holds chunk [i]); the rows it persisted carry
    the ordinals 0, 1, ..., N-1 in the chunker's order, row [i] pairing
    chunk [i] with id [i]; they come after the rows the document had, so
    its ordinals are those it had followed by 0..N-1: a document that had
    no rows before has exactly the ordinals 0..N-1, without gap or
    duplicate, and a document that had rows has 0..N-1 once more. *)
Theorem stored_chunks_ordinals (E : env) (self : QueryController)
    (document_id : str) (chunks : list str) (s s' : world) :
  _store_document_chunks E self document_id chunks s = (Ok tt, s') ->
  exists ids s1 rows,
    store_chunks E (pinecone_service self) chunks document_id s = (Ok ids, s1) /\
    length ids = length chunks /\
    (forall i id, nth_error ids i = Some id ->
       exists prefix suffix,
         id = prefix ++ document_id ++ py "_" ++ str_of_nat i ++ py "_" ++ suffix) /\
    (index_vectors s1 = index_vectors s \/
     exists vectors,
       index_vectors s1
       = fold_left (fun vs v => upsert_one v vs) vectors (index_vectors s) /\
       map Vector.id vectors = ids /\
       map (fun v => Vector.full_text (Vector.meta v)) vectors = chunks /\
       map (fun v => Vector.chunk_index (Vector.meta v)) vectors
       = seq 0 (length chunks)) /\
    document_chunks s' = document_chunks s ++ rows /\
    map DocumentChunk.chunk_index rows = seq 0 (length chunks) /\
    map DocumentChunk.chunk_text rows = chunks /\
    map DocumentChunk.pinecone_id rows = ids /\
    Forall (fun r => DocumentChunk.document_id r = document_id) rows /\
    ordinals document_id s' = ordinals document_id s ++ seq 0 (length chunks) /\
    (filter (of_document document_id) (document_chunks s) = [] ->
     map DocumentChunk.chunk_index
         (filter (of_document document_id) (document_chunks s'))
     = seq 0 (length chunks)).
Proof.
  intros H. unfold _store_document_chunks in H.
  destruct (run_store_chunks E (pinecone_service self) chunks document_id s)
    as (ids & s1 & Hrun & Hst).
  rewrite (bind_ok _ _ _ _ _ Hrun) in H.
  unfold bind at 1 in H.
  destruct (for_each _ (enumerate (combine chunks ids)) s1)
    as [[rows|e] s2] eqn:Hloop; [|discriminate].
  inversion H; subst s2. clear H.
  destruct (run_create_document_chunks E _ _ _ _ _ Hloop)
    as (Hdc & Hmap & Hall & _ & _).
  pose proof (stored_length E _ _ _ _ _ _ Hst) as Hlen.
  destruct (stored_tables E _ _ _ _ _ _ Hst) as [Hdc1 _].
  destruct (enumerate_combine_fields chunks ids Hlen) as (Hf1 & Hf2 & Hf3).
  assert (Hrows : document_chunks s' = document_chunks s ++ rows)
    by (rewrite Hdc, Hdc1; reflexivity).
  assert (Hidx : map DocumentChunk.chunk_index rows = seq 0 (length chunks)).
  { rewrite <- Hf1, <- Hmap, map_map. reflexivity. }
  assert (Hown : filter (of_document document_id) rows = rows).
  { clear - Hall. induction Hall as [|r rows Hr _ IH]; simpl; [reflexivity|].
    unfold of_document at 1. rewrite Hr, eqb_str_refl, IH. reflexivity. }
  assert (Hord : ordinals document_id s'
                 = ordinals document_id s ++ seq 0 (length chunks)).
  { unfold ordinals. rewrite Hrows, filter_app, map_app, Hown, Hidx.
    reflexivity. }
  exists ids, s1, rows.
  split; [exact Hrun|]. split; [exact Hlen|].
  split; [intros i id; eapply stored_ids_ordinal; eassumption|].
  split; [eapply stored_vectors; eassumption|].
  split; [exact Hrows|]. split; [exact Hidx|].
  split; [rewrite <- Hf2, <- Hmap, map_map; reflexivity|].
  split; [rewrite <- Hf3, <- Hmap, map_map; reflexivity|].
  split; [exact Hall|].
  split; [exact Hord|].
  intros Hnone. unfold ordinals in Hord. rewrite Hord, Hnone. reflexivity.
Qed.

(* ===================================================================== *)
(** ** Answers and their clauses *)
(* ===================================================================== *)

(** The chunk row a match resolves to: the first row of the chunk table
    whose vector-store id is the id of the match. *)
Definition resolve (table : list DocumentChunk.t) (chunk_data : Match.t)
  : option DocumentChunk.t :=
  hd_error (filter (fun c => eqb_str (DocumentChunk.pinecone_id c)
                                     (Match.id chunk_data)) table).

Definition clause_fields (c : AnswerClause.t) : str * str * str * Q :=
  (AnswerClause.answer_id c, AnswerClause.chunk_id c,
   AnswerClause.clause_text c, AnswerClause.similarity_score c).

(** One clause per match that resolves, in the order of the matches. *)
Definition expected_clauses (table : list DocumentChunk.t) (answer_id : str)
    (relevant_chunks : list Match.t) : list (str * str * str * Q) :=
  flat_map (fun m => match resolve table m with
                     | Some chunk =>
                         [(answer_id, DocumentChunk.id chunk,
                           slice_to 1000 (Match.text m), Match.score m)]
                     | None => []
                     end) relevant_chunks.

(** The claim as the specification words it: in a world, every clause of
    an answer refers to a chunk row of the document its query was asked
    about. *)
Definition clauses_reference_queried_document (s : world) : Prop :=
  forall clause answer query,
    In clause (answer_clauses s) ->
    In answer (answers s) ->
    Answer.id answer = AnswerClause.answer_id clause ->
    In query (user_queries s) ->
    UserQuery.id query = Answer.query_id answer ->
    exists chunk,
      In chunk (document_chunks s) /\
      DocumentChunk.id chunk = AnswerClause.chunk_id clause /\
      DocumentChunk.document_id chunk = UserQuery.document_id query.

Section Clauses.

Variable E : env.

Lemma run_make_clause (answer_id : str) (chunk_data : Match.t) (s : world) :
  make_clause E answer_id chunk_data s
  = if raises E (tick s) then (Raise APIError, advance 1 [] s)
    else match resolve (document_chunks s) chunk_data with
         | Some chunk =>
             (Ok [ {| AnswerClause.id := uuid4_at E (S (tick s));
                      AnswerClause.answer_id := answer_id;
                      AnswerClause.chunk_id := DocumentChunk.id chunk;
                      AnswerClause.clause_text := slice_to 1000 (Match.text chunk_data);
                      AnswerClause.similarity_score := Match.score chunk_data;
                      AnswerClause.created_at := timestamp_at E (S (S (tick s))) |} ],
              advance 3 [] s)
         | None => (Ok [], advance 1 [] s)
         end.
Proof.
  unfold make_clause, select_chunks_by_pinecone_id, execute, resolve.
  rewrite !bind_bind; cbv beta.
  destruct (raises E (tick s)) eqn:Hr.
  - rewrite bind_fallible_raise by exact Hr. reflexivity.
  - rewrite bind_fallible_ok by exact Hr; cbv beta.
    rewrite bind_bind; cbv beta. rewrite bind_get_world; cbv beta.
    rewrite bind_ret; cbv beta. rewrite document_chunks_advance.
    destruct (filter _ (document_chunks s)) as [|chunk rest]; simpl hd_error.
    + reflexivity.
    + rewrite bind_uuid4; cbv beta. rewrite bind_get_ist_timestamp; cbv beta.
      unfold ret. simpl tick. f_equal. world_eq.
Qed.

Lemma run_make_clauses (answer_id : str) (relevant_chunks : list Match.t)
    (s s' : world) (clauses : list (list AnswerClause.t)) :
  for_each (make_clause E answer_id) relevant_chunks s = (Ok clauses, s') ->
  (exists n, s' = advance n [] s) /\
  map clause_fields (concat clauses)
  = expected_clauses (document_chunks s) answer_id relevant_chunks.
Proof.
  revert s clauses.
  induction relevant_chunks as [|m ms IH]; intros s clauses H.
  - simpl in H. inversion H; subst. split; [exists 0; symmetry; apply advance_0|].
    reflexivity.
  - simpl in H. unfold bind at 1 in H. rewrite run_make_clause in H.
    destruct (raises E (tick s)); [discriminate|].
    simpl expected_clauses.
    destruct (resolve (document_chunks s) m) as [chunk|];
      unfold bind at 1 in H;
      destruct (for_each _ ms _) as [[cs|e] s1] eqn:Hloop; try discriminate;
      inversion H; subst; clear H;
      destruct (IH _ _ Hloop) as [[n Hn] Hmap]; simpl in Hmap.
    + split; [exists (n + 3); rewrite Hn, advance_advance; reflexivity|].
      simpl. rewrite Hmap. reflexivity.
    + split; [exists (n + 1); rewrite Hn, advance_advance; reflexivity|].
      simpl. rewrite Hmap. reflexivity.
Qed.

Lemma expected_clauses_exist (table : list DocumentChunk.t) (answer_id : str)
    (relevant_chunks : list Match.t) :
  Forall (fun f => let '(_, chunk_id, clause_text, _) := f in
                   (exists chunk, In chunk table /\ DocumentChunk.id chunk = chunk_id)
                   /\ length clause_text <= 1000)
         (expected_clauses table answer_id relevant_chunks).
Proof.
  induction relevant_chunks as [|m ms IH]; simpl; [constructor|].
  unfold resolve at 1.
  destruct (filter _ table) as [|chunk rest] eqn:Hf; simpl; [exact IH|].
  constructor; [|exact IH]. split.
  - exists chunk. split; [|reflexivity].
    assert (Hin : In chunk (chunk :: rest)) by (left; reflexivity).
    rewrite <- Hf in Hin. apply filter_In in Hin. tauto.
  - change (length (firstn 1000 (Match.text m)) <= 1000).
    apply firstn_le_length.
Qed.

End Clauses.

(** C8, amended.  For every answer persisted by
    [create_answer_with_clauses], the clauses stored with it are, in the
    order of the matches, one clause for each match whose vector-store id
    resolves to a chunk row; a match that resolves to no row produces no
    clause.  Each clause refers to a row that exists in the chunk table
    (the first row with that vector-store id, whichever document owns it),
    its text is the match's text cut to at most 1000 characters, and it
    carries the match's similarity score. *)
Theorem answer_clauses_reference_chunks (E : env) (query_id answer_text : str)
    (relevant_chunks : list Match.t) (decision : option str)
    (amount : option Q) (s s' : world) (answer : Answer.t) :
  create_answer_with_clauses E query_id answer_text relevant_chunks
                             decision amount s = (Ok answer, s') ->
  exists clauses,
    answer_clauses s' = answer_clauses s ++ clauses /\
    document_chunks s' = document_chunks s /\
    map clause_fields clauses
    = expected_clauses (document_chunks s) (Answer.id answer) relevant_chunks /\
    Forall (fun c =>
              (exists chunk,
                  In chunk (document_chunks s') /\
                  DocumentChunk.id chunk = AnswerClause.chunk_id c) /\
              length (AnswerClause.clause_text c) <= 1000) clauses.
Proof.
  intros H. unfold create_answer_with_clauses in H.
  rewrite bind_uuid4 in H; cbv beta in H.
  rewrite bind_get_ist_timestamp in H; cbv beta in H.
  unfold insert_answer, execute in H. rewrite !bind_bind in H; cbv beta in H.
  simpl tick in H.
  destruct (raises E (S (S (tick s)))) eqn:Hr.
  { rewrite bind_fallible_raise in H by exact Hr. discriminate. }
  rewrite bind_fallible_ok in H by exact Hr; cbv beta in H.
  rewrite bind_bind in H; cbv beta in H.
  rewrite bind_modify in H; cbv beta in H.
  rewrite bind_ret in H; cbv beta iota in H.
  unfold bind at 1 in H.
  match type of H with
  | context [for_each ?f ?l ?s0] =>
      destruct (for_each f l s0) as [[cs|e] s1] eqn:Hloop; [|discriminate]
  end.
  destruct (run_make_clauses E _ _ _ _ _ Hloop) as [[n Hn] Hmap].
  simpl document_chunks in Hmap. simpl Answer.id in Hmap.
  assert (Hfin : exists m, answer = {| Answer.id := uuid4_at E (tick s);
                                       Answer.query_id := query_id;
                                       Answer.answer_text := answer_text;
                                       Answer.decision := decision;
                                       Answer.amount := amount;
                                       Answer.created_at := timestamp_at E (S (tick s)) |}
                           /\ answer_clauses s' = answer_clauses s ++ concat cs
                           /\ document_chunks s' = document_chunks s
                           /\ tick s' = m).
  { subst s1. destruct (nonempty (concat cs)) eqn:Hne.
    - unfold insert_answer_clauses, execute in H.
      rewrite !bind_bind in H; cbv beta in H.
      match type of H with
      | bind (fallible E APIError) _ ?st = _ =>
          destruct (raises E (tick st)) eqn:Hr2
      end.
      + rewrite bind_fallible_raise in H by exact Hr2. discriminate.
      + rewrite bind_fallible_ok in H by exact Hr2; cbv beta in H.
        rewrite bind_modify in H; cbv beta in H.
        unfold ret in H. inversion H; subst. eexists. repeat split.
    - rewrite bind_ret in H; cbv beta in H. unfold ret in H.
      inversion H; subst. eexists. repeat split.
      simpl. destruct (concat cs); [rewrite app_nil_r; reflexivity|discriminate]. }
  destruct Hfin as (m & Ha & Hac & Hdc & _).
  exists (concat cs). split; [exact Hac|]. split; [exact Hdc|].
  subst answer. simpl Answer.id. split; [exact Hmap|].
  pose proof (expected_clauses_exist (document_chunks s) (uuid4_at E (tick s))
                relevant_chunks) as Hex.
  rewrite <- Hmap in Hex. rewrite Hdc.
  clear - Hex. induction (concat cs) as [|c l IH]; [constructor|].
  inversion Hex; subst. constructor; auto.
Qed.

(* ===================================================================== *)
(** ** The coordinator: lookups and the short circuit *)
(* ===================================================================== *)

(** The events of ingestion work: fetching, extracting, chunking,
    embedding chunks and upserting. *)
Definition is_ingestion_event (e : event) : bool :=
  match e with
  | EvExtractTextFromUrl _ | EvSessionGet _ _ | EvHttpRequest _
  | EvAdapterBackoff | EvSleep _ | EvPdfReader | EvChunkText
  | EvStoreChunks _ _ | EvEncodeChunks _ | EvUpsert _ => true
  | EvEncodeQuery _ | EvIndexQuery _ | EvGenerateContent _ => false
  end.

(** From [s] to [s'] no ingestion happened: the documents, the chunk rows
    and the vectors are the same and no event of ingestion was added. *)
Definition no_ingestion (s s' : world) : Prop :=
  documents s' = documents s /\
  document_chunks s' = document_chunks s /\
  index_vectors s' = index_vectors s /\
  exists evs, trace s' = trace s ++ evs /\
              Forall (fun e => is_ingestion_event e = false) evs.

Lemma no_ingestion_refl (s : world) : no_ingestion s s.
Proof.
  repeat split. exists []. rewrite app_nil_r. split; auto.
Qed.

Lemma no_ingestion_trans (s1 s2 s3 : world) :
  no_ingestion s1 s2 -> no_ingestion s2 s3 -> no_ingestion s1 s3.
Proof.
  intros (Hd & Hc & Hv & evs & Ht & Hf) (Hd' & Hc' & Hv' & evs' & Ht' & Hf').
  repeat split; try congruence.
  exists (evs ++ evs'). split.
  - rewrite Ht', Ht, app_assoc. reflexivity.
  - apply Forall_app. auto.
Qed.

Lemma no_ingestion_advance (n : nat) (evs : list event) (s : world) :
  Forall (fun e => is_ingestion_event e = false) evs ->
  no_ingestion s (advance n evs s).
Proof. intros H. repeat split. exists evs. auto. Qed.

(** A computation that does no ingestion, whatever its outcome. *)
Definition quiet {A} (m : M A) : Prop := forall s, no_ingestion s (snd (m s)).

Section Quiet.

Variable E : env.

Lemma quiet_ret {A} (a : A) : quiet (ret a).
Proof. intros s. apply no_ingestion_refl. Qed.

Lemma quiet_raise {A} (e : exn) : quiet (@raise A e).
Proof. intros s. apply no_ingestion_refl. Qed.

Lemma quiet_bind {A B} (m : M A) (k : A -> M B) :
  quiet m -> (forall a, quiet (k a)) -> quiet (bind m k).
Proof.
  intros Hm Hk s. unfold bind. specialize (Hm s).
  destruct (m s) as [[a|e] s1]; simpl in *; auto.
  eapply no_ingestion_trans; [exact Hm|apply Hk].
Qed.

Lemma quiet_try_except {A} (m : M A) (h : exn -> M A) :
  quiet m -> (forall e, quiet (h e)) -> quiet (try_except m h).
Proof.
  intros Hm Hh s. unfold try_except. specialize (Hm s).
  destruct (m s) as [[a|e] s1]; simpl in *; auto.
  eapply no_ingestion_trans; [exact Hm|apply Hh].
Qed.

Lemma quiet_for_each {A B} (f : A -> M B) (l : list A) :
  (forall a, quiet (f a)) -> quiet (for_each f l).
Proof.
  intros Hf. induction l as [|a l IH]; simpl.
  - apply quiet_ret.
  - apply quiet_bind; [apply Hf|]. intros b.
    apply quiet_bind; [exact IH|]. intros bs. apply quiet_ret.
Qed.

Lemma quiet_external : quiet external.
Proof.
  intros s. rewrite run_external. simpl. apply no_ingestion_advance. constructor.
Qed.

Lemma quiet_fallible (e : exn) : quiet (fallible E e).
Proof.
  intros s. rewrite run_fallible. simpl. apply no_ingestion_advance. constructor.
Qed.

Lemma quiet_uuid4 : quiet (uuid4 E).
Proof.
  intros s. rewrite run_uuid4. simpl. apply no_ingestion_advance. constructor.
Qed.

Lemma quiet_get_ist_timestamp : quiet (get_ist_timestamp E).
Proof.
  intros s. rewrite run_get_ist_timestamp. simpl.
  apply no_ingestion_advance. constructor.
Qed.

Lemma quiet_log (e : event) : is_ingestion_event e = false -> quiet (log e).
Proof.
  intros He s. rewrite run_log. simpl. apply no_ingestion_advance.
  repeat constructor. exact He.
Qed.

Lemma quiet_get_world : quiet get_world.
Proof. intros s. apply no_ingestion_refl. Qed.

Lemma quiet_modify (f : world -> world) :
  (forall s, no_ingestion s (f s)) -> quiet (modify f).
Proof. intros H s. apply H. Qed.

Lemma no_ingestion_add_user_query r s : no_ingestion s (add_user_query r s).
Proof. repeat split. exists []. simpl. rewrite app_nil_r. auto. Qed.

Lemma no_ingestion_add_answer r s : no_ingestion s (add_answer r s).
Proof. repeat split. exists []. simpl. rewrite app_nil_r. auto. Qed.

Lemma no_ingestion_add_answer_clauses rs s :
  no_ingestion s (add_answer_clauses rs s).
Proof. repeat split. exists []. simpl. rewrite app_nil_r. auto. Qed.

Ltac quiet_step :=
  first
    [ apply quiet_ret | apply quiet_raise | apply quiet_external
    | apply quiet_fallible | apply quiet_uuid4 | apply quiet_get_ist_timestamp
    | apply quiet_get_world
    | apply quiet_log; reflexivity
    | apply quiet_modify; intros;
      first [ apply no_ingestion_add_user_query
            | apply no_ingestion_add_answer
            | apply no_ingestion_add_answer_clauses ]
    | apply quiet_bind; [|intros]
    | apply quiet_try_except; [|intros]
    | apply quiet_for_each; intros
    | match goal with
      | |- quiet (match ?x with _ => _ end) => destruct x
      end ].

Ltac quiet_auto := repeat quiet_step.

Lemma quiet_create_user_query (document_id query_text : str) :
  quiet (create_user_query E document_id query_text).
Proof.
  unfold create_user_query, insert_user_query, execute. quiet_auto.
Qed.

Lemma quiet_search_similar_chunks (self : PineconeService) (query : str)
    (top_k : nat) :
  quiet (search_similar_chunks E self query top_k).
Proof.
  unfold search_similar_chunks, encode. quiet_auto.
Qed.

Lemma quiet_generate_answer (question : str) (relevant_chunks : list Match.t) :
  quiet (generate_answer E question relevant_chunks).
Proof.
  unfold generate_answer. quiet_auto.
Qed.

Lemma quiet_create_answer_with_clauses (query_id answer_text : str)
    (relevant_chunks : list Match.t) (decision : option str) (amount : option Q) :
  quiet (create_answer_with_clauses E query_id answer_text relevant_chunks
                                    decision amount).
Proof.
  unfold create_answer_with_clauses, insert_answer, insert_answer_clauses,
    make_clause, select_chunks_by_pinecone_id, execute.
  quiet_auto.
Qed.

Lemma quiet_process_question (self : QueryController) (document : Document.t)
    (question : str) :
  quiet (process_question E self document question).
Proof.
  unfold process_question.
  apply quiet_bind; [apply quiet_create_user_query|]. intros query.
  apply quiet_bind; [apply quiet_search_similar_chunks|]. intros relevant_chunks.
  apply quiet_bind; [apply quiet_generate_answer|]. intros answer_text.
  apply quiet_bind; [apply quiet_create_answer_with_clauses|]. intros _.
  apply quiet_ret.
Qed.

(** The lookups of the coordinator. *)

Lemma run_has_chunks (document_id : str) (s : world) :
  has_chunks E document_id s
  = (Ok (if raises E (tick s) then false
         else 0 <? length (filter (of_document document_id) (document_chunks s))),
     advance 1 [] s).
Proof.
  unfold has_chunks, select_chunks_by_document_id, execute.
  destruct (raises E (tick s)) eqn:Hr.
  - erewrite try_except_raise.
    2:{ rewrite !bind_bind; cbv beta. apply bind_fallible_raise. exact Hr. }
    reflexivity.
  - erewrite try_except_ok.
    2:{ rewrite !bind_bind; cbv beta.
        rewrite bind_fallible_ok by exact Hr; cbv beta.
        rewrite bind_bind; cbv beta. rewrite bind_get_world; cbv beta.
        rewrite bind_ret; cbv beta. reflexivity. }
    reflexivity.
Qed.

Lemma run_get_or_create_document_found (url : str) (s : world)
    (document : Document.t) (rest : list Document.t) :
  raises E (tick s) = false ->
  filter (fun d => eqb_str (Document.url d) url) (documents s) = document :: rest ->
  get_or_create_document E url s = (Ok document, advance 1 [] s).
Proof.
  intros Hr Hf. unfold get_or_create_document, select_documents_by_url, execute.
  rewrite !bind_bind; cbv beta.
  rewrite bind_fallible_ok by exact Hr; cbv beta.
  rewrite bind_bind; cbv beta. rewrite bind_get_world; cbv beta.
  rewrite bind_ret; cbv beta. rewrite documents_advance, Hf. reflexivity.
Qed.

End Quiet.

(** The claim as the specification words it, for a call that asks no
    question: after a completed call, a second call changes neither the
    chunk rows nor the vectors and does no ingestion work. *)
Definition idempotent_ingestion_as_stated (E : env) (self : QueryController)
    (pdf_url : str) : Prop :=
  forall s answers s1,
    process_document_queries E self pdf_url [] s = (Ok answers, s1) ->
    no_ingestion s1 (snd (process_document_queries E self pdf_url [] s1)).

(** C1, amended.  If a call of [process_document_queries] completed and
    left the document row of the URL with at least one chunk row, and the
    chunk lookup of the next call does not raise, then the next call
    short-circuits: whatever questions it asks and however it ends, the
    documents, the chunk rows and the vectors are the same afterwards and
    it adds no event of fetching, extracting, chunking, embedding chunks or
    upserting. *)
Theorem ingested_document_short_circuits (E : env) (self : QueryController)
    (pdf_url : str) (questions1 questions2 : list str) (s s1 : world)
    (answers1 : list str) (document : Document.t) (chunk : DocumentChunk.t) :
  process_document_queries E self pdf_url questions1 s = (Ok answers1, s1) ->
  hd_error (filter (fun d => eqb_str (Document.url d) pdf_url) (documents s1))
  = Some document ->
  In chunk (document_chunks s1) ->
  DocumentChunk.document_id chunk = Document.id document ->
  raises E (S (tick s1)) = false ->
  no_ingestion s1 (snd (process_document_queries E self pdf_url questions2 s1)).
Proof.
  intros _ Hdoc Hin Hof Hr2.
  destruct (filter (fun d => eqb_str (Document.url d) pdf_url) (documents s1))
    as [|d rest] eqn:Hf; [discriminate|].
  simpl in Hdoc. inversion Hdoc; subst d.
  unfold process_document_queries.
  destruct (raises E (tick s1)) eqn:Hr1.
  { (* the document lookup raises: the call ends there *)
    unfold get_or_create_document, select_documents_by_url, execute.
    rewrite !bind_bind; cbv beta.
    rewrite bind_fallible_raise by exact Hr1. simpl snd.
    apply no_ingestion_advance. constructor. }
  rewrite (bind_ok _ _ _ _ _
             (run_get_or_create_document_found E pdf_url s1 document rest Hr1 Hf)).
  assert (Hhas : has_chunks E (Document.id document) (advance 1 [] s1)
                 = (Ok true, advance 1 [] (advance 1 [] s1))).
  { rewrite run_has_chunks. simpl tick. rewrite Hr2.
    rewrite document_chunks_advance.
    assert (Hc : In chunk (filter (of_document (Document.id document))
                                  (document_chunks s1))).
    { apply filter_In. split; [exact Hin|].
      unfold of_document. rewrite Hof. apply eqb_str_refl. }
    destruct (filter _ (document_chunks s1)); [destruct Hc|reflexivity]. }
  rewrite (bind_ok _ _ _ _ _ Hhas). simpl negb. cbv iota.
  rewrite bind_ret.
  eapply no_ingestion_trans.
  - apply (no_ingestion_advance 2 [] s1). constructor.
  - rewrite advance_advance. simpl.
    apply (quiet_for_each (process_question E self document) questions2).
    intros q. apply quiet_process_question.
Qed.

(* ===================================================================== *)
(** ** Concrete collaborators and runs *)
(* ===================================================================== *)

(** [str.isalnum] on ASCII. *)
Definition ascii_isalnum (c : char) : bool :=
  ((48 <=? c) && (c <=? 57) || (65 <=? c) && (c <=? 90)
   || (97 <=? c) && (c <=? 122))%N.

(** A decimal number padded to eight digits. *)
Definition pad8 (n : nat) : str :=
  let d := str_of_nat n in concat (repeat (py "0") (8 - length d)) ++ d.

(** Collaborators for the examples: every request is answered with
    [status], every byte stream parses to [pages], call number [n] raises
    when [faults n], the index returns its first [top_k] vectors with
    score 1. *)
Definition demo_env (pages : list (option str)) (status : nat)
    (faults : nat -> bool) : env :=
  {| raises := faults;
     uuid4_at := fun n => pad8 n ++ py "-0000-4000-8000-000000000000";
     timestamp_at := fun n => py "2025-01-01T00:00:00+05:30#" ++ str_of_nat n;
     wire := fun _ _ => WireResponse {| status_code := status; content := [] |};
     PdfReader := fun _ => PdfPages pages;
     isalnum := ascii_isalnum;
     embed := fun _ => [];
     index_query := fun vs _ top_k => map (fun v => (v, 1%Q)) (firstn top_k vs);
     generate_content := fun _ _ => py " From the clauses. " |}.

Definition no_faults : nat -> bool := fun _ => false.

Definition demo_controller : QueryController :=
  {| pdf_service := PDFService_init; pinecone_service := {| index := true |} |}.

Definition url_a : str := py "https://example.com/a.pdf".
Definition url_b : str := py "https://example.com/b.pdf".

Definition policy_env : env :=
  demo_env [Some (py "Hello world. Bye now.")] 200 no_faults.

(** The world after document A was ingested. *)
Definition world_a : world :=
  snd (process_document_queries policy_env demo_controller url_a [] empty_world).

(** The world after a question was then asked about document B. *)
Definition world_b : world :=
  snd (process_document_queries policy_env demo_controller url_b [py "q"] world_a).


(** A document whose only text is an ellipsis: it cleans to "..." and
    chunks to nothing. *)
Definition dots_env : env := demo_env [Some (py "...")] 200 no_faults.

Definition dots_world : world :=
  snd (process_document_queries dots_env demo_controller url_a [] empty_world).

Lemma no_ingestion_check (s s' : world) :
  no_ingestion s s' ->
  forallb (fun e => negb (is_ingestion_event e))
          (skipn (length (trace s)) (trace s')) = true.
Proof.
  intros (_ & _ & _ & evs & Ht & Hall).
  rewrite Ht, skipn_app, skipn_all, Nat.sub_diag. simpl.
  apply forallb_forall. intros e He.
  rewrite Forall_forall in Hall. rewrite (Hall e He). reflexivity.
Qed.

(** C1, as stated, fails for a document that chunks to nothing: the first
    call completes and persists no chunk row, so the second call finds no
    chunks and downloads, extracts and chunks the document again. *)
Lemma idempotent_ingestion_counterexample :
  process_document_queries dots_env demo_controller url_a [] empty_world
  = (Ok [], dots_world) /\
  document_chunks dots_world = [] /\
  hd_error (skipn (length (trace dots_world))
                  (trace (snd (process_document_queries dots_env demo_controller
                                 url_a [] dots_world))))
  = Some (EvExtractTextFromUrl url_a) /\
  ~ idempotent_ingestion_as_stated dots_env demo_controller url_a.
Proof.
  assert (Hfirst : process_document_queries dots_env demo_controller url_a []
                     empty_world = (Ok [], dots_world))
    by (vm_compute; reflexivity).
  split; [exact Hfirst|].
  split; [vm_compute; reflexivity|].
  split; [vm_compute; reflexivity|].
  intros H. specialize (H empty_world [] dots_world Hfirst).
  apply no_ingestion_check in H. vm_compute in H. discriminate.
Qed.

(** After document A was ingested, a second request with a question. *)
Lemma ingested_document_short_circuits_witness :
  no_ingestion world_a
    (snd (process_document_queries policy_env demo_controller url_a
            [py "What is covered?"] world_a)).
Proof.
  apply (ingested_document_short_circuits policy_env demo_controller url_a
           [] [py "What is covered?"] empty_world world_a []
           (hd {| Document.id := []; Document.url := []; Document.uploaded_at := [] |}
               (documents world_a))
           (hd {| DocumentChunk.id := []; DocumentChunk.document_id := [];
                  DocumentChunk.chunk_index := 0; DocumentChunk.chunk_text := [];
                  DocumentChunk.pinecone_id := []; DocumentChunk.created_at := [] |}
               (document_chunks world_a))).
  - vm_compute. reflexivity.
  - vm_compute. reflexivity.
  - vm_compute. left. reflexivity.
  - vm_compute. reflexivity.
  - reflexivity.
Defined.

(** The chunk lookup of the second request for document A raises. *)
Definition lookup_fails_env : env :=
  demo_env [Some (py "Hello world. Bye now.")] 200
           (fun n => n =? S (tick world_a)).




(** Encoding raises at the first call. *)
Definition encode_fails_env : env :=
  demo_env [] 200 (fun n => n =? 0).

(** Two chunks and a query, without an index and with a failing encoder. *)
Lemma degraded_mode_results_witness :
  (exists ids s',
      store_chunks policy_env {| index := false |} [py "one"; py "two"]
                   (py "doc") empty_world = (Ok ids, s') /\
      length ids = 2 /\
      Forall (fun id => startswith (py "local_") id = true) ids) /\
  (exists ids s',
      store_chunks encode_fails_env {| index := true |} [py "one"; py "two"]
                   (py "doc") empty_world = (Ok ids, s') /\
      length ids = 2 /\
      Forall (fun id => startswith (py "fallback_") id = true) ids) /\
  (exists s',
      search_similar_chunks policy_env {| index := false |} (py "q") 5
                            empty_world = (Ok [], s')) /\
  (exists s',
      search_similar_chunks encode_fails_env {| index := true |} (py "q") 5
                            empty_world = (Ok [], s')).
Proof.
  destruct (degraded_mode_results policy_env {| index := false |}
              [py "one"; py "two"] (py "doc") (py "q") 5 empty_world)
    as [(ids & s1 & Hs & Hlen & Hlocal & _) (ms & s2 & Hq & Hnone & _)].
  destruct (degraded_mode_results encode_fails_env {| index := true |}
              [py "one"; py "two"] (py "doc") (py "q") 5 empty_world)
    as [(ids' & s1' & Hs' & Hlen' & _ & Hfb) (ms' & s2' & Hq' & _ & Hraise)].
  split; [exists ids, s1; repeat split; auto|].
  split; [exists ids', s1'; repeat split; auto|].
  split.
  - exists s2. rewrite Hq, (Hnone eq_refl). reflexivity.
  - exists s2'. rewrite Hq', (Hraise eq_refl (or_introl eq_refl)). reflexivity.
Defined.

(** Two chunks stored for a document in the empty world. *)
Lemma stored_chunks_ordinals_witness :
  exists ids s1 rows,
    store_chunks policy_env (pinecone_service demo_controller)
                 [py "one"; py "two"] (py "doc") empty_world = (Ok ids, s1) /\
    length ids = 2 /\
    document_chunks
      (snd (_store_document_chunks policy_env demo_controller (py "doc")
              [py "one"; py "two"] empty_world)) = rows /\
    map DocumentChunk.chunk_index rows = [0; 1] /\
    map DocumentChunk.chunk_text rows = [py "one"; py "two"] /\
    map DocumentChunk.pinecone_id rows = ids /\
    ordinals (py "doc")
      (snd (_store_document_chunks policy_env demo_controller (py "doc")
              [py "one"; py "two"] empty_world)) = [0; 1].
Proof.
  destruct (stored_chunks_ordinals policy_env demo_controller (py "doc")
              [py "one"; py "two"] empty_world
              (snd (_store_document_chunks policy_env demo_controller (py "doc")
                      [py "one"; py "two"] empty_world)))
    as (ids & s1 & rows & Hs & Hlen & _ & _ & Hrows & Hidx & Htext & Hid & _
        & Hord & _).
  - vm_compute. reflexivity.
  - exists ids, s1, rows. repeat split; auto.
Defined.

(** The world after the second request for document A, whose chunk lookup
    raises. *)
Definition world_a_again : world :=
  snd (process_document_queries lookup_fails_env demo_controller url_a []
         world_a).

(** C6, as stated, fails for a document that is ingested again: document
    A is ingested with one chunk; the chunk lookup of the second request
    raises, [has_chunks] answers [False], and the completed second request
    leaves the document with the ordinals 0, 0 and two vectors. *)
Lemma reingested_document_counterexample :
  process_document_queries lookup_fails_env demo_controller url_a [] empty_world
  = (Ok [], world_a) /\
  process_document_queries lookup_fails_env demo_controller url_a [] world_a
  = (Ok [], world_a_again) /\
  map Document.id (documents world_a_again)
  = [py "00000001-0000-4000-8000-000000000000"] /\
  ordinals (py "00000001-0000-4000-8000-000000000000") world_a = [0] /\
  ordinals (py "00000001-0000-4000-8000-000000000000") world_a_again = [0; 0] /\
  length (index_vectors world_a_again) = 2 /\
  ~ ordinal_density_as_stated lookup_fails_env demo_controller.
Proof.
  assert (H1 : process_document_queries lookup_fails_env demo_controller url_a []
                 empty_world = (Ok [], world_a))
    by (vm_compute; reflexivity).
  assert (H2 : process_document_queries lookup_fails_env demo_controller url_a []
                 world_a = (Ok [], world_a_again))
    by (vm_compute; reflexivity).
  split; [exact H1|]. split; [exact H2|].
  split; [vm_compute; reflexivity|].
  split; [vm_compute; reflexivity|].
  split; [vm_compute; reflexivity|].
  split; [vm_compute; reflexivity|].
  intros H.
  assert (H0 : dense_ordinals empty_world).
  { intros document_id. unfold ordinals. simpl. split; [constructor|].
    intros i. split; [intros []|lia]. }
  pose proof (H _ _ _ _ _ (H _ _ _ _ _ H0 H1) H2) as Hd.
  destruct (Hd (py "00000001-0000-4000-8000-000000000000")) as [Hnd _].
  assert (Ho : ordinals (py "00000001-0000-4000-8000-000000000000")
                 world_a_again = [0; 0])
    by (vm_compute; reflexivity).
  rewrite Ho in Hnd. inversion Hnd as [|x l Hnin _]; subst.
  apply Hnin. left. reflexivity.
Qed.

(** Whether every clause of a world refers to a chunk row of the document
    its query was asked about. *)
Definition clauses_reference_queried_document_check (s : world) : bool :=
  forallb (fun clause =>
    forallb (fun answer =>
      implb (eqb_str (Answer.id answer) (AnswerClause.answer_id clause))
        (forallb (fun query =>
           implb (eqb_str (UserQuery.id query) (Answer.query_id answer))
             (existsb (fun chunk =>
                eqb_str (DocumentChunk.id chunk) (AnswerClause.chunk_id clause)
                && eqb_str (DocumentChunk.document_id chunk)
                           (UserQuery.document_id query))
                (document_chunks s)))
           (user_queries s)))
      (answers s))
    (answer_clauses s).

Lemma clauses_reference_queried_document_checked (s : world) :
  clauses_reference_queried_document s ->
  clauses_reference_queried_document_check s = true.
Proof.
  intros H. unfold clauses_reference_queried_document_check.
  apply forallb_forall. intros clause Hc.
  apply forallb_forall. intros answer Ha.
  destruct (eqb_str (Answer.id answer) (AnswerClause.answer_id clause)) eqn:Hid;
    [|reflexivity].
  apply eqb_str_eq in Hid. simpl.
  apply forallb_forall. intros query Hq.
  destruct (eqb_str (UserQuery.id query) (Answer.query_id answer)) eqn:Hqid;
    [|reflexivity].
  apply eqb_str_eq in Hqid. simpl.
  destruct (H clause answer query Hc Ha Hid Hq Hqid) as (chunk & Hin & Hcid & Hdoc).
  apply existsb_exists. exists chunk. split; [exact Hin|].
  apply andb_true_iff. split; apply eqb_str_eq; assumption.
Qed.

(** C8, as stated, fails once two documents are indexed: retrieval is
    global and the chunk lookup goes by vector-store id alone, so the
    answer to a question about document B gets a clause that refers to a
    chunk row of document A. *)
Lemma clause_of_other_document_counterexample :
  ~ clauses_reference_queried_document world_b.
Proof.
  intros H. apply clauses_reference_queried_document_checked in H.
  vm_compute in H. discriminate.
Qed.

Definition match_a : Match.t :=
  {| Match.id := py "vec-a"; Match.text := times "x" 1200;
     Match.score := (9 # 10)%Q; Match.chunk_index := 0;
     Match.document_id := py "doc-a" |}.

Definition match_gone : Match.t :=
  {| Match.id := py "vec-gone"; Match.text := py "stale";
     Match.score := (1 # 2)%Q; Match.chunk_index := 3;
     Match.document_id := py "doc-gone" |}.

(** A world with one chunk row, stored under the vector id "vec-a". *)
Definition one_chunk_world : world :=
  add_document_chunk
    {| DocumentChunk.id := py "chunk-a"; DocumentChunk.document_id := py "doc-a";
       DocumentChunk.chunk_index := 0; DocumentChunk.chunk_text := times "x" 1200;
       DocumentChunk.pinecone_id := py "vec-a";
       DocumentChunk.created_at := [] |} empty_world.

(** A stale match and a match of 1200 characters: one clause, cut to 1000. *)
Lemma answer_clauses_reference_chunks_witness :
  exists clauses,
    answer_clauses
      (snd (create_answer_with_clauses policy_env (py "query-1") (py "answer")
              [match_gone; match_a] None None one_chunk_world)) = clauses /\
    map AnswerClause.chunk_id clauses = [py "chunk-a"] /\
    map AnswerClause.clause_text clauses = [times "x" 1000].
Proof.
  destruct (answer_clauses_reference_chunks policy_env (py "query-1") (py "answer")
              [match_gone; match_a] None None one_chunk_world
              (snd (create_answer_with_clauses policy_env (py "query-1")
                      (py "answer") [match_gone; match_a] None None
                      one_chunk_world))
              {| Answer.id := uuid4_at policy_env 0;
                 Answer.query_id := py "query-1";
                 Answer.answer_text := py "answer";
                 Answer.decision := None; Answer.amount := None;
                 Answer.created_at := timestamp_at policy_env 1 |})
    as (clauses & Hac & _ & Hmap & _).
  - vm_compute. reflexivity.
  - exists clauses. split; [exact Hac|].
    split.
    + apply (f_equal (map (fun f => snd (fst (fst f))))) in Hmap.
      rewrite map_map in Hmap. simpl in Hmap. exact Hmap.
    + apply (f_equal (map (fun f => snd (fst f)))) in Hmap.
      rewrite map_map in Hmap. etransitivity; [exact Hmap|].
      vm_compute. reflexivity.
Defined.

(* ===================================================================== *)
(** ** More on strings: what [strip] leaves *)
(* ===================================================================== *)

(** [s] occurs in [t] as a contiguous part. *)
Definition infix (s t : str) : Prop := exists a b, t = a ++ s ++ b.

(** Neither the first nor the last character is whitespace. *)
Definition no_outer_space (s : str) : Prop :=
  (forall c, hd_error s = Some c -> is_space c = false) /\
  (forall c, hd_error (rev s) = Some c -> is_space c = false).

Lemma lstrip_head (s : str) (c : char) :
  hd_error (lstrip s) = Some c -> is_space c = false.
Proof.
  induction s as [|d s IH]; simpl; [discriminate|].
  destruct (is_space d) eqn:Hd; auto.
  simpl. intros H. inversion H; subst. exact Hd.
Qed.

(** [lstrip] drops a prefix of whitespace. *)
Lemma lstrip_split (s : str) :
  exists u, s = u ++ lstrip s /\ Forall (fun c => is_space c = true) u.
Proof.
  induction s as [|d s (u & Hu & Hall)]; simpl.
  - exists []. split; [reflexivity|constructor].
  - destruct (is_space d) eqn:Hd.
    + exists (d :: u). split; [simpl; congruence|constructor; assumption].
    + exists []. split; [reflexivity|constructor].
Qed.

(** [rstrip] drops a suffix of whitespace. *)
Lemma rstrip_split (s : str) :
  exists v, s = rstrip s ++ v /\ Forall (fun c => is_space c = true) v.
Proof.
  unfold rstrip. destruct (lstrip_split (rev s)) as (u & Hu & Hall).
  exists (rev u). split.
  - rewrite <- rev_app_distr, <- Hu, rev_involutive. reflexivity.
  - apply rev_Forall. exact Hall.
Qed.

Lemma strip_infix (s : str) : infix (strip s) s.
Proof.
  unfold strip. destruct (lstrip_split s) as (u & Hu & _).
  destruct (rstrip_split (lstrip s)) as (v & Hv & _).
  exists u, v. rewrite <- Hv. exact Hu.
Qed.

Lemma strip_no_outer_space (s : str) : no_outer_space (strip s).
Proof.
  unfold strip. split.
  - intros c Hc. destruct (rstrip_split (lstrip s)) as (v & Hv & _).
    destruct (rstrip (lstrip s)) as [|d r] eqn:Hr; [discriminate|].
    simpl in Hc. inversion Hc; subst d.
    apply (lstrip_head s). rewrite Hv. reflexivity.
  - intros c Hc. unfold rstrip in Hc. rewrite rev_involutive in Hc.
    eapply lstrip_head. exact Hc.
Qed.

(** A string that starts with a character that is not whitespace is left
    alone by [lstrip], wherever it sits. *)
Lemma lstrip_keeps (a s b : str) (c : char) :
  hd_error s = Some c -> is_space c = false ->
  exists a', lstrip (a ++ s ++ b) = a' ++ s ++ b.
Proof.
  intros Hc Hs. induction a as [|d a IH]; simpl.
  - exists []. destruct s as [|e s]; [discriminate|].
    simpl in Hc. inversion Hc; subst e. simpl. rewrite Hs. reflexivity.
  - destruct (is_space d); [exact IH|]. exists (d :: a). reflexivity.
Qed.

Lemma rstrip_keeps (a s b : str) (c : char) :
  hd_error (rev s) = Some c -> is_space c = false ->
  exists b', rstrip (a ++ s ++ b) = a ++ s ++ b'.
Proof.
  intros Hc Hs. unfold rstrip.
  rewrite !rev_app_distr, <- app_assoc.
  destruct (lstrip_keeps (rev b) (rev s) (rev a) c Hc Hs) as (b' & ->).
  exists (rev b'). rewrite !rev_app_distr, !rev_involutive, <- app_assoc.
  reflexivity.
Qed.

Lemma strip_keeps (a s b : str) :
  s <> [] -> no_outer_space s ->
  exists a' b', strip (a ++ s ++ b) = a' ++ s ++ b'.
Proof.
  intros Hne [Hhd Hlast]. unfold strip.
  destruct s as [|c s']; [congruence|].
  destruct (lstrip_keeps a (c :: s') b c eq_refl (Hhd c eq_refl)) as (a' & ->).
  assert (Hd : exists d, hd_error (rev (c :: s')) = Some d).
  { destruct (rev (c :: s')) as [|d r] eqn:Hr; [|exists d; reflexivity].
    apply (f_equal (@length _)) in Hr. rewrite length_rev in Hr. discriminate. }
  destruct Hd as (d & Hd).
  destruct (rstrip_keeps a' (c :: s') b d Hd (Hlast d Hd)) as (b' & ->).
  eauto.
Qed.

Lemma strip_fixed (s : str) : no_outer_space s -> strip s = s.
Proof.
  intros Hs. destruct s as [|c s']; [reflexivity|].
  destruct (strip_keeps [] (c :: s') []) as (a' & b' & H); [discriminate|exact Hs|].
  rewrite app_nil_l, app_nil_r in H.
  pose proof (strip_length (c :: s')) as Hlen.
  rewrite H in Hlen. rewrite !length_app in Hlen.
  assert (Ha : a' = []) by (destruct a'; [reflexivity|simpl in Hlen; lia]).
  assert (Hb : b' = []) by (destruct b'; [reflexivity|simpl in Hlen; lia]).
  subst. rewrite H. simpl. rewrite app_nil_r. reflexivity.
Qed.

(** X1. The sentences of [_split_into_sentences] are not empty, neither
    start nor end with whitespace, and hold no '.', '!' or '?'. *)
Theorem _split_into_sentences_shape (text : str) :
  Forall (fun s => s <> [] /\ no_outer_space s /\
                   Forall (fun c => is_terminator c = false) s)
         (_split_into_sentences text).
Proof.
  pose proof (_split_into_sentences_nonempty text) as Hne.
  pose proof (_split_into_sentences_no_terminator text) as Hnt.
  apply Forall_forall. intros s Hs.
  rewrite Forall_forall in Hne, Hnt.
  split; [auto|]. split; [|auto].
  unfold _split_into_sentences in Hs.
  apply in_map_iff in Hs. destruct Hs as (f & <- & _).
  apply strip_no_outer_space.
Qed.

(* ===================================================================== *)
(** ** More on chunking *)
(* ===================================================================== *)

Lemma fold_left_invariant {A B} (f : A -> B -> A) (Inv : A -> Prop)
    (P : B -> Prop) (l : list B) (a : A) :
  Forall P l -> Inv a ->
  (forall a b, P b -> Inv a -> Inv (f a b)) ->
  Inv (fold_left f l a).
Proof.
  intros Hl Ha Hstep. revert a Ha.
  induction Hl as [|b l Hb _ IH]; intros a Ha; simpl; auto.
Qed.

(** A sentence as the splitter returns it. *)
Definition solid (s : str) : Prop := s <> [] /\ no_outer_space s.

Lemma _split_into_sentences_solid (text : str) :
  Forall solid (_split_into_sentences text).
Proof.
  eapply Forall_impl; [|apply _split_into_sentences_shape].
  intros s (H1 & H2 & _). split; assumption.
Qed.

(** The last character is not whitespace. *)
Definition ends_solid (t : str) : Prop :=
  exists a c, t = a ++ [c] /\ is_space c = false.

Lemma solid_ends (s : str) : solid s -> ends_solid s.
Proof.
  intros [Hne [_ Hlast]].
  destruct (rev s) as [|c r] eqn:Hr.
  - apply (f_equal (@rev _)) in Hr. rewrite rev_involutive in Hr. contradiction.
  - exists (rev r), c. split.
    + apply (f_equal (@rev _)) in Hr. rewrite rev_involutive in Hr. exact Hr.
    + apply Hlast. reflexivity.
Qed.

Lemma ends_solid_app (a t : str) : ends_solid t -> ends_solid (a ++ t).
Proof.
  intros (b & c & -> & Hc). exists (a ++ b), c.
  rewrite app_assoc. auto.
Qed.

Lemma ends_solid_strip (t : str) :
  ends_solid t -> strip t <> [] /\ no_outer_space (strip t).
Proof.
  intros (a & c & -> & Hc). split; [|apply strip_no_outer_space].
  destruct (strip_keeps a [c] []) as (a' & b' & H).
  - discriminate.
  - split; intros d Hd; simpl in Hd; inversion Hd; subst; exact Hc.
  - rewrite app_nil_r in H. rewrite H. destruct a'; discriminate.
Qed.

Section ChunkShape.

Variable self : PDFService.

(** The running chunk is empty or ends with a sentence; closed chunks are
    not empty and stripped. *)
Definition shape_ok (st : list str * str) : Prop :=
  Forall (fun c => c <> [] /\ no_outer_space c) (fst st) /\
  (snd st = [] \/ ends_solid (snd st)).

Lemma chunk_step_shape (st : list str * str) (sentence : str) :
  solid sentence -> shape_ok st -> shape_ok (chunk_step self st sentence).
Proof.
  destruct st as [chunks cur]. unfold shape_ok. simpl.
  intros Hs [Hch Hcur]. pose proof (solid_ends _ Hs) as He.
  unfold chunk_step.
  destruct (chunk_size self <? length cur + length sentence).
  - destruct cur as [|c0 cur'] eqn:Hc; simpl nonempty; cbv iota; simpl fst;
      simpl snd.
    + split; [exact Hch|right; exact He].
    + split.
      * apply Forall_app. split; [exact Hch|]. constructor; [|constructor].
        apply ends_solid_strip. destruct Hcur as [H|H]; [discriminate|exact H].
      * right. apply ends_solid_app. apply (ends_solid_app (py " ")). exact He.
  - simpl fst. simpl snd. split; [exact Hch|]. right.
    destruct (nonempty cur); [|exact He].
    apply ends_solid_app. apply (ends_solid_app (py " ")). exact He.
Qed.

(** Chunks closed so far, plus the running one if it is not empty, are no
    more than the sentences read. *)
Definition count_ok (n : nat) (st : list str * str) : Prop :=
  length (fst st) + (if nonempty (snd st) then 1 else 0) <= n.

Lemma chunk_step_count (n : nat) (st : list str * str) (sentence : str) :
  sentence <> [] -> count_ok n st -> count_ok (S n) (chunk_step self st sentence).
Proof.
  destruct st as [chunks cur]. unfold count_ok, chunk_step. simpl.
  intros Hne H.
  destruct (chunk_size self <? length cur + length sentence).
  - destruct (nonempty cur) eqn:Hc; simpl.
    + rewrite length_app, nonempty_app_cons. simpl. lia.
    + destruct (nonempty sentence); lia.
  - simpl. destruct (nonempty cur) eqn:Hc.
    + rewrite nonempty_app_cons. lia.
    + destruct (nonempty sentence); lia.
Qed.

Lemma chunk_loop_count (sentences : list str) (n : nat) (st : list str * str) :
  Forall (fun s => s <> []) sentences -> count_ok n st ->
  count_ok (length sentences + n) (fold_left (chunk_step self) sentences st).
Proof.
  revert n st. induction sentences as [|s ss IH]; intros n st Hall Hst; simpl;
    [exact Hst|].
  inversion Hall; subst.
  replace (S (length ss + n)) with (length ss + S n) by lia.
  apply IH; [assumption|]. apply chunk_step_count; assumption.
Qed.

(** After a sentence is read the running chunk is not empty. *)
Lemma chunk_step_running (st : list str * str) (sentence : str) :
  sentence <> [] -> snd (chunk_step self st sentence) <> [].
Proof.
  destruct st as [chunks cur]. unfold chunk_step. intros Hne.
  destruct (chunk_size self <? length cur + length sentence);
    destruct cur as [|c0 cur']; simpl; auto; try discriminate.
  intros H. apply app_eq_nil in H. destruct H as [_ H]. discriminate.
Qed.

Lemma chunk_loop_running (sentences : list str) (st : list str * str) :
  Forall (fun s => s <> []) sentences ->
  sentences <> [] \/ snd st <> [] ->
  snd (fold_left (chunk_step self) sentences st) <> [].
Proof.
  revert st. induction sentences as [|s ss IH]; intros st Hall Hor; simpl.
  - destruct Hor; [congruence|assumption].
  - inversion Hall; subst. apply IH; [assumption|].
    right. apply chunk_step_running. assumption.
Qed.

(** A sentence is kept when it occurs whole in a closed chunk or in the
    running one. *)
Definition kept (s : str) (st : list str * str) : Prop :=
  (exists c, In c (fst st) /\ infix s c) \/ infix s (snd st).

Lemma infix_app_l (s t a : str) : infix s t -> infix s (a ++ t).
Proof.
  intros (u & v & ->). exists (a ++ u), v. rewrite <- app_assoc. reflexivity.
Qed.

Lemma infix_app_r (s t b : str) : infix s t -> infix s (t ++ b).
Proof.
  intros (u & v & ->). exists u, (v ++ b). rewrite <- !app_assoc. reflexivity.
Qed.

Lemma infix_refl (s : str) : infix s s.
Proof. exists [], []. rewrite app_nil_r. reflexivity. Qed.

Lemma infix_strip (s t : str) : solid s -> infix s t -> infix s (strip t).
Proof.
  intros [Hne Hs] (a & b & ->).
  destruct (strip_keeps a s b Hne Hs) as (a' & b' & ->).
  exists a', b'. reflexivity.
Qed.

Lemma infix_nil (s : str) : s <> [] -> ~ infix s [].
Proof.
  intros Hne (a & b & H). symmetry in H.
  apply app_eq_nil in H. destruct H as [_ H].
  apply app_eq_nil in H. destruct H as [H _]. contradiction.
Qed.

Lemma chunk_step_keeps (st : list str * str) (s sentence : str) :
  solid s -> kept s st -> kept s (chunk_step self st sentence).
Proof.
  destruct st as [chunks cur]. unfold kept, chunk_step. simpl.
  intros Hs H.
  destruct (chunk_size self <? length cur + length sentence).
  - destruct cur as [|c0 cur'] eqn:Hc; simpl nonempty; cbv iota; simpl.
    + destruct H as [H|H]; [left; exact H|].
      exfalso. exact (infix_nil s (proj1 Hs) H).
    + left. destruct H as [(c & Hin & Hc')|H].
      * exists c. split; [apply in_or_app; left; exact Hin|exact Hc'].
      * exists (strip (c0 :: cur')). split; [apply in_or_app; right; left; reflexivity|].
        apply infix_strip; assumption.
  - simpl. destruct H as [H|H]; [left; exact H|].
    destruct cur as [|c0 cur']; simpl.
    + exfalso. exact (infix_nil s (proj1 Hs) H).
    + right. apply (infix_app_r s (c0 :: cur') (py " " ++ sentence)). exact H.
Qed.

Lemma chunk_step_keeps_new (st : list str * str) (sentence : str) :
  kept sentence (chunk_step self st sentence).
Proof.
  destruct st as [chunks cur]. unfold kept, chunk_step. right.
  destruct (chunk_size self <? length cur + length sentence);
    destruct (nonempty cur); simpl snd.
  - apply infix_app_l. apply (infix_app_l _ _ (py " ")). apply infix_refl.
  - apply infix_refl.
  - apply infix_app_l. apply (infix_app_l _ _ (py " ")). apply infix_refl.
  - apply infix_refl.
Qed.

Lemma chunk_loop_keeps (sentences : list str) (st : list str * str) (s : str) :
  Forall solid sentences -> solid s ->
  kept s st \/ In s sentences ->
  kept s (fold_left (chunk_step self) sentences st).
Proof.
  revert st. induction sentences as [|t ss IH]; intros st Hall Hs Hor; simpl.
  - destruct Hor as [H|[]]. exact H.
  - inversion Hall; subst. apply IH; [assumption|assumption|].
    destruct Hor as [H|[->|H]].
    + left. apply chunk_step_keeps; assumption.
    + left. apply chunk_step_keeps_new.
    + right. exact H.
Qed.

End ChunkShape.

(** X2. Every chunk of [chunk_text] is not empty and neither starts nor
    ends with whitespace. *)
Theorem chunk_text_chunks_stripped (self : PDFService) (text : str) :
  Forall (fun c => c <> [] /\ no_outer_space c) (chunk_text self text).
Proof.
  unfold chunk_text.
  pose proof (fold_left_invariant (chunk_step self) shape_ok solid
                (_split_into_sentences text) ([], [])
                (_split_into_sentences_solid text)) as H.
  destruct (fold_left (chunk_step self) (_split_into_sentences text) ([], []))
    as [chunks cur].
  destruct H as [Hch Hcur].
  - split; [constructor|left; reflexivity].
  - intros st s Hs Hst. apply chunk_step_shape; assumption.
  - simpl in *. destruct cur as [|c0 cur']; simpl; [exact Hch|].
    apply Forall_app. split; [exact Hch|]. constructor; [|constructor].
    apply ends_solid_strip. destruct Hcur as [H|H]; [discriminate|exact H].
Qed.

(** X3. [chunk_text] returns no more chunks than the text has sentences. *)
Theorem chunk_text_count (self : PDFService) (text : str) :
  length (chunk_text self text) <= length (_split_into_sentences text).
Proof.
  unfold chunk_text.
  pose proof (chunk_loop_count self (_split_into_sentences text) 0 ([], [])
                (_split_into_sentences_nonempty text)) as H.
  destruct (fold_left (chunk_step self) (_split_into_sentences text) ([], []))
    as [chunks cur].
  unfold count_ok in H. simpl in H.
  specialize (H (Nat.le_refl 0)).
  destruct (nonempty cur); rewrite ?length_app; simpl; lia.
Qed.

(** X4. [chunk_text] returns no chunk exactly when the text has no
    sentence; in particular for a text made only of whitespace and the
    terminators '.', '!' and '?' (the empty text among them). *)
Theorem chunk_text_empty (self : PDFService) (text : str) :
  (chunk_text self text = [] <-> _split_into_sentences text = []) /\
  (Forall (fun c => is_space c || is_terminator c = true) text ->
   chunk_text self text = []).
Proof.
  assert (Hiff : chunk_text self text = [] <-> _split_into_sentences text = []).
  { unfold chunk_text. split.
    - intros H. destruct (_split_into_sentences text) as [|s ss] eqn:Hs;
        [reflexivity|exfalso].
      assert (Hall : Forall (fun s => s <> []) (s :: ss))
        by (rewrite <- Hs; apply _split_into_sentences_nonempty).
      assert (Hne : s :: ss <> [] \/ snd (@nil str, @nil char) <> [])
        by (left; discriminate).
      pose proof (chunk_loop_running self (s :: ss) ([], []) Hall Hne) as Hrun.
      destruct (fold_left (chunk_step self) (s :: ss) ([], [])) as [chunks cur].
      simpl in Hrun. destruct cur as [|c0 cur']; [congruence|].
      simpl in H. destruct chunks; discriminate.
    - intros ->. reflexivity. }
  split; [exact Hiff|].
  intros Hblank. apply Hiff. unfold _split_into_sentences.
  assert (Hfrag : forall (p : char -> bool) (P : char -> Prop) (s : str),
             Forall P s -> Forall (Forall P) (Re.split p s)).
  { intros p P s. induction s as [|c s IH]; intros H; simpl.
    - repeat constructor.
    - inversion H; subst. specialize (IH H3).
      destruct (p c).
      + destruct s as [|d s']; [repeat constructor|].
        destruct (p d); auto.
      + destruct (Re.split p s) as [|f fs]; [repeat constructor; assumption|].
        inversion IH; subst. constructor; auto. }
  assert (Hstrip : forall s, Forall (fun c => is_space c = true) s -> strip s = []).
  { intros s Hs. unfold strip.
    assert (Hl : lstrip s = []).
    { induction Hs as [|c s Hc _ IH]; simpl; [reflexivity|]. rewrite Hc. exact IH. }
    rewrite Hl. reflexivity. }
  pose proof (Hfrag is_terminator _ text Hblank) as H1.
  pose proof (split_no_delimiter is_terminator text) as H2.
  induction (Re.split is_terminator text) as [|f fs IH]; [reflexivity|].
  inversion H1; subst. inversion H2; subst. simpl.
  assert (Hf : strip f = []).
  { apply Hstrip. apply Forall_forall. intros c Hc.
    rewrite Forall_forall in H3, H5.
    specialize (H3 c Hc). specialize (H5 c Hc). simpl in H3.
    rewrite H5 in H3. rewrite orb_false_r in H3. exact H3. }
  rewrite Hf. simpl. apply IH; assumption.
Qed.

(** X5. No sentence is lost or cut: every sentence of the text occurs
    whole in some chunk. *)
Theorem chunk_text_keeps_sentences (self : PDFService) (text : str) (s : str) :
  In s (_split_into_sentences text) ->
  exists c, In c (chunk_text self text) /\ infix s c.
Proof.
  intros Hin.
  pose proof (_split_into_sentences_solid text) as Hall.
  assert (Hs : solid s) by (rewrite Forall_forall in Hall; auto).
  pose proof (chunk_loop_keeps self (_split_into_sentences text) ([], []) s
                Hall Hs (or_intror Hin)) as H.
  unfold chunk_text.
  destruct (fold_left (chunk_step self) (_split_into_sentences text) ([], []))
    as [chunks cur].
  destruct H as [(c & Hc & Hi)|H]; simpl in *.
  - exists c. split; [|exact Hi].
    destruct (nonempty cur); [apply in_or_app; left|]; exact Hc.
  - destruct cur as [|c0 cur']; [exfalso; exact (infix_nil s (proj1 Hs) H)|].
    simpl. exists (strip (c0 :: cur')).
    split; [apply in_or_app; right; left; reflexivity|].
    apply infix_strip; assumption.
Qed.

(** [" ".join(l)] *)
Definition join_space (l : list str) : str :=
  match l with
  | [] => []
  | s :: rest => s ++ concat (map (fun t => sp :: t) rest)
  end.

Lemma ends_solid_last (t : str) (c : char) :
  ends_solid t -> hd_error (rev t) = Some c -> is_space c = false.
Proof.
  intros (a & d & -> & Hd). rewrite rev_app_distr. simpl.
  intros H. inversion H; subst. exact Hd.
Qed.

Lemma ends_solid_joined (cur : str) (rest : list str) :
  ends_solid cur -> Forall solid rest ->
  ends_solid (cur ++ concat (map (fun t => sp :: t) rest)).
Proof.
  intros Hcur Hrest. revert cur Hcur.
  induction Hrest as [|s rest Hs _ IH]; intros cur Hcur; simpl.
  - rewrite app_nil_r. exact Hcur.
  - replace (cur ++ sp :: s ++ concat (map (fun t => sp :: t) rest))
      with ((cur ++ [sp] ++ s) ++ concat (map (fun t => sp :: t) rest))
      by (rewrite <- !app_assoc; reflexivity).
    apply IH. apply ends_solid_app. apply ends_solid_app.
    apply solid_ends. exact Hs.
Qed.

Lemma chunk_loop_fits (self : PDFService) (rest : list str) (cur : str) :
  cur <> [] ->
  length (cur ++ concat (map (fun t => sp :: t) rest)) <= chunk_size self + 1 ->
  fold_left (chunk_step self) rest ([], cur)
  = ([], cur ++ concat (map (fun t => sp :: t) rest)).
Proof.
  revert cur. induction rest as [|s rest IH]; intros cur Hne Hlen.
  - simpl. rewrite app_nil_r. reflexivity.
  - cbn [fold_left map concat] in *.
    assert (Hlen' : length cur + S (length s)
                    + length (concat (map (fun t => sp :: t) rest))
                    <= chunk_size self + 1).
    { rewrite !length_app in Hlen. simpl in Hlen. rewrite ?length_app in Hlen. lia. }
    assert (Hfit : (chunk_size self <? length cur + length s) = false)
      by (apply Nat.ltb_ge; lia).
    assert (Hstep : chunk_step self ([], cur) s = ([], cur ++ py " " ++ s)).
    { unfold chunk_step. rewrite Hfit. destruct cur; [congruence|reflexivity]. }
    rewrite Hstep. rewrite IH.
    + f_equal. rewrite <- !app_assoc. reflexivity.
    + destruct cur; discriminate.
    + rewrite <- !app_assoc. rewrite !length_app. simpl. rewrite ?length_app. lia.
Qed.

(** X6. A text whose sentences, joined by single spaces, come to at most
    [chunk_size + 1] characters is returned as one chunk, that join. *)
Theorem chunk_text_single_chunk (self : PDFService) (text : str) :
  _split_into_sentences text <> [] ->
  length (join_space (_split_into_sentences text)) <= chunk_size self + 1 ->
  chunk_text self text = [join_space (_split_into_sentences text)].
Proof.
  intros Hne Hlen. unfold chunk_text.
  pose proof (_split_into_sentences_solid text) as Hall.
  destruct (_split_into_sentences text) as [|s rest]; [congruence|].
  inversion Hall as [|s0 rest0 Hsolid Hrest]; subst.
  assert (Hs : s <> []) by (destruct Hsolid; assumption).
  assert (Hfirst : chunk_step self ([], []) s = ([], s)).
  { unfold chunk_step. simpl. destruct (chunk_size self <? length s); reflexivity. }
  cbn [fold_left]. rewrite Hfirst.
  cbn [join_space] in *.
  rewrite (chunk_loop_fits self rest s Hs Hlen).
  assert (Hend : ends_solid (s ++ concat (map (fun t => sp :: t) rest)))
    by (apply ends_solid_joined; [apply solid_ends|]; assumption).
  assert (Hjoin : nonempty (s ++ concat (map (fun t => sp :: t) rest)) = true)
    by (destruct s; [congruence|reflexivity]).
  rewrite Hjoin. simpl app at 1. f_equal. apply strip_fixed. split.
  - intros c Hc. destruct Hsolid as [_ [Hhd _]]. apply Hhd.
    destruct s; [congruence|exact Hc].
  - intros c Hc. eapply ends_solid_last; [exact Hend|exact Hc].
Qed.

Lemma infix_trans (s t u : str) : infix s t -> infix t u -> infix s u.
Proof.
  intros (a & b & ->) (c & d & ->). exists (c ++ a), (b ++ d).
  rewrite <- !app_assoc. reflexivity.
Qed.

Lemma infix_skipn (n : nat) (t : str) : infix (skipn n t) t.
Proof.
  exists (firstn n t), []. rewrite app_nil_r. symmetry. apply firstn_skipn.
Qed.

(** X8. The overlap text is a contiguous part of the chunk it is taken
    from and, for a positive [chunk_overlap], at most that long. *)
Theorem _get_overlap_text_bounded (self : PDFService) (text : str) :
  0 < chunk_overlap self ->
  length (_get_overlap_text self text) <= chunk_overlap self /\
  infix (_get_overlap_text self text) text.
Proof.
  intros Hpos. split; [apply _get_overlap_text_length; exact Hpos|].
  unfold _get_overlap_text.
  destruct (length text <=? chunk_overlap self); [apply infix_refl|].
  unfold slice_last. destruct (chunk_overlap self) as [|k]; [lia|].
  destruct (find sp (skipn (length text - S k) text)) as [i|].
  - eapply infix_trans; [apply strip_infix|].
    eapply infix_trans; apply infix_skipn.
  - apply infix_skipn.
Qed.

Lemma find_nth_error (c : char) (s : str) (i : nat) :
  find c s = Some i -> nth_error s i = Some c.
Proof.
  revert i. induction s as [|d s IH]; simpl; intros i H; [discriminate|].
  destruct (N.eqb_spec d c) as [->|Hd].
  - inversion H; subst. reflexivity.
  - destruct (find c s) as [j|]; [|discriminate].
    inversion H; subst. simpl. apply IH. reflexivity.
Qed.

(** [strip] drops whitespace at both ends. *)
Lemma strip_split (s : str) :
  exists u v, s = u ++ strip s ++ v /\
              Forall (fun c => is_space c = true) u /\
              Forall (fun c => is_space c = true) v.
Proof.
  unfold strip. destruct (lstrip_split s) as (u & Hu & Hall).
  destruct (rstrip_split (lstrip s)) as (v & Hv & Hall').
  exists u, v. rewrite <- Hv. auto.
Qed.

(** Of a text whose last character is not whitespace, [strip] keeps a
    suffix that is not empty. *)
Lemma strip_suffix (t : str) :
  ends_solid t -> strip t <> [] /\ exists pre, t = pre ++ strip t.
Proof.
  intros Hend. split; [apply ends_solid_strip; exact Hend|].
  destruct Hend as (a & c & -> & Hc).
  destruct (strip_split (a ++ [c])) as (u & v & Hs & _ & Hv).
  destruct (rev v) as [|d r] eqn:Hr.
  - apply (f_equal (@rev _)) in Hr. rewrite rev_involutive in Hr. subst v.
    exists u. rewrite app_nil_r in Hs. exact Hs.
  - apply (f_equal (@rev _)) in Hr. rewrite rev_involutive in Hr.
    simpl in Hr. subst v. rewrite !app_assoc in Hs.
    apply app_inj_tail in Hs. destruct Hs as [_ <-].
    rewrite Forall_forall in Hv.
    rewrite Hv in Hc; [discriminate|]. apply in_or_app. right. left. reflexivity.
Qed.

(** With [chunk_overlap = 0] the slice [text[-0:]] is the whole text: of
    a chunk whose last character is not whitespace the overlap text is a
    suffix that is not empty. *)
Lemma _get_overlap_text_zero_overlap (self : PDFService) (text : str) :
  chunk_overlap self = 0 -> ends_solid text ->
  _get_overlap_text self text
  = match find sp text with
    | Some space_index => strip (skipn space_index text)
    | None => text
    end /\
  _get_overlap_text self text <> [] /\
  exists pre, text = pre ++ _get_overlap_text self text.
Proof.
  intros H0 Hend.
  assert (Heq : _get_overlap_text self text
                = match find sp text with
                  | Some space_index => strip (skipn space_index text)
                  | None => text
                  end).
  { unfold _get_overlap_text. rewrite H0.
    destruct text as [|c text']; reflexivity. }
  split; [exact Heq|]. rewrite Heq.
  destruct (find sp text) as [i|] eqn:Hf.
  - assert (Hsk : ends_solid (skipn i text)).
    { destruct Hend as (a & c & -> & Hc).
      apply find_nth_error in Hf.
      destruct (Nat.lt_ge_cases i (length a)) as [Hlt|Hge].
      - exists (skipn i a), c. split; [|exact Hc].
        rewrite skipn_app. replace (i - length a) with 0 by lia. reflexivity.
      - assert (Hi : i < length (a ++ [c]))
          by (apply nth_error_Some; congruence).
        rewrite length_app in Hi. simpl in Hi.
        assert (i = length a) by lia. subst i.
        rewrite nth_error_app2, Nat.sub_diag in Hf by lia.
        simpl in Hf. inversion Hf; subst c. discriminate. }
    destruct (strip_suffix _ Hsk) as [Hne [pre Hpre]].
    split; [exact Hne|].
    exists (firstn i text ++ pre).
    rewrite <- app_assoc, <- Hpre. symmetry. apply firstn_skipn.
  - split.
    + destruct Hend as (a & c & -> & _). destruct a; discriminate.
    + exists []. reflexivity.
Qed.

(** Every running chunk the loop closes ends with a character that is not
    whitespace. *)
Lemma running_from_ends_solid (self : PDFService) (sentences : list str)
    (st : list str * str) :
  Forall solid sentences -> shape_ok st ->
  Forall ends_solid (running_from self sentences st).
Proof.
  revert st. induction sentences as [|sentence sentences IH];
    intros [chunks cur] Hall Hst.
  - simpl. destruct cur as [|c cur'] eqn:Hcur; simpl; constructor; [|constructor].
    destruct Hst as [_ [H|H]]; [discriminate|exact H].
  - inversion Hall; subst. cbn [running_from snd].
    pose proof (IH _ H2 (chunk_step_shape self (chunks, cur) sentence H1 Hst))
      as Hrest.
    destruct ((chunk_size self <? length cur + length sentence) && nonempty cur)
      eqn:Hclose; [|exact Hrest].
    constructor; [|exact Hrest].
    apply andb_true_iff in Hclose. destruct Hclose as [_ Hne].
    destruct Hst as [_ [H|H]]; [|exact H].
    simpl in H. subst cur. discriminate.
Qed.

(** X9. Setting [chunk_overlap] to 0 does not switch the overlap off.
    Whenever the loop of [chunk_text] closes a running chunk, the running
    chunk that follows still starts with text carried over from the closed
    one: a suffix of it that is not empty (the closed chunk from its first
    space on, stripped, or all of it when it has no space), then a space
    and the sentence that did not fit. *)
Theorem chunk_text_zero_overlap_carries_text (self : PDFService) (text : str)
    (i : nat) (closed next : str) :
  chunk_overlap self = 0 ->
  nth_error (running_chunks self text) i = Some closed ->
  nth_error (running_chunks self text) (S i) = Some next ->
  exists pre seed sentence more,
    seed <> [] /\
    closed = pre ++ seed /\
    seed = match find sp closed with
           | Some space_index => strip (skipn space_index closed)
           | None => closed
           end /\
    In sentence (_split_into_sentences text) /\
    chunk_size self < length closed + length sentence /\
    next = seed ++ py " " ++ sentence ++ more.
Proof.
  intros H0 Hi HSi.
  destruct (running_chunks_carried self (_split_into_sentences text) text
              i closed next eq_refl Hi HSi)
    as (sentence & more & Hin & Hlen & Hnext).
  assert (Hend : ends_solid closed).
  { pose proof (running_from_ends_solid self (_split_into_sentences text)
                  ([], []) (_split_into_sentences_solid text)) as Hall.
    rewrite Forall_forall in Hall. apply Hall.
    - split; [constructor|left; reflexivity].
    - apply (nth_error_In _ i). exact Hi. }
  destruct (_get_overlap_text_zero_overlap self closed H0 Hend)
    as (Heq & Hne & pre & Hpre).
  exists pre, (_get_overlap_text self closed), sentence, more.
  repeat split; auto.
Qed.

(* ===================================================================== *)
(** ** More on text normalization *)
(* ===================================================================== *)

Lemma runs_concat (p : char -> bool) (s : str) : concat (runs p s) = s.
Proof.
  induction s as [|c s IH]; [reflexivity|]. simpl.
  destruct (runs p s) as [|[|d b] bs]; simpl in *; try (rewrite <- IH; reflexivity).
  destruct (Bool.eqb (p c) (p d)); simpl; rewrite <- IH; reflexivity.
Qed.

(** Every run is homogeneous for the class. *)
Lemma runs_homogeneous (p : char -> bool) (s : str) :
  Forall (fun r => Forall (fun c => p c = run_of p r) r) (runs p s).
Proof.
  induction s as [|c s IH]; [constructor|]. simpl.
  destruct (runs p s) as [|[|d b] bs].
  - repeat constructor.
  - constructor; [repeat constructor|exact IH].
  - destruct (Bool.eqb (p c) (p d)) eqn:Heq.
    + apply Bool.eqb_prop in Heq. inversion IH; subst.
      constructor; [|assumption]. simpl. simpl in H1.
      constructor; [reflexivity|]. rewrite Heq. exact H1.
    + constructor; [repeat constructor|exact IH].
Qed.

(** What [replace_runs] can put out: the replacement, and characters of
    the subject that stand in a run it does not replace. *)
Lemma replace_runs_Forall (p : char -> bool) (m : nat) (repl s : str)
    (Q : char -> Prop) :
  Forall Q repl ->
  (forall c, In c s -> p c = false -> Q c) ->
  (2 <= m -> forall c, In c s -> Q c) ->
  Forall Q (replace_runs p m repl s).
Proof.
  intros Hrepl Hother Hshort. unfold replace_runs.
  pose proof (runs_homogeneous p s) as Hhom.
  assert (Hsub : forall r, In r (runs p s) -> forall c, In c r -> In c s).
  { intros r Hr c Hc. rewrite <- (runs_concat p s). apply in_concat. eauto. }
  induction (runs p s) as [|r rs IH]; simpl; [constructor|].
  inversion Hhom; subst.
  apply Forall_app. split.
  - destruct (run_of p r) eqn:Hrun; simpl.
    + destruct (m <=? length r) eqn:Hm; [exact Hrepl|].
      apply Nat.leb_gt in Hm. apply Forall_forall. intros c Hc.
      apply Hshort; [|apply (Hsub r); [left; reflexivity|exact Hc]].
      destruct r; [destruct Hc|]. simpl in Hm. lia.
    + apply Forall_forall. intros c Hc.
      apply Hother; [apply (Hsub r); [left; reflexivity|exact Hc]|].
      rewrite Forall_forall in H1. apply H1. exact Hc.
  - apply IH; [assumption|]. intros r' Hr'. apply Hsub. right. exact Hr'.
Qed.

(** X10. In cleaned text every character is a word character, a space or
    one of . , ; : ! ? ( ) -, the only whitespace left is the space, and
    the text neither starts nor ends with whitespace. *)
Theorem _clean_text_alphabet (isalnum : char -> bool) (text : str) :
  Forall (fun c => is_special isalnum c = false /\
                   (is_space c = true -> c = sp))
         (_clean_text isalnum text) /\
  no_outer_space (_clean_text isalnum text).
Proof.
  unfold _clean_text. split; [|apply strip_no_outer_space].
  rewrite (sub_replace_runs is_space 1 (py " ")) by lia.
  rewrite sub_single_delete.
  rewrite (sub_replace_runs is_period 3 (py "...")) by lia.
  apply strip_Forall.
  assert (Hspaces : Forall (fun c => is_space c = true -> c = sp)
                           (replace_runs is_space 1 (py " ") text)).
  { apply replace_runs_Forall.
    - repeat constructor.
    - intros c _ Hns Hs. congruence.
    - intros Hle. lia. }
  assert (Hkept : Forall (fun c => is_special isalnum c = false /\
                                   (is_space c = true -> c = sp))
                    (filter (fun c => negb (is_special isalnum c))
                            (replace_runs is_space 1 (py " ") text))).
  { apply Forall_forall. intros c Hc. apply filter_In in Hc.
    destruct Hc as [Hin Hkeep]. apply negb_true_iff in Hkeep.
    split; [exact Hkeep|]. rewrite Forall_forall in Hspaces. auto. }
  rewrite Forall_forall in Hkept.
  apply replace_runs_Forall.
  - assert (Hdot : is_special isalnum 46%N = false /\
                   (is_space 46%N = true -> 46%N = sp)).
    { split; [|discriminate]. unfold is_special.
      rewrite orb_true_r. reflexivity. }
    repeat constructor; apply Hdot.
  - intros c Hc _. apply Hkept. exact Hc.
  - intros _ c Hc. apply Hkept. exact Hc.
Qed.

(** The sentences and chunks of a two-sentence text. *)
Definition two_sentences : str := py "Hello world. Bye now.".

Lemma chunk_text_empty_witness :
  chunk_text PDFService_init (py " ...  ?! ") = [].
Proof.
  apply (proj2 (chunk_text_empty PDFService_init (py " ...  ?! "))).
  repeat constructor.
Defined.

Lemma chunk_text_keeps_sentences_witness :
  exists c, In c (chunk_text PDFService_init two_sentences) /\
            infix (py "Bye now") c.
Proof.
  apply (chunk_text_keeps_sentences PDFService_init two_sentences (py "Bye now")).
  vm_compute. right. left. reflexivity.
Defined.

Lemma chunk_text_single_chunk_witness :
  chunk_text PDFService_init two_sentences
  = [join_space (_split_into_sentences two_sentences)].
Proof.
  apply (chunk_text_single_chunk PDFService_init two_sentences).
  - vm_compute. discriminate.
  - vm_compute. lia.
Defined.

Lemma chunk_text_length_bound_configured_witness :
  length (py "Hello world Bye now") <= 1201.
Proof.
  apply (chunk_text_length_bound_configured two_sentences (py "Hello world Bye now")).
  - vm_compute. repeat constructor; lia.
  - vm_compute. left. reflexivity.
Defined.

Lemma _get_overlap_text_bounded_witness :
  length (_get_overlap_text PDFService_init (times "ab " 100)) <= 200 /\
  infix (_get_overlap_text PDFService_init (times "ab " 100)) (times "ab " 100).
Proof.
  apply (_get_overlap_text_bounded PDFService_init (times "ab " 100)).
  simpl. lia.
Defined.

Lemma chunk_text_zero_overlap_carries_text_witness :
  chunk_text {| chunk_size := 10; chunk_overlap := 0 |}
             (py "one two. three four.")
  = [py "one two"; py "two three four"] /\
  exists pre seed sentence more,
    seed <> [] /\
    py "one two" = pre ++ seed /\
    seed = match find sp (py "one two") with
           | Some space_index => strip (skipn space_index (py "one two"))
           | None => py "one two"
           end /\
    In sentence (_split_into_sentences (py "one two. three four.")) /\
    chunk_size {| chunk_size := 10; chunk_overlap := 0 |}
    < length (py "one two") + length sentence /\
    py "two three four" = seed ++ py " " ++ sentence ++ more.
Proof.
  split; [vm_compute; reflexivity|].
  apply (chunk_text_zero_overlap_carries_text
           {| chunk_size := 10; chunk_overlap := 0 |}
           (py "one two. three four.") 0).
  - reflexivity.
  - vm_compute. reflexivity.
  - vm_compute. reflexivity.
Defined.

(* ===================================================================== *)
(** ** More on the fetcher and the extractor *)
(* ===================================================================== *)

Section Fetch.

Variable E : env.

Lemma run_adapter_send_response (pdf_url : str) (retries : nat) (s : world)
    (r : response) :
  wire E pdf_url (tick s) = WireResponse r ->
  in_forcelist (status_code r) = false ->
  adapter_send E pdf_url retries s
  = (Ok (GotResponse r), advance 1 [EvHttpRequest pdf_url] s).
Proof.
  intros Hw Hf. destruct retries; simpl;
    rewrite (bind_ok _ _ _ _ _ (run_external s));
    rewrite (bind_ok _ _ _ _ _ (run_log _ _));
    simpl tick; rewrite Nat.add_0_r || idtac.
  all: rewrite Hw, Hf; unfold ret; f_equal; world_eq.
Qed.

(** The events of one [session.get] whose every request fails to
    connect, as for a listed status. *)
Lemma adapter_send_unreachable (pdf_url : str) (retries : nat) (s : world) :
  (forall n, wire E pdf_url n = WireConnectFailed) ->
  adapter_send E pdf_url retries s
  = (Ok (GetRaised ReqConnectionError),
     advance (S retries) (exhausted_events pdf_url retries) s).
Proof.
  intros Hw. revert s. induction retries as [|k IH]; intros s.
  - simpl. rewrite (bind_ok _ _ _ _ _ (run_external s)).
    rewrite (bind_ok _ _ _ _ _ (run_log _ _)).
    rewrite Hw. unfold ret. f_equal. rewrite advance_advance. reflexivity.
  - simpl. rewrite (bind_ok _ _ _ _ _ (run_external s)).
    rewrite (bind_ok _ _ _ _ _ (run_log _ _)).
    rewrite Hw.
    rewrite (bind_ok _ _ _ _ _ (run_log _ _)).
    rewrite IH. f_equal. rewrite !advance_advance. world_eq.
Qed.

End Fetch.


(** X11. A URL that starts with neither "http://" nor "https://" is
    refused with [ValueError] before anything is sent: no collaborator is
    called. *)
Theorem extract_text_invalid_url (E : env) (self : PDFService) (pdf_url : str)
    (s : world) :
  valid_scheme pdf_url = false ->
  extract_text_from_url E self pdf_url s
  = (Raise (ValueError (py "Invalid URL format: " ++ pdf_url)),
     advance 0 [EvExtractTextFromUrl pdf_url] s).
Proof.
  intros H. unfold extract_text_from_url. rewrite bind_log. cbv beta.
  unfold valid_scheme in H. rewrite H. reflexivity.
Qed.


(** The events of a fetch whose every request fails to connect. *)
Definition events_unreachable (pdf_url : str) : list event :=
  [EvExtractTextFromUrl pdf_url; EvSessionGet pdf_url 0]
  ++ exhausted_events pdf_url 3
  ++ [EvSleep 1; EvSessionGet pdf_url 1]
  ++ exhausted_events pdf_url 3
  ++ [EvSleep 2; EvSessionGet pdf_url 2]
  ++ exhausted_events pdf_url 3.

(** X13. When every request fails to connect, the fetch goes through the
    retry loop three times, sleeping 1 and 2 seconds in between, and then
    raises the built-in [ConnectionError] that names the URL and the
    three attempts. *)
Theorem extract_text_unreachable (E : env) (self : PDFService) (pdf_url : str)
    (s : world) :
  valid_scheme pdf_url = true ->
  (forall n, wire E pdf_url n = WireConnectFailed) ->
  extract_text_from_url E self pdf_url s
  = (Raise (ConnectionError
              (py "Failed to connect to " ++ pdf_url ++ py " after "
               ++ py "3"
               ++ py " attempts. Please check your internet connection and the URL.")),
     advance 12 (events_unreachable pdf_url) s) /\
  filter is_attempt_or_sleep (events_unreachable pdf_url)
  = [EvSessionGet pdf_url 0; EvSleep 1; EvSessionGet pdf_url 1; EvSleep 2;
     EvSessionGet pdf_url 2].
Proof.
  intros Hscheme Hw. split; [|reflexivity].
  unfold extract_text_from_url.
  rewrite (bind_ok _ _ _ _ _ (run_log _ _)).
  unfold valid_scheme in Hscheme. rewrite Hscheme. simpl negb. cbv iota.
  assert (Hget : forall s0, session_get E pdf_url s0
                 = (Ok (GetRaised ReqConnectionError),
                    advance 4 (exhausted_events pdf_url 3) s0)).
  { intros s0. unfold session_get. apply adapter_send_unreachable. exact Hw. }
  apply bind_raise.
  simpl download.
  rewrite (bind_ok _ _ _ _ _ (run_log _ _)).
  rewrite (bind_ok _ _ _ _ _ (Hget _)). simpl.
  unfold sleep. rewrite (bind_ok _ _ _ _ _ (run_log _ _)).
  rewrite (bind_ok _ _ _ _ _ (run_log _ _)).
  rewrite (bind_ok _ _ _ _ _ (Hget _)). simpl.
  rewrite (bind_ok _ _ _ _ _ (run_log _ _)).
  rewrite (bind_ok _ _ _ _ _ (run_log _ _)).
  rewrite (bind_ok _ _ _ _ _ (Hget _)). simpl.
  unfold raise. f_equal. rewrite !advance_advance. world_eq.
Qed.

(** The texts of the pages whose [extract_text()] did not raise. *)
Definition page_texts (pages : list (option str)) : list str :=
  flat_map (fun page => match page with Some t => [t] | None => [] end) pages.

Lemma pages_text_concat (pages : list (option str)) :
  pages_text pages = concat (map (fun t => t ++ [10%N]) (page_texts pages)).
Proof.
  unfold pages_text.
  assert (H : forall acc,
             fold_left (fun text page =>
                          match page with
                          | Some page_text => text ++ page_text ++ [10%N]
                          | None => text
                          end) pages acc
             = acc ++ concat (map (fun t => t ++ [10%N]) (page_texts pages))).
  { induction pages as [|[t|] pages IH]; intros acc; simpl.
    - rewrite app_nil_r. reflexivity.
    - rewrite IH. rewrite <- !app_assoc. reflexivity.
    - apply IH. }
  apply (H []).
Qed.

Lemma strip_blank (s : str) :
  Forall (fun c => is_space c = true) s -> strip s = [].
Proof.
  intros Hs. unfold strip.
  assert (Hl : lstrip s = []).
  { induction Hs as [|c s Hc _ IH]; simpl; [reflexivity|]. rewrite Hc. exact IH. }
  rewrite Hl. reflexivity.
Qed.

Lemma strip_not_blank (s : str) (c : char) :
  In c s -> is_space c = false -> strip s <> [].
Proof.
  intros Hin Hc. apply in_split in Hin. destruct Hin as (a & b & ->).
  destruct (strip_keeps a [c] b) as (a' & b' & H).
  - discriminate.
  - split; intros d Hd; simpl in Hd; inversion Hd; subst; exact Hc.
  - change (a ++ c :: b) with (a ++ [c] ++ b). rewrite H.
    destruct a'; discriminate.
Qed.

(** A parse that gives no text: a read error, no page, or pages that
    raise or hold only whitespace. *)
Definition unreadable (p : pdf_result) : Prop :=
  match p with
  | PdfReadError _ => True
  | PdfPages pages =>
      Forall (fun page => match page with
                          | Some t => Forall (fun c => is_space c = true) t
                          | None => True
                          end) pages
  end.

(** The events of a fetch answered at the first request. *)
Definition events_downloaded (pdf_url : str) : list event :=
  [EvExtractTextFromUrl pdf_url; EvSessionGet pdf_url 0; EvHttpRequest pdf_url;
   EvPdfReader].

Section Extract.

Variable E : env.
Variable self : PDFService.
Variable pdf_url : str.
Variable s : world.
Variable r : response.

Hypothesis scheme_ok : valid_scheme pdf_url = true.
Hypothesis answered : wire E pdf_url (tick s) = WireResponse r.
Hypothesis status_ok : is_error_status (status_code r) = false.
Hypothesis not_listed : in_forcelist (status_code r) = false.

(** After the download: the parse decides. *)
Lemma run_extract_downloaded :
  extract_text_from_url E self pdf_url s
  = (match PdfReader E (content r) with
     | PdfReadError msg =>
         Raise (ValueError (py "Invalid or corrupted PDF file: " ++ msg))
     | PdfPages pages =>
         if length pages =? 0 then
           Raise (ValueError (py "PDF file appears to be empty or corrupted"))
         else if negb (nonempty (strip (pages_text pages))) then
           Raise (ValueError (py "No text could be extracted from the PDF. The PDF may be image-based or corrupted."))
         else Ok (_clean_text (isalnum E) (pages_text pages))
     end,
     advance 1 (events_downloaded pdf_url) s).
Proof.
  unfold extract_text_from_url.
  rewrite bind_log. cbv beta.
  unfold valid_scheme in scheme_ok. rewrite scheme_ok. simpl negb.
  cbv iota zeta.
  assert (Hdl : download E pdf_url 3 3 0
                  (advance 0 [EvExtractTextFromUrl pdf_url] s)
                = (Ok (Some r),
                   advance 1 [EvSessionGet pdf_url 0; EvHttpRequest pdf_url]
                     (advance 0 [EvExtractTextFromUrl pdf_url] s))).
  { simpl download. rewrite bind_log. cbv beta. unfold session_get.
    rewrite (bind_ok _ _ _ _ _
               (run_adapter_send_response E pdf_url 3
                  (advance 0 [EvSessionGet pdf_url 0]
                     (advance 0 [EvExtractTextFromUrl pdf_url] s)) r
                  answered not_listed)).
    rewrite status_ok. unfold ret. f_equal. world_eq. }
  etransitivity; [apply (bind_ok _ _ _ _ _ Hdl)|].
  cbv beta iota. rewrite bind_log. cbv beta.
  destruct (PdfReader E (content r)) as [msg|pages].
  - unfold raise. f_equal. world_eq.
  - destruct (length pages =? 0); [unfold raise; f_equal; world_eq|].
    destruct (negb (nonempty (strip (pages_text pages))));
      [unfold raise|unfold ret]; f_equal; world_eq.
Qed.

End Extract.

(** X14. A page that cannot be read is skipped and does not abort the
    document: when the download is answered at once and at least one page
    has a character that is not whitespace, the extraction succeeds and
    returns the cleaned concatenation of the readable pages, each followed
    by a newline. *)
Theorem extract_text_skips_failed_pages (E : env) (self : PDFService)
    (pdf_url : str) (s : world) (r : response) (pages : list (option str))
    (t : str) (c : char) :
  valid_scheme pdf_url = true ->
  wire E pdf_url (tick s) = WireResponse r ->
  is_error_status (status_code r) = false ->
  in_forcelist (status_code r) = false ->
  PdfReader E (content r) = PdfPages pages ->
  In (Some t) pages -> In c t -> is_space c = false ->
  extract_text_from_url E self pdf_url s
  = (Ok (_clean_text (isalnum E)
           (concat (map (fun t => t ++ [10%N]) (page_texts pages)))),
     advance 1 (events_downloaded pdf_url) s).
Proof.
  intros Hscheme Hw Hst Hf Hpdf Hpage Hc Hns.
  rewrite (run_extract_downloaded E self pdf_url s r Hscheme Hw Hst Hf), Hpdf.
  destruct pages as [|p pages']; [destruct Hpage|].
  simpl Nat.eqb. cbv iota.
  assert (Hin : In c (pages_text (p :: pages'))).
  { rewrite pages_text_concat. apply in_concat.
    exists (t ++ [10%N]). split; [|apply in_or_app; left; exact Hc].
    apply (in_map (fun u => u ++ [10%N])). unfold page_texts. apply in_flat_map.
    exists (Some t). split; [exact Hpage|left; reflexivity]. }
  pose proof (strip_not_blank _ c Hin Hns) as Hne.
  destruct (strip (pages_text (p :: pages'))) as [|d rest] eqn:Hstrip;
    [congruence|].
  simpl negb. cbv iota. rewrite pages_text_concat. reflexivity.
Qed.

(** The message of the [ValueError] raised for a parse that gives no
    text. *)
Definition unreadable_message (p : pdf_result) : str :=
  match p with
  | PdfReadError msg => py "Invalid or corrupted PDF file: " ++ msg
  | PdfPages [] => py "PDF file appears to be empty or corrupted"
  | PdfPages _ =>
      py "No text could be extracted from the PDF. The PDF may be image-based or corrupted."
  end.

(** X15. When the download is answered at once but the parse gives no
    text (the reader raises [PdfReadError], the PDF has no page, or every
    page raises or is blank), the extraction raises [ValueError], with the
    message of the case. *)
Theorem extract_text_unreadable_pdf (E : env) (self : PDFService)
    (pdf_url : str) (s : world) (r : response) :
  valid_scheme pdf_url = true ->
  wire E pdf_url (tick s) = WireResponse r ->
  is_error_status (status_code r) = false ->
  in_forcelist (status_code r) = false ->
  unreadable (PdfReader E (content r)) ->
  extract_text_from_url E self pdf_url s
  = (Raise (ValueError (unreadable_message (PdfReader E (content r)))),
     advance 1 (events_downloaded pdf_url) s).
Proof.
  intros Hscheme Hw Hst Hf Hun.
  rewrite (run_extract_downloaded E self pdf_url s r Hscheme Hw Hst Hf).
  destruct (PdfReader E (content r)) as [msg|pages]; [reflexivity|].
  destruct pages as [|p pages']; [reflexivity|].
  simpl Nat.eqb. cbv iota.
  assert (Hblank : strip (pages_text (p :: pages')) = []).
  { apply strip_blank. rewrite pages_text_concat.
    simpl in Hun. induction Hun as [|[t|] pages'' Hp _ IH]; simpl.
    - constructor.
    - apply Forall_app. split; [|exact IH].
      apply Forall_app. split; [exact Hp|repeat constructor].
    - exact IH. }
  rewrite Hblank. reflexivity.
Qed.

(** A readable document that is answered at the first request. *)
Lemma run_extract_text_readable (E : env) (self : PDFService) (pdf_url : str)
    (s : world) (r : response) (pages : list (option str)) (t : str) (c : char) :
  valid_scheme pdf_url = true ->
  wire E pdf_url (tick s) = WireResponse r ->
  is_error_status (status_code r) = false ->
  in_forcelist (status_code r) = false ->
  PdfReader E (content r) = PdfPages pages ->
  In (Some t) pages -> In c t -> is_space c = false ->
  extract_text_from_url E self pdf_url s
  = (Ok (_clean_text (isalnum E) (pages_text pages)),
     advance 1 (events_downloaded pdf_url) s).
Proof.
  intros Hscheme Hw Hst Hf Hpdf Hpage Hc Hns.
  rewrite (run_extract_downloaded E self pdf_url s r Hscheme Hw Hst Hf), Hpdf.
  destruct pages as [|p pages']; [destruct Hpage|].
  simpl Nat.eqb. cbv iota.
  assert (Hin : In c (pages_text (p :: pages'))).
  { rewrite pages_text_concat. apply in_concat.
    exists (t ++ [10%N]). split; [|apply in_or_app; left; exact Hc].
    apply (in_map (fun u => u ++ [10%N])). unfold page_texts. apply in_flat_map.
    exists (Some t). split; [exact Hpage|left; reflexivity]. }
  pose proof (strip_not_blank _ c Hin Hns) as Hne.
  destruct (strip (pages_text (p :: pages'))) as [|d rest] eqn:Hstrip;
    [congruence|].
  reflexivity.
Qed.

(** Without a character of a class, [replace_runs] for that class changes
    nothing. *)
Lemma replace_runs_none (p : char -> bool) (m : nat) (repl s : str) :
  Forall (fun c => p c = false) s -> replace_runs p m repl s = s.
Proof.
  intros Hs. unfold replace_runs.
  rewrite <- (runs_concat p s) at 2. f_equal.
  assert (Hsub : forall r, In r (runs p s) -> run_of p r = false).
  { intros r Hr. destruct r as [|c r']; [reflexivity|]. simpl.
    rewrite Forall_forall in Hs. apply Hs.
    rewrite <- (runs_concat p s). apply in_concat.
    exists (c :: r'). split; [exact Hr|left; reflexivity]. }
  induction (runs p s) as [|r rs IH]; [reflexivity|]. simpl.
  rewrite (Hsub r) by (left; reflexivity). simpl. f_equal.
  apply IH. intros r' Hr'. apply Hsub. right. exact Hr'.
Qed.

(** Text made of whitespace and of characters outside the kept set cleans
    to the empty string. *)
Lemma _clean_text_nothing_kept (isalnum : char -> bool) (text : str) :
  Forall (fun c => is_space c = true \/ is_special isalnum c = true) text ->
  _clean_text isalnum text = [].
Proof.
  intros Htext. unfold _clean_text.
  rewrite (sub_replace_runs is_space 1 (py " ")) by lia.
  rewrite sub_single_delete.
  rewrite (sub_replace_runs is_period 3 (py "...")) by lia.
  assert (H1 : Forall (fun c => c = sp \/ is_special isalnum c = true)
                      (replace_runs is_space 1 (py " ") text)).
  { apply replace_runs_Forall.
    - repeat constructor.
    - intros c Hc Hns. rewrite Forall_forall in Htext.
      destruct (Htext c Hc) as [H|H]; [congruence|right; exact H].
    - intros Hle. lia. }
  assert (H2 : Forall (fun c => c = sp)
                      (filter (fun c => negb (is_special isalnum c))
                              (replace_runs is_space 1 (py " ") text))).
  { apply Forall_forall. intros c Hc. apply filter_In in Hc.
    destruct Hc as [Hin Hkeep]. apply negb_true_iff in Hkeep.
    rewrite Forall_forall in H1. destruct (H1 c Hin) as [H|H];
      [exact H|congruence]. }
  rewrite replace_runs_none.
  - apply strip_blank. eapply Forall_impl; [|exact H2].
    intros c ->. reflexivity.
  - eapply Forall_impl; [|exact H2]. intros c ->. reflexivity.
Qed.

(** X16. The check for missing text comes before the cleaning.  A PDF
    whose pages hold a character that is not whitespace, but only
    whitespace and characters that the cleaning removes, passes the check
    and is returned as the empty string. *)
Theorem extract_text_empty_after_cleaning (E : env) (self : PDFService)
    (pdf_url : str) (s : world) (r : response) (pages : list (option str))
    (t : str) (c : char) :
  valid_scheme pdf_url = true ->
  wire E pdf_url (tick s) = WireResponse r ->
  is_error_status (status_code r) = false ->
  in_forcelist (status_code r) = false ->
  PdfReader E (content r) = PdfPages pages ->
  In (Some t) pages -> In c t -> is_space c = false ->
  Forall (Forall (fun d => is_space d = true \/ is_special (isalnum E) d = true))
         (page_texts pages) ->
  extract_text_from_url E self pdf_url s
  = (Ok [], advance 1 (events_downloaded pdf_url) s).
Proof.
  intros Hscheme Hw Hst Hf Hpdf Hpage Hc Hns Hall.
  rewrite (run_extract_text_readable E self pdf_url s r pages t c
             Hscheme Hw Hst Hf Hpdf Hpage Hc Hns).
  rewrite _clean_text_nothing_kept; [reflexivity|].
  rewrite pages_text_concat.
  induction Hall as [|page rest Hp _ IH]; simpl; [constructor|].
  apply Forall_app. split; [|exact IH].
  apply Forall_app. split; [exact Hp|].
  repeat constructor.
Qed.

(** Concrete fetches. *)

Definition url_ftp : str := py "ftp://example.com/a.pdf".


(** A source no connection reaches. *)
Definition unreachable_env : env :=
  {| raises := no_faults;
     uuid4_at := uuid4_at policy_env;
     timestamp_at := timestamp_at policy_env;
     wire := fun _ _ => WireConnectFailed;
     PdfReader := PdfReader policy_env;
     isalnum := ascii_isalnum;
     embed := embed policy_env;
     index_query := index_query policy_env;
     generate_content := generate_content policy_env |}.

(** A document whose first and last pages raise in [extract_text()]. *)
Definition torn_pages : list (option str) :=
  [None; Some (py "Cover  page"); Some (py "Terms #1."); None].

Definition torn_env : env := demo_env torn_pages 200 no_faults.

(** A scanned document: one page raises, the other gives only blanks. *)
Definition scanned_env : env := demo_env [None; Some (py "  ")] 200 no_faults.

Lemma extract_text_invalid_url_witness :
  extract_text_from_url policy_env PDFService_init url_ftp empty_world
  = (Raise (ValueError (py "Invalid URL format: " ++ url_ftp)),
     advance 0 [EvExtractTextFromUrl url_ftp] empty_world).
Proof.
  apply (extract_text_invalid_url policy_env PDFService_init url_ftp empty_world).
  reflexivity.
Defined.


Lemma extract_text_unreachable_witness :
  fst (extract_text_from_url unreachable_env PDFService_init url_a empty_world)
  = Raise (ConnectionError
             (py "Failed to connect to https://example.com/a.pdf after 3 attempts. Please check your internet connection and the URL.")).
Proof.
  rewrite (proj1 (extract_text_unreachable unreachable_env PDFService_init url_a
                    empty_world eq_refl (fun _ => eq_refl))).
  reflexivity.
Defined.

Lemma extract_text_skips_failed_pages_witness :
  fst (extract_text_from_url torn_env PDFService_init url_a empty_world)
  = Ok (py "Cover page Terms 1.").
Proof.
  rewrite (extract_text_skips_failed_pages torn_env PDFService_init url_a
             empty_world {| status_code := 200; content := [] |} torn_pages
             (py "Terms #1.") 84%N
             eq_refl eq_refl eq_refl eq_refl eq_refl
             (or_intror (or_intror (or_introl eq_refl)))
             (or_introl eq_refl) eq_refl).
  vm_compute. reflexivity.
Defined.

Lemma extract_text_unreadable_pdf_witness :
  extract_text_from_url scanned_env PDFService_init url_a empty_world
  = (Raise (ValueError (py "No text could be extracted from the PDF. The PDF may be image-based or corrupted.")),
     advance 1 (events_downloaded url_a) empty_world).
Proof.
  apply (extract_text_unreadable_pdf scanned_env PDFService_init url_a
           empty_world {| status_code := 200; content := [] |});
    try reflexivity.
  simpl. repeat constructor.
Defined.

(** A document of symbols only. *)
Definition symbols_env : env := demo_env [Some (py "@#$ %")] 200 no_faults.

Lemma extract_text_empty_after_cleaning_witness :
  extract_text_from_url symbols_env PDFService_init url_a empty_world
  = (Ok [], advance 1 (events_downloaded url_a) empty_world).
Proof.
  apply (extract_text_empty_after_cleaning symbols_env PDFService_init url_a
           empty_world {| status_code := 200; content := [] |}
           [Some (py "@#$ %")] (py "@#$ %") 64%N);
    try reflexivity.
  - left. reflexivity.
  - left. reflexivity.
  - constructor; [|constructor].
    repeat (constructor; [first [left; reflexivity|right; reflexivity]|]).
    constructor.
Defined.


(* ===================================================================== *)
(** ** Frames: what an operation leaves alone *)
(* ===================================================================== *)

Section Frame.

Variable E : env.

(** A relation between the world before and the world after: a preorder
    that holds across any number of calls and any events appended. *)
Variable R : world -> world -> Prop.
Hypothesis R_refl : forall s, R s s.
Hypothesis R_trans : forall s1 s2 s3, R s1 s2 -> R s2 s3 -> R s1 s3.
Hypothesis R_advance : forall n evs s, R s (advance n evs s).

(** The computation keeps [R], however it ends. *)
Definition keeps {A} (m : M A) : Prop := forall s, R s (snd (m s)).

Lemma keeps_ret {A} (a : A) : keeps (ret a).
Proof. intros s. apply R_refl. Qed.

Lemma keeps_raise {A} (e : exn) : keeps (@raise A e).
Proof. intros s. apply R_refl. Qed.

Lemma keeps_bind {A B} (m : M A) (k : A -> M B) :
  keeps m -> (forall a, keeps (k a)) -> keeps (bind m k).
Proof.
  intros Hm Hk s. unfold bind. specialize (Hm s).
  destruct (m s) as [[a|e] s1]; simpl in *; auto.
  eapply R_trans; [exact Hm|apply Hk].
Qed.

Lemma keeps_try_except {A} (m : M A) (h : exn -> M A) :
  keeps m -> (forall e, keeps (h e)) -> keeps (try_except m h).
Proof.
  intros Hm Hh s. unfold try_except. specialize (Hm s).
  destruct (m s) as [[a|e] s1]; simpl in *; auto.
  eapply R_trans; [exact Hm|apply Hh].
Qed.

Lemma keeps_for_each {A B} (f : A -> M B) (l : list A) :
  (forall a, keeps (f a)) -> keeps (for_each f l).
Proof.
  intros Hf. induction l as [|a l IH]; simpl.
  - apply keeps_ret.
  - apply keeps_bind; [apply Hf|]. intros b.
    apply keeps_bind; [exact IH|]. intros bs. apply keeps_ret.
Qed.

Lemma keeps_external : keeps external.
Proof. intros s. rewrite run_external. apply R_advance. Qed.

Lemma keeps_fallible (e : exn) : keeps (fallible E e).
Proof. intros s. rewrite run_fallible. apply R_advance. Qed.

Lemma keeps_uuid4 : keeps (uuid4 E).
Proof. intros s. rewrite run_uuid4. apply R_advance. Qed.

Lemma keeps_get_ist_timestamp : keeps (get_ist_timestamp E).
Proof. intros s. rewrite run_get_ist_timestamp. apply R_advance. Qed.

Lemma keeps_log (e : event) : keeps (log e).
Proof. intros s. rewrite run_log. apply R_advance. Qed.

Lemma keeps_get_world : keeps get_world.
Proof. intros s. apply R_refl. Qed.

Lemma keeps_modify (f : world -> world) :
  (forall s, R s (f s)) -> keeps (modify f).
Proof. intros H s. apply H. Qed.

Ltac keeps_step :=
  first
    [ apply keeps_ret | apply keeps_raise | apply keeps_external
    | apply keeps_fallible | apply keeps_uuid4 | apply keeps_get_ist_timestamp
    | apply keeps_get_world | apply keeps_log
    | assumption
    | apply keeps_modify; solve [auto]
    | apply keeps_bind; [|intros]
    | apply keeps_try_except; [|intros]
    | apply keeps_for_each; intros
    | match goal with
      | |- keeps (match ?x with _ => _ end) => destruct x
      end ].

Ltac keeps_auto := repeat keeps_step.

(** *** Operations that touch no store *)

Lemma keeps_adapter_send (pdf_url : str) (retries : nat) :
  keeps (adapter_send E pdf_url retries).
Proof.
  induction retries as [|k IH]; simpl; keeps_auto.
Qed.

Lemma keeps_download (pdf_url : str) (max_attempts remaining attempt : nat) :
  keeps (download E pdf_url max_attempts remaining attempt).
Proof.
  revert attempt. induction remaining as [|k IH]; intros attempt; simpl.
  - apply keeps_ret.
  - apply keeps_bind; [apply keeps_log|]. intros _.
    apply keeps_bind; [apply keeps_adapter_send|]. intros r.
    pose proof (IH (S attempt)) as Hnext.
    unfold on_http_error, sleep.
    destruct r as [response|e]; [keeps_auto|].
    destruct e; simpl; keeps_auto.
Qed.

Lemma keeps_extract_text_from_url (self : PDFService) (pdf_url : str) :
  keeps (extract_text_from_url E self pdf_url).
Proof.
  unfold extract_text_from_url.
  apply keeps_bind; [apply keeps_log|]. intros _.
  destruct (negb _); [apply keeps_raise|].
  apply keeps_bind; [apply keeps_download|]. intros response.
  keeps_auto.
Qed.

Lemma keeps_chunk_text_call (self : PDFService) (text : str) :
  keeps (chunk_text_call self text).
Proof. unfold chunk_text_call. keeps_auto. Qed.

Lemma keeps_dummy_ids (prefix document_id : str) (chunks : list str) :
  keeps (dummy_ids E prefix document_id chunks).
Proof. unfold dummy_ids, make_id. keeps_auto. Qed.

Lemma keeps_search_similar_chunks (self : PineconeService) (query : str)
    (top_k : nat) :
  keeps (search_similar_chunks E self query top_k).
Proof. unfold search_similar_chunks, encode. keeps_auto. Qed.

Lemma keeps_generate_answer (question : str) (relevant_chunks : list Match.t) :
  keeps (generate_answer E question relevant_chunks).
Proof. unfold generate_answer. keeps_auto. Qed.

Lemma keeps_has_chunks (document_id : str) : keeps (has_chunks E document_id).
Proof.
  unfold has_chunks, select_chunks_by_document_id, execute. keeps_auto.
Qed.

(** *** Operations that write, under the writes [R] allows *)

Section Writes.

Hypothesis R_chunk : forall r s, R s (add_document_chunk r s).
Hypothesis R_query : forall r s, R s (add_user_query r s).
Hypothesis R_answer : forall r s, R s (add_answer r s).
Hypothesis R_clauses : forall rs s, R s (add_answer_clauses rs s).
Hypothesis R_vectors : forall vs s, R s (set_index_vectors vs s).

Lemma keeps_store_chunks (self : PineconeService) (chunks : list str)
    (document_id : str) :
  keeps (store_chunks E self chunks document_id).
Proof.
  unfold store_chunks, encode, index_upsert, make_vector.
  pose proof keeps_dummy_ids as Hd.
  keeps_auto; try apply Hd.
Qed.

Lemma keeps_create_document_chunk (document_id : str) (chunk_index : nat)
    (chunk_text pinecone_id : str) :
  keeps (create_document_chunk E document_id chunk_index chunk_text pinecone_id).
Proof.
  unfold create_document_chunk, insert_document_chunk, execute. keeps_auto.
Qed.

Lemma keeps__store_document_chunks (self : QueryController) (document_id : str)
    (chunks : list str) :
  keeps (_store_document_chunks E self document_id chunks).
Proof.
  unfold _store_document_chunks.
  apply keeps_bind; [apply keeps_store_chunks|]. intros chunk_data.
  apply keeps_bind; [|intros; apply keeps_ret].
  apply keeps_for_each. intros [i [c p]]. apply keeps_create_document_chunk.
Qed.

Lemma keeps_process_new_document (self : QueryController)
    (document : Document.t) (pdf_url : str) :
  keeps (process_new_document E self document pdf_url).
Proof.
  unfold process_new_document.
  apply keeps_bind; [apply keeps_extract_text_from_url|]. intros text.
  apply keeps_bind; [apply keeps_chunk_text_call|]. intros chunks.
  apply keeps__store_document_chunks.
Qed.

Lemma keeps_create_user_query (document_id query_text : str) :
  keeps (create_user_query E document_id query_text).
Proof.
  unfold create_user_query, insert_user_query, execute. keeps_auto.
Qed.

Lemma keeps_create_answer_with_clauses (query_id answer_text : str)
    (relevant_chunks : list Match.t) (decision : option str)
    (amount : option Q) :
  keeps (create_answer_with_clauses E query_id answer_text relevant_chunks
                                    decision amount).
Proof.
  unfold create_answer_with_clauses, insert_answer, insert_answer_clauses,
    make_clause, select_chunks_by_pinecone_id, execute.
  keeps_auto.
Qed.

Lemma keeps_process_question (self : QueryController) (document : Document.t)
    (question : str) :
  keeps (process_question E self document question).
Proof.
  unfold process_question.
  apply keeps_bind; [apply keeps_create_user_query|]. intros query.
  apply keeps_bind; [apply keeps_search_similar_chunks|]. intros relevant_chunks.
  apply keeps_bind; [apply keeps_generate_answer|]. intros answer_text.
  apply keeps_bind; [apply keeps_create_answer_with_clauses|]. intros _.
  apply keeps_ret.
Qed.

(** Steps 2 and 3 of [process_document_queries], once the document is
    resolved. *)
Definition process_resolved (self : QueryController) (document : Document.t)
    (pdf_url : str) (questions : list str) : M (list str) :=
  processed <- has_chunks E (Document.id document) ;;
  (if negb processed then process_new_document E self document pdf_url
   else ret tt) ;;
  for_each (process_question E self document) questions.

Lemma keeps_process_resolved (self : QueryController) (document : Document.t)
    (pdf_url : str) (questions : list str) :
  keeps (process_resolved self document pdf_url questions).
Proof.
  unfold process_resolved.
  apply keeps_bind; [apply keeps_has_chunks|]. intros processed.
  apply keeps_bind.
  - destruct (negb processed); [apply keeps_process_new_document|apply keeps_ret].
  - intros _. apply keeps_for_each. intros q. apply keeps_process_question.
Qed.

Hypothesis R_document : forall r s, R s (add_document r s).

Lemma keeps_get_or_create_document (url : str) :
  keeps (get_or_create_document E url).
Proof.
  unfold get_or_create_document, select_documents_by_url, insert_document,
    execute.
  keeps_auto.
Qed.

Lemma keeps_process_document_queries (self : QueryController) (pdf_url : str)
    (questions : list str) :
  keeps (process_document_queries E self pdf_url questions).
Proof.
  unfold process_document_queries.
  apply keeps_bind; [apply keeps_get_or_create_document|]. intros document.
  apply (keeps_process_resolved self document pdf_url questions).
Qed.

End Writes.

End Frame.

(* ===================================================================== *)
(** ** The failed chunk lookup *)
(* ===================================================================== *)

(** The trace only grows. *)
Definition trace_grows (s s' : world) : Prop :=
  exists evs, trace s' = trace s ++ evs.

Lemma trace_grows_refl (s : world) : trace_grows s s.
Proof. exists []. rewrite app_nil_r. reflexivity. Qed.

Lemma trace_grows_trans (s1 s2 s3 : world) :
  trace_grows s1 s2 -> trace_grows s2 s3 -> trace_grows s1 s3.
Proof.
  intros [evs H] [evs' H']. exists (evs ++ evs').
  rewrite H', H, app_assoc. reflexivity.
Qed.

Lemma trace_grows_advance (n : nat) (evs : list event) (s : world) :
  trace_grows s (advance n evs s).
Proof. exists evs. reflexivity. Qed.

Ltac grows_side :=
  first [ exact trace_grows_refl | exact trace_grows_trans
        | exact trace_grows_advance
        | solve [intros; exists []; simpl; rewrite app_nil_r; reflexivity] ].

Section TraceGrows.

Variable E : env.

Lemma bind_trace_grows {A B} (m : M A) (k : A -> M B) (s : world) :
  (forall a, keeps trace_grows (k a)) ->
  trace_grows (snd (m s)) (snd (bind m k s)).
Proof.
  intros Hk. unfold bind. destruct (m s) as [[a|e] s']; simpl.
  - apply Hk.
  - apply trace_grows_refl.
Qed.

Lemma process_question_trace_grows (self : QueryController)
    (document : Document.t) (question : str) :
  keeps trace_grows (process_question E self document question).
Proof. apply keeps_process_question; grows_side. Qed.

Lemma questions_trace_grows (self : QueryController) (document : Document.t)
    (questions : list str) :
  keeps trace_grows (for_each (process_question E self document) questions).
Proof.
  apply keeps_for_each; try grows_side.
  intros q. apply process_question_trace_grows.
Qed.

Lemma _store_document_chunks_trace_grows (self : QueryController)
    (document_id : str) (chunks : list str) :
  keeps trace_grows (_store_document_chunks E self document_id chunks).
Proof. apply keeps__store_document_chunks; grows_side. Qed.

Lemma create_document_chunks_trace_grows (document_id : str)
    (items : list (nat * (str * str))) :
  keeps trace_grows
    (for_each (fun '(i, (chunk_text, pinecone_id)) =>
                 create_document_chunk E document_id i chunk_text pinecone_id)
              items).
Proof.
  apply keeps_for_each; try grows_side.
  intros [i [c p]]. apply keeps_create_document_chunk; grows_side.
Qed.

(** Whatever comes of it, a call of [extract_text_from_url] is logged
    first. *)
Lemma extract_text_from_url_starts (self : PDFService) (pdf_url : str)
    (s : world) :
  exists evs,
    trace (snd (extract_text_from_url E self pdf_url s))
    = trace s ++ EvExtractTextFromUrl pdf_url :: evs.
Proof.
  unfold extract_text_from_url. rewrite bind_log. cbv beta.
  match goal with
  | |- exists evs, trace (snd (?k ?s0)) = _ =>
      assert (Hk : trace_grows s0 (snd (k s0)))
  end.
  { destruct (negb _); [apply trace_grows_refl|]. cbv zeta.
    eapply trace_grows_trans.
    - apply (keeps_download E trace_grows); grows_side.
    - apply bind_trace_grows.
      intros [response|]; [|apply keeps_raise; grows_side].
      apply keeps_bind; try grows_side; [apply keeps_log; grows_side|].
      intros _. destruct (PdfReader E (content response)) as [msg|pages];
        [apply keeps_raise; grows_side|].
      destruct (length pages =? 0); [apply keeps_raise; grows_side|].
      destruct (negb _); [apply keeps_raise|apply keeps_ret]; grows_side. }
  destruct Hk as [evs Hevs]. exists evs. rewrite Hevs. simpl trace.
  rewrite <- app_assoc. reflexivity.
Qed.

End TraceGrows.

(** With an index and an encoder that answers, [store_chunks] gets as far
    as the upsert, whether or not the upsert then raises. *)
Lemma store_chunks_reaches_upsert (E : env) (self : PineconeService)
    (chunks : list str) (document_id : str) (s : world) :
  index self = true -> raises E (tick s) = false ->
  exists ids s',
    store_chunks E self chunks document_id s = (Ok ids, s') /\
    trace s'
    = trace s ++ [EvStoreChunks document_id chunks; EvEncodeChunks chunks;
                  EvUpsert (vectors_from E document_id (S (tick s))
                              (enumerate (combine chunks (map (embed E) chunks))))].
Proof.
  intros Hidx Hr.
  destruct (run_store_chunks E self chunks document_id s) as (ids & s' & Hrun & Hst).
  exists ids, s'. split; [exact Hrun|].
  destruct Hst as [Hno|_ Hraised|vectors _ _ _ Hv|vectors _ _ _ Hv];
    try congruence; subst vectors; reflexivity.
Qed.

(** The events of an ingestion from the download to the upsert, for a
    document answered at the first request: [n] is the call count at the
    call of [store_chunks]. *)
Definition events_ingestion (E : env) (document_id pdf_url : str)
    (chunks : list str) (n : nat) : list event :=
  [EvExtractTextFromUrl pdf_url; EvSessionGet pdf_url 0; EvHttpRequest pdf_url;
   EvPdfReader; EvChunkText;
   EvStoreChunks document_id chunks; EvEncodeChunks chunks;
   EvUpsert (vectors_from E document_id (S n)
               (enumerate (combine chunks (map (embed E) chunks))))].

(** C9. [has_chunks] never raises: it returns a boolean in every world,
    and [False] when the read of the chunk table raises.  So when that read
    raises after the document was resolved, [process_document_queries]
    does not surface the error: it goes on with the pipeline for a new
    document and then the questions, from the world left by the failed
    read.  The first thing it does next is the call of
    [extract_text_from_url] for the URL; and when the source answers the
    first request with a readable PDF, the index is there and the encoder
    answers, the events that follow the failed read are the download, the
    parse, the chunking, the embedding of the chunks and the upsert of
    their vectors under the id of the resolved document. *)
Theorem has_chunks_failure_reingests (E : env) (self : QueryController)
    (pdf_url : str) (questions : list str) (s s1 : world)
    (document : Document.t) :
  get_or_create_document E pdf_url s = (Ok document, s1) ->
  raises E (tick s1) = true ->
  (forall document_id s0,
      exists processed,
        has_chunks E document_id s0 = (Ok processed, advance 1 [] s0) /\
        (raises E (tick s0) = true -> processed = false)) /\
  has_chunks E (Document.id document) s1 = (Ok false, advance 1 [] s1) /\
  process_document_queries E self pdf_url questions s
  = (process_new_document E self document pdf_url ;;
     for_each (process_question E self document) questions) (advance 1 [] s1) /\
  (exists evs,
      trace (snd (process_document_queries E self pdf_url questions s))
      = trace s1 ++ EvExtractTextFromUrl pdf_url :: evs) /\
  (forall r pages t c,
      valid_scheme pdf_url = true ->
      wire E pdf_url (S (tick s1)) = WireResponse r ->
      is_error_status (status_code r) = false ->
      in_forcelist (status_code r) = false ->
      PdfReader E (content r) = PdfPages pages ->
      In (Some t) pages -> In c t -> is_space c = false ->
      index (pinecone_service self) = true ->
      raises E (S (S (tick s1))) = false ->
      exists evs,
        trace (snd (process_document_queries E self pdf_url questions s))
        = trace s1
          ++ events_ingestion E (Document.id document) pdf_url
               (chunk_text (pdf_service self)
                  (_clean_text (isalnum E) (pages_text pages)))
               (S (S (tick s1)))
          ++ evs).
Proof.
  intros Hdoc Hr.
  assert (Hhas : has_chunks E (Document.id document) s1
                 = (Ok false, advance 1 [] s1))
    by (rewrite run_has_chunks, Hr; reflexivity).
  assert (Hrun : process_document_queries E self pdf_url questions s
                 = (process_new_document E self document pdf_url ;;
                    for_each (process_question E self document) questions)
                     (advance 1 [] s1)).
  { unfold process_document_queries.
    rewrite (bind_ok _ _ _ _ _ Hdoc). rewrite (bind_ok _ _ _ _ _ Hhas).
    reflexivity. }
  split; [|split; [exact Hhas|split; [exact Hrun|split]]].
  - intros document_id s0. eexists. split; [apply run_has_chunks|].
    intros ->. reflexivity.
  - (* the fetch starts *)
    rewrite Hrun. unfold process_new_document. rewrite !bind_bind.
    destruct (extract_text_from_url_starts E (pdf_service self) pdf_url
                (advance 1 [] s1)) as [evs Hevs].
    match goal with
    | |- exists _, trace (snd (bind ?m ?k ?s0)) = _ =>
        destruct (bind_trace_grows m k s0) as [evs' Hevs']
    end.
    { intros text.
      apply keeps_bind; try grows_side.
      - apply keeps_bind; try grows_side.
        + apply keeps_chunk_text_call; grows_side.
        + intros chunks. apply _store_document_chunks_trace_grows.
      - intros _. apply questions_trace_grows. }
    exists (evs ++ evs'). rewrite Hevs', Hevs. simpl trace.
    rewrite <- !app_assoc. reflexivity.
  - (* the pipeline up to the upsert *)
    intros r pages t c Hscheme Hw Hst Hf Hpdf Hpage Hc Hns Hidx Henc.
    set (text := _clean_text (isalnum E) (pages_text pages)).
    set (chunks := chunk_text (pdf_service self) text).
    pose proof (run_extract_text_readable E (pdf_service self) pdf_url
                  (advance 1 [] s1) r pages t c Hscheme Hw Hst Hf Hpdf Hpage Hc Hns)
      as Hextract.
    fold text in Hextract.
    set (s4 := advance 0 [EvChunkText]
                 (advance 1 (events_downloaded pdf_url) (advance 1 [] s1))).
    destruct (store_chunks_reaches_upsert E (pinecone_service self) chunks
                (Document.id document) s4 Hidx Henc)
      as (ids & s5 & Hstore & Htrace).
    rewrite Hrun. unfold process_new_document.
    rewrite !bind_bind. rewrite (bind_ok _ _ _ _ _ Hextract).
    unfold chunk_text_call. rewrite !bind_bind. rewrite bind_log. cbv beta.
    rewrite bind_ret. fold chunks. fold s4.
    unfold _store_document_chunks. rewrite !bind_bind.
    rewrite (bind_ok _ _ _ _ _ Hstore).
    match goal with
    | |- exists evs, trace (snd (?k ?s0)) = _ =>
        assert (Hk : trace_grows s0 (snd (k s0)))
    end.
    { apply (keeps_bind trace_grows); try grows_side.
      - apply keeps_bind; try grows_side.
        apply create_document_chunks_trace_grows.
      - intros _. apply questions_trace_grows. }
    destruct Hk as [evs Hevs]. exists evs. rewrite Hevs, Htrace.
    unfold s4, events_ingestion, events_downloaded. simpl trace. simpl tick.
    rewrite <- !app_assoc. reflexivity.
Qed.

(** The row of document A. *)
Definition document_a : Document.t :=
  hd {| Document.id := []; Document.url := []; Document.uploaded_at := [] |}
     (documents world_a).

(** The second request for the ingested document A, whose chunk lookup
    raises: the lookup answers [False] and the document is downloaded,
    parsed, chunked, embedded and upserted again; the request completes
    with its answer. *)
Lemma has_chunks_failure_reingests_witness :
  has_chunks lookup_fails_env (Document.id document_a) (advance 1 [] world_a)
  = (Ok false, advance 1 [] (advance 1 [] world_a)) /\
  (exists evs,
      trace (snd (process_document_queries lookup_fails_env demo_controller url_a
                    [py "What is covered?"] world_a))
      = trace (advance 1 [] world_a)
        ++ events_ingestion lookup_fails_env (Document.id document_a) url_a
             (chunk_text (pdf_service demo_controller)
                (_clean_text (isalnum lookup_fails_env)
                   (pages_text [Some (py "Hello world. Bye now.")])))
             (S (S (tick (advance 1 [] world_a))))
        ++ evs) /\
  Document.id document_a = py "00000001-0000-4000-8000-000000000000" /\
  chunk_text (pdf_service demo_controller)
    (_clean_text (isalnum lookup_fails_env)
       (pages_text [Some (py "Hello world. Bye now.")]))
  = [py "Hello world Bye now"] /\
  fst (process_document_queries lookup_fails_env demo_controller url_a
         [py "What is covered?"] world_a)
  = Ok [py "From the clauses."].
Proof.
  destruct (has_chunks_failure_reingests lookup_fails_env demo_controller url_a
              [py "What is covered?"] world_a (advance 1 [] world_a) document_a)
    as (_ & Hhas & _ & _ & Hpipeline).
  - vm_compute. reflexivity.
  - vm_compute. reflexivity.
  - split; [exact Hhas|].
    split; [|split; [vm_compute; reflexivity|split; vm_compute; reflexivity]].
    apply (Hpipeline {| status_code := 200; content := [] |}
             [Some (py "Hello world. Bye now.")] (py "Hello world. Bye now.")
             72%N).
    + vm_compute. reflexivity.
    + vm_compute. reflexivity.
    + vm_compute. reflexivity.
    + vm_compute. reflexivity.
    + vm_compute. reflexivity.
    + left. reflexivity.
    + left. reflexivity.
    + vm_compute. reflexivity.
    + vm_compute. reflexivity.
    + vm_compute. reflexivity.
Defined.

(* ===================================================================== *)
(** ** The stores under the coordinator *)
(* ===================================================================== *)

(** Takes a frame goal apart; [side] gives the facts of the relation. *)
Ltac frame side :=
  repeat first
    [ side
    | match goal with
      | |- forall _, _ => intro
      | |- keeps _ (match ?x with _ => _ end) => destruct x
      end
    | apply keeps_bind | apply keeps_try_except | apply keeps_for_each
    | apply keeps_ret | apply keeps_raise | apply keeps_external
    | apply keeps_fallible | apply keeps_uuid4 | apply keeps_get_ist_timestamp
    | apply keeps_get_world | apply keeps_log | apply keeps_modify ].

(** *** Rows are only appended *)

Definition extends {A} (l l' : list A) : Prop := exists rows, l' = l ++ rows.

Lemma extends_refl {A} (l : list A) : extends l l.
Proof. exists []. rewrite app_nil_r. reflexivity. Qed.

Lemma extends_trans {A} (l1 l2 l3 : list A) :
  extends l1 l2 -> extends l2 l3 -> extends l1 l3.
Proof.
  intros [r H] [r' H']. exists (r ++ r'). rewrite H', H, app_assoc. reflexivity.
Qed.

Lemma extends_app {A} (l rows : list A) : extends l (l ++ rows).
Proof. exists rows. reflexivity. Qed.

(** From [s] to [s'] every table of the database kept its rows, in
    order, and got no row anywhere but at its end. *)
Definition tables_grow (s s' : world) : Prop :=
  extends (documents s) (documents s') /\
  extends (document_chunks s) (document_chunks s') /\
  extends (user_queries s) (user_queries s') /\
  extends (answers s) (answers s') /\
  extends (answer_clauses s) (answer_clauses s').

Lemma tables_grow_refl (s : world) : tables_grow s s.
Proof. repeat split; apply extends_refl. Qed.

Lemma tables_grow_trans (s1 s2 s3 : world) :
  tables_grow s1 s2 -> tables_grow s2 s3 -> tables_grow s1 s3.
Proof.
  intros (H1 & H2 & H3 & H4 & H5) (K1 & K2 & K3 & K4 & K5).
  repeat split; eapply extends_trans; eassumption.
Qed.

Lemma tables_grow_advance (n : nat) (evs : list event) (s : world) :
  tables_grow s (advance n evs s).
Proof. repeat split; apply extends_refl. Qed.

Lemma tables_grow_add_document r s : tables_grow s (add_document r s).
Proof. repeat split; try apply extends_refl. apply extends_app. Qed.

Lemma tables_grow_add_document_chunk r s : tables_grow s (add_document_chunk r s).
Proof. repeat split; try apply extends_refl. apply extends_app. Qed.

Lemma tables_grow_add_user_query r s : tables_grow s (add_user_query r s).
Proof. repeat split; try apply extends_refl. apply extends_app. Qed.

Lemma tables_grow_add_answer r s : tables_grow s (add_answer r s).
Proof. repeat split; try apply extends_refl. apply extends_app. Qed.

Lemma tables_grow_add_answer_clauses rs s :
  tables_grow s (add_answer_clauses rs s).
Proof. repeat split; try apply extends_refl. apply extends_app. Qed.

Lemma tables_grow_set_index_vectors vs s :
  tables_grow s (set_index_vectors vs s).
Proof. repeat split; apply extends_refl. Qed.

Ltac grow_side :=
  first [ exact tables_grow_refl | exact tables_grow_trans
        | exact tables_grow_advance | exact tables_grow_add_document
        | exact tables_grow_add_document_chunk
        | exact tables_grow_add_user_query | exact tables_grow_add_answer
        | exact tables_grow_add_answer_clauses
        | exact tables_grow_set_index_vectors ].

(** X17. The coordinator only ever appends to the database.  Whatever
    the URL, the questions, the collaborators and the outcome of
    [process_document_queries], a failure half way included, every row
    that was in the documents, the chunks, the queries, the answers and the
    clauses before the call is still there afterwards, unchanged and in
    place, and new rows come after them. *)
Theorem process_document_queries_append_only (E : env) (self : QueryController)
    (pdf_url : str) (questions : list str) (s : world) :
  tables_grow s (snd (process_document_queries E self pdf_url questions s)).
Proof.
  revert s.
  change (keeps tables_grow (process_document_queries E self pdf_url questions)).
  apply keeps_process_document_queries; grow_side.
Qed.

(** *** One document row for a URL *)

Definition same_documents (s s' : world) : Prop := documents s' = documents s.

Lemma same_documents_refl (s : world) : same_documents s s.
Proof. reflexivity. Qed.

Lemma same_documents_trans (s1 s2 s3 : world) :
  same_documents s1 s2 -> same_documents s2 s3 -> same_documents s1 s3.
Proof. unfold same_documents. congruence. Qed.

Lemma same_documents_advance (n : nat) (evs : list event) (s : world) :
  same_documents s (advance n evs s).
Proof. reflexivity. Qed.

Ltac same_documents_side :=
  first [ exact same_documents_refl | exact same_documents_trans
        | exact same_documents_advance
        | solve [intros; reflexivity] ].

(** No two document rows have the same URL. *)
Definition unique_urls (s : world) : Prop :=
  NoDup (map Document.url (documents s)).

Lemma NoDup_snoc {A} (l : list A) (a : A) :
  NoDup l -> ~ In a l -> NoDup (l ++ [a]).
Proof.
  induction l as [|x l IH]; intros Hnd Hin; simpl.
  - constructor; [intros []|constructor].
  - inversion Hnd; subst. constructor.
    + intros H. apply in_app_or in H. destruct H as [H|[H|[]]]; [auto|].
      subst. apply Hin. left. reflexivity.
    + apply IH; [assumption|]. intros H. apply Hin. right. exact H.
Qed.

Lemma filter_url_nil (url : str) (l : list Document.t) :
  filter (fun d => eqb_str (Document.url d) url) l = [] ->
  ~ In url (map Document.url l).
Proof.
  induction l as [|d l IH]; simpl; intros Hf Hin; [exact Hin|].
  destruct (eqb_str (Document.url d) url) eqn:Heq; [discriminate|].
  destruct Hin as [H|H]; [|exact (IH Hf H)].
  rewrite H, eqb_str_refl in Heq. discriminate.
Qed.

(** What [get_or_create_document] does to the documents, however it
    ends, and what it returns. *)
Lemma run_get_or_create_document (E : env) (url : str) (s : world) :
  let found := filter (fun d => eqb_str (Document.url d) url) (documents s) in
  let new_document :=
    {| Document.id := uuid4_at E (S (tick s)); Document.url := url;
       Document.uploaded_at := timestamp_at E (S (S (tick s))) |} in
  get_or_create_document E url s
  = if raises E (tick s) then (Raise APIError, advance 1 [] s)
    else match found with
         | document :: _ => (Ok document, advance 1 [] s)
         | [] =>
             if raises E (S (S (S (tick s))))
             then (Raise APIError, advance 4 [] s)
             else (Ok new_document, add_document new_document (advance 4 [] s))
         end.
Proof.
  cbv zeta. unfold get_or_create_document, select_documents_by_url, execute.
  rewrite !bind_bind; cbv beta.
  destruct (raises E (tick s)) eqn:Hr.
  - rewrite bind_fallible_raise by exact Hr. reflexivity.
  - rewrite bind_fallible_ok by exact Hr; cbv beta.
    rewrite bind_bind; cbv beta. rewrite bind_get_world; cbv beta.
    rewrite bind_ret; cbv beta. rewrite documents_advance.
    destruct (filter _ (documents s)) as [|document rest]; [|reflexivity].
    rewrite bind_uuid4; cbv beta. rewrite bind_get_ist_timestamp; cbv beta.
    unfold insert_document, execute. rewrite !bind_bind; cbv beta.
    simpl tick.
    destruct (raises E (S (S (S (tick s))))) eqn:Hi.
    + rewrite bind_fallible_raise by exact Hi. f_equal. world_eq.
    + rewrite bind_fallible_ok by exact Hi; cbv beta.
      rewrite bind_bind; cbv beta. rewrite bind_modify; cbv beta.
      rewrite bind_ret; cbv beta. unfold ret. f_equal. simpl. world_eq.
Qed.

Lemma get_or_create_document_unique_urls (E : env) (url : str) (s : world) :
  unique_urls s -> unique_urls (snd (get_or_create_document E url s)).
Proof.
  intros Hu. rewrite run_get_or_create_document. cbv zeta.
  destruct (raises E (tick s)); [exact Hu|].
  destruct (filter _ (documents s)) as [|document rest] eqn:Hf; [|exact Hu].
  destruct (raises E (S (S (S (tick s))))); [exact Hu|].
  unfold unique_urls. simpl. rewrite map_app. simpl.
  apply NoDup_snoc; [exact Hu|]. apply filter_url_nil. exact Hf.
Qed.

(** X18. The documents table keeps one row for a URL: if no two rows
    have the same URL before a call of [process_document_queries], none
    have afterwards, however the call ends; only the lookup of step 1 writes
    to the table, and only when it found no row for the URL. *)
Theorem process_document_queries_unique_urls (E : env) (self : QueryController)
    (pdf_url : str) (questions : list str) (s : world) :
  unique_urls s ->
  unique_urls (snd (process_document_queries E self pdf_url questions s)).
Proof.
  intros Hu. unfold process_document_queries.
  pose proof (get_or_create_document_unique_urls E pdf_url s Hu) as H1.
  unfold bind at 1.
  destruct (get_or_create_document E pdf_url s) as [[document|e] s1];
    simpl in H1; [|exact H1].
  assert (Hk : same_documents s1
                 (snd (process_resolved E self document pdf_url questions s1))).
  { revert s1 H1. intros s1 _. revert s1.
    change (keeps same_documents
              (process_resolved E self document pdf_url questions)).
    apply keeps_process_resolved; same_documents_side. }
  unfold process_resolved in Hk. unfold unique_urls. rewrite Hk. exact H1.
Qed.

Lemma process_document_queries_unique_urls_witness :
  unique_urls (snd (process_document_queries policy_env demo_controller url_b
                      [py "q"] world_a)).
Proof.
  apply (process_document_queries_unique_urls policy_env demo_controller url_b
           [py "q"] world_a).
  unfold unique_urls. vm_compute.
  constructor; [intros []|constructor].
Defined.

(** *** A URL that cannot be fetched *)

(** The row [get_or_create_document] returns is in the table and is a row
    of the URL. *)
Lemma get_or_create_document_row (E : env) (url : str) (s s1 : world)
    (document : Document.t) :
  get_or_create_document E url s = (Ok document, s1) ->
  In document (documents s1) /\ Document.url document = url.
Proof.
  rewrite run_get_or_create_document. cbv zeta.
  destruct (raises E (tick s)); [discriminate|].
  destruct (filter _ (documents s)) as [|d rest] eqn:Hf.
  - destruct (raises E (S (S (S (tick s))))); [discriminate|].
    intros H. inversion H; subst. simpl. split; [|reflexivity].
    apply in_or_app. right. left. reflexivity.
  - intros H. inversion H; subst.
    assert (Hin : In document (filter (fun d => eqb_str (Document.url d) url)
                                       (documents s)))
      by (rewrite Hf; left; reflexivity).
    apply filter_In in Hin. destruct Hin as [Hin Heq].
    split; [exact Hin|]. apply eqb_str_eq. exact Heq.
Qed.

(** X19. The URL is checked only after the document was resolved.  For a
    URL that starts with neither "http://" nor "https://" and whose
    document has no chunk row, a request first finds or creates the
    document row of that URL and then fails with [ValueError] at the call
    of [extract_text_from_url]: the row stays in the table, nothing is
    downloaded and no question is recorded or answered. *)
Theorem invalid_url_keeps_document_row (E : env) (self : QueryController)
    (pdf_url : str) (questions : list str) (s s1 : world)
    (document : Document.t) :
  valid_scheme pdf_url = false ->
  get_or_create_document E pdf_url s = (Ok document, s1) ->
  filter (of_document (Document.id document)) (document_chunks s1) = [] ->
  process_document_queries E self pdf_url questions s
  = (Raise (ValueError (py "Invalid URL format: " ++ pdf_url)),
     advance 1 [EvExtractTextFromUrl pdf_url] s1) /\
  In document (documents s1) /\
  Document.url document = pdf_url.
Proof.
  intros Hscheme Hdoc Hnone.
  split; [|apply (get_or_create_document_row E pdf_url s s1 document Hdoc)].
  unfold process_document_queries.
  rewrite (bind_ok _ _ _ _ _ Hdoc).
  assert (Hhas : has_chunks E (Document.id document) s1
                 = (Ok false, advance 1 [] s1)).
  { rewrite run_has_chunks, Hnone. destruct (raises E (tick s1)); reflexivity. }
  rewrite (bind_ok _ _ _ _ _ Hhas). simpl negb. cbv iota.
  apply bind_raise. unfold process_new_document. apply bind_raise.
  unfold extract_text_from_url. rewrite bind_log. cbv beta.
  unfold valid_scheme in Hscheme. rewrite Hscheme.
  cbv beta iota delta [negb raise]. f_equal. world_eq.
Qed.

Lemma invalid_url_keeps_document_row_witness :
  fst (process_document_queries policy_env demo_controller url_ftp
         [py "What is covered?"] empty_world)
  = Raise (ValueError (py "Invalid URL format: ftp://example.com/a.pdf")) /\
  map Document.url
      (documents (snd (process_document_queries policy_env demo_controller
                         url_ftp [py "What is covered?"] empty_world)))
  = [url_ftp] /\
  user_queries (snd (process_document_queries policy_env demo_controller
                       url_ftp [py "What is covered?"] empty_world)) = [].
Proof.
  destruct (invalid_url_keeps_document_row policy_env demo_controller url_ftp
              [py "What is covered?"] empty_world
              (snd (get_or_create_document policy_env url_ftp empty_world))
              {| Document.id := uuid4_at policy_env 1; Document.url := url_ftp;
                 Document.uploaded_at := timestamp_at policy_env 2 |})
    as (Hrun & _ & _).
  - reflexivity.
  - vm_compute. reflexivity.
  - reflexivity.
  - rewrite Hrun. split; [reflexivity|]. split; vm_compute; reflexivity.
Defined.

(** *** The record of a completed request *)

(** The queries and the answers are left alone. *)
Definition same_record (s s' : world) : Prop :=
  user_queries s' = user_queries s /\ answers s' = answers s.

Lemma same_record_refl (s : world) : same_record s s.
Proof. split; reflexivity. Qed.

Lemma same_record_trans (s1 s2 s3 : world) :
  same_record s1 s2 -> same_record s2 s3 -> same_record s1 s3.
Proof. unfold same_record. intros [] []. split; congruence. Qed.

Lemma same_record_advance (n : nat) (evs : list event) (s : world) :
  same_record s (advance n evs s).
Proof. split; reflexivity. Qed.

Ltac same_record_side :=
  first [ exact same_record_refl | exact same_record_trans
        | exact same_record_advance
        | solve [intros; split; reflexivity] ].

Section Record.

Variable E : env.

(** The row [create_user_query] builds in the world [s]. *)
Definition query_row (document_id query_text : str) (s : world) : UserQuery.t :=
  {| UserQuery.id := uuid4_at E (tick s);
     UserQuery.document_id := document_id;
     UserQuery.query_text := query_text;
     UserQuery.created_at := timestamp_at E (S (tick s)) |}.

Lemma run_create_user_query (document_id query_text : str) (s : world) :
  create_user_query E document_id query_text s
  = if raises E (S (S (tick s))) then (Raise APIError, advance 3 [] s)
    else (Ok (query_row document_id query_text s),
          add_user_query (query_row document_id query_text s) (advance 3 [] s)).
Proof.
  unfold create_user_query.
  rewrite bind_uuid4; cbv beta. rewrite bind_get_ist_timestamp; cbv beta.
  unfold insert_user_query, execute. rewrite !bind_bind; cbv beta.
  simpl tick.
  destruct (raises E (S (S (tick s)))) eqn:Hr.
  - rewrite bind_fallible_raise by exact Hr. f_equal. world_eq.
  - rewrite bind_fallible_ok by exact Hr; cbv beta.
    rewrite bind_bind; cbv beta. rewrite bind_modify; cbv beta.
    rewrite bind_ret; cbv beta. unfold ret. f_equal.
    unfold query_row. simpl. world_eq.
Qed.

(** [generate_answer] always returns, and writes nothing. *)
Lemma run_generate_answer (question : str) (relevant_chunks : list Match.t)
    (s : world) :
  exists answer_text s',
    generate_answer E question relevant_chunks s = (Ok answer_text, s') /\
    same_record s s'.
Proof.
  assert (Hk : same_record s (snd (generate_answer E question relevant_chunks s))).
  { revert s.
    change (keeps same_record (generate_answer E question relevant_chunks)).
    apply keeps_generate_answer; same_record_side. }
  destruct (generate_answer E question relevant_chunks s) as [[a|e] s'] eqn:H.
  - exists a, s'. split; [reflexivity|exact Hk].
  - exfalso. unfold generate_answer, try_except in H.
    destruct (bind _ _ s) as [[a|e'] s1]; discriminate.
Qed.

(** A completed [create_answer_with_clauses] appended one answer, the
    one it returns. *)
Lemma create_answer_with_clauses_record (query_id answer_text : str)
    (relevant_chunks : list Match.t) (decision : option str)
    (amount : option Q) (s s' : world) (answer : Answer.t) :
  create_answer_with_clauses E query_id answer_text relevant_chunks
                             decision amount s = (Ok answer, s') ->
  answers s' = answers s ++ [answer] /\
  Answer.answer_text answer = answer_text /\
  Answer.query_id answer = query_id /\
  user_queries s' = user_queries s.
Proof.
  unfold create_answer_with_clauses.
  rewrite bind_uuid4; cbv beta. rewrite bind_get_ist_timestamp; cbv beta.
  unfold insert_answer, execute. rewrite !bind_bind; cbv beta.
  destruct (raises E (tick (advance 1 [] (advance 1 [] s)))) eqn:Hr.
  - rewrite bind_fallible_raise by exact Hr. discriminate.
  - rewrite bind_fallible_ok by exact Hr; cbv beta.
    rewrite bind_bind; cbv beta. rewrite bind_modify; cbv beta.
    rewrite bind_ret; cbv beta.
    match goal with
    | |- bind (for_each ?f ?l) ?k ?s2 = _ -> _ =>
        assert (Hloop : same_record s2 (snd (for_each f l s2)));
        [|set (s2' := s2) in *; unfold bind at 1;
          destruct (for_each f l s2') as [[clauses|e] s3]; [|discriminate]]
    end.
    { match goal with
      | |- same_record ?s2 (snd (?m ?s2)) =>
          generalize s2; change (keeps same_record m)
      end.
      unfold make_clause, select_chunks_by_pinecone_id, execute.
      frame same_record_side. }
    simpl snd in Hloop.
    match goal with
    | |- bind ?m ?k s3 = _ -> _ =>
        assert (Hins : same_record s3 (snd (m s3)));
        [|unfold bind at 1; destruct (m s3) as [[u|e] s4]; [|discriminate]]
    end.
    { destruct (nonempty (concat clauses)); [|apply same_record_refl].
      match goal with
      | |- same_record ?s2 (snd (?m ?s2)) =>
          generalize s2; change (keeps same_record m)
      end.
      unfold insert_answer_clauses, execute. frame same_record_side. }
    simpl snd in Hins.
    intros H. inversion H; subst. clear H.
    destruct Hloop as [Hq1 Ha1]. destruct Hins as [Hq2 Ha2].
    subst s2'. simpl in Hq1, Ha1.
    repeat split.
    + rewrite Ha2, Ha1. reflexivity.
    + rewrite Hq2, Hq1. reflexivity.
Qed.

(** A completed [process_question] recorded the question and its
    answer. *)
Lemma process_question_record (self : QueryController) (document : Document.t)
    (question : str) (s s' : world) (answer_text : str) :
  process_question E self document question s = (Ok answer_text, s') ->
  exists query answer,
    user_queries s' = user_queries s ++ [query] /\
    answers s' = answers s ++ [answer] /\
    UserQuery.query_text query = question /\
    UserQuery.document_id query = Document.id document /\
    Answer.answer_text answer = answer_text /\
    Answer.query_id answer = UserQuery.id query.
Proof.
  unfold process_question. unfold bind at 1. rewrite run_create_user_query.
  destruct (raises E (S (S (tick s)))); [discriminate|].
  set (query := query_row (Document.id document) question s).
  set (s1 := add_user_query query (advance 3 [] s)).
  destruct (run_search_similar_chunks E (pinecone_service self) question 5 s1)
    as (matches & s2 & Hsearch & _ & _ & _ & _ & Hq2 & Ha2 & _).
  unfold bind at 1. rewrite Hsearch.
  destruct (run_generate_answer question matches s2)
    as (text & s3 & Hgen & Hq3 & Ha3).
  unfold bind at 1. rewrite Hgen.
  unfold bind at 1.
  destruct (create_answer_with_clauses E (UserQuery.id query) text matches
              None None s3) as [[answer|e] s4] eqn:Hans; [|discriminate].
  intros H. inversion H; subst. clear H.
  destruct (create_answer_with_clauses_record _ _ _ _ _ _ _ _ Hans)
    as (Ha4 & Htext & Hqid & Hq4).
  exists query, answer. repeat split; auto.
  - rewrite Hq4, Hq3, Hq2. reflexivity.
  - rewrite Ha4, Ha3, Ha2. reflexivity.
Qed.

Lemma questions_record (self : QueryController) (document : Document.t)
    (questions : list str) (s s' : world) (answer_texts : list str) :
  for_each (process_question E self document) questions s
  = (Ok answer_texts, s') ->
  exists queries rows,
    user_queries s' = user_queries s ++ queries /\
    answers s' = answers s ++ rows /\
    map UserQuery.query_text queries = questions /\
    Forall (fun q => UserQuery.document_id q = Document.id document) queries /\
    map Answer.answer_text rows = answer_texts /\
    map Answer.query_id rows = map UserQuery.id queries.
Proof.
  revert s answer_texts.
  induction questions as [|question questions IH]; intros s answer_texts H.
  - simpl in H. inversion H; subst. exists [], [].
    rewrite !app_nil_r. repeat split; auto.
  - simpl in H. unfold bind at 1 in H.
    destruct (process_question E self document question s)
      as [[text|e] s1] eqn:Hq; [|discriminate].
    unfold bind at 1 in H.
    destruct (for_each _ questions s1) as [[texts|e] s2] eqn:Hrest;
      [|discriminate].
    inversion H; subst. clear H.
    destruct (process_question_record _ _ _ _ _ _ Hq)
      as (query & answer & Hu & Ha & Hqt & Hqd & Hat & Haq).
    destruct (IH _ _ Hrest) as (queries & rows & Hu' & Ha' & Hqt' & Hqd' & Hat' & Haq').
    exists (query :: queries), (answer :: rows).
    repeat split.
    + rewrite Hu', Hu, <- app_assoc. reflexivity.
    + rewrite Ha', Ha, <- app_assoc. reflexivity.
    + simpl. rewrite Hqt, Hqt'. reflexivity.
    + constructor; assumption.
    + simpl. rewrite Hat, Hat'. reflexivity.
    + simpl. rewrite Haq, Haq'. reflexivity.
Qed.

End Record.

(** X20. A completed request leaves a full record.  When
    [process_document_queries] returns, it returns one answer for each
    question, in order, and it has appended to the queries one row for each
    question, in order, under the id of the document of the URL, and to the
    answers one row for each answer returned, in order, each under the id
    of the row of its question. *)
Theorem completed_request_record (E : env) (self : QueryController)
    (pdf_url : str) (questions : list str) (s s' : world)
    (answer_texts : list str) :
  process_document_queries E self pdf_url questions s = (Ok answer_texts, s') ->
  exists document queries rows,
    In document (documents s') /\
    Document.url document = pdf_url /\
    user_queries s' = user_queries s ++ queries /\
    answers s' = answers s ++ rows /\
    map UserQuery.query_text queries = questions /\
    Forall (fun q => UserQuery.document_id q = Document.id document) queries /\
    map Answer.answer_text rows = answer_texts /\
    map Answer.query_id rows = map UserQuery.id queries /\
    length answer_texts = length questions.
Proof.
  unfold process_document_queries. unfold bind at 1.
  destruct (get_or_create_document E pdf_url s) as [[document|e] s1] eqn:Hdoc;
    [|discriminate].
  destruct (get_or_create_document_row E pdf_url s s1 document Hdoc)
    as [Hin Hurl].
  assert (H1 : same_record s s1 /\ True).
  { split; [|exact I].
    pose proof (keeps_get_or_create_document E same_record) as Hk.
    specialize (Hk same_record_refl same_record_trans same_record_advance).
    assert (Hd : forall r s0, same_record s0 (add_document r s0))
      by (intros; split; reflexivity).
    specialize (Hk Hd pdf_url s). rewrite Hdoc in Hk. exact Hk. }
  destruct H1 as [[Hq1 Ha1] _].
  unfold bind at 1. rewrite run_has_chunks.
  set (processed := if raises E (tick s1) then false else _).
  unfold bind at 1.
  assert (H2 : forall s0,
             same_record s0
               (snd ((if negb processed
                      then process_new_document E self document pdf_url
                      else ret tt) s0)) /\
             extends (documents s0)
               (documents (snd ((if negb processed
                                 then process_new_document E self document pdf_url
                                 else ret tt) s0)))).
  { intros s0. destruct (negb processed).
    - split.
      + revert s0.
        change (keeps same_record (process_new_document E self document pdf_url)).
        apply keeps_process_new_document; same_record_side.
      + assert (Hg : tables_grow s0
                       (snd (process_new_document E self document pdf_url s0))).
        { revert s0.
          change (keeps tables_grow
                    (process_new_document E self document pdf_url)).
          apply keeps_process_new_document; grow_side. }
        apply Hg.
    - split; [apply same_record_refl|apply extends_refl]. }
  destruct (H2 (advance 1 [] s1)) as [[Hq2 Ha2] Hd2].
  destruct ((if negb processed
             then process_new_document E self document pdf_url
             else ret tt) (advance 1 [] s1)) as [[u|e] s2]; [|discriminate].
  simpl snd in Hq2, Ha2, Hd2.
  intros Hloop.
  destruct (questions_record E self document questions s2 s' answer_texts Hloop)
    as (queries & rows & Hu & Ha & Hqt & Hqd & Hat & Haq).
  assert (Hd3 : extends (documents s2) (documents s')).
  { assert (Hg : tables_grow s2
                   (snd (for_each (process_question E self document)
                                  questions s2))).
    { revert s2 Hq2 Ha2 Hd2 Hloop Hu Ha. intros s2 _ _ _ _ _ _. revert s2.
      change (keeps tables_grow
                (for_each (process_question E self document) questions)).
      apply keeps_for_each; try grow_side.
      intros q. apply keeps_process_question; grow_side. }
    rewrite Hloop in Hg. apply Hg. }
  exists document, queries, rows.
  split.
  { destruct Hd3 as [r3 ->]. destruct Hd2 as [r2 ->]. simpl.
    apply in_or_app. left. apply in_or_app. left. exact Hin. }
  split; [exact Hurl|].
  split; [rewrite Hu, Hq2; simpl; rewrite Hq1; reflexivity|].
  split; [rewrite Ha, Ha2; simpl; rewrite Ha1; reflexivity|].
  split; [exact Hqt|]. split; [exact Hqd|]. split; [exact Hat|].
  split; [exact Haq|].
  rewrite <- Hat, <- Hqt, !length_map.
  apply (f_equal (@length _)) in Haq. rewrite !length_map in Haq. exact Haq.
Qed.

Lemma completed_request_record_witness :
  exists document queries rows,
    In document (documents world_b) /\
    Document.url document = url_b /\
    user_queries world_b = user_queries world_a ++ queries /\
    answers world_b = answers world_a ++ rows /\
    map UserQuery.query_text queries = [py "q"] /\
    Forall (fun q => UserQuery.document_id q = Document.id document) queries /\
    map Answer.answer_text rows = [py "From the clauses."] /\
    map Answer.query_id rows = map UserQuery.id queries /\
    length [py "From the clauses."] = length [py "q"].
Proof.
  apply (completed_request_record policy_env demo_controller url_b [py "q"]
           world_a world_b [py "From the clauses."]).
  vm_compute. reflexivity.
Defined.

(* ===================================================================== *)
(** ** An ingestion that fails half way *)
(* ===================================================================== *)

(** A loop of [create_document_chunk] that raises has persisted the rows
    before the one that failed. *)
Lemma raise_create_document_chunks (E : env) (document_id : str)
    (items : list (nat * (str * str))) (s s' : world) (e : exn) :
  for_each (fun '(i, (chunk_text, pinecone_id)) =>
              create_document_chunk E document_id i chunk_text pinecone_id)
           items s = (Raise e, s') ->
  exists rows,
    e = APIError /\
    length rows < length items /\
    document_chunks s' = document_chunks s ++ rows /\
    map chunk_fields rows = firstn (length rows) items /\
    Forall (fun r => DocumentChunk.document_id r = document_id) rows.
Proof.
  revert s. induction items as [|[i [c p]] items IH]; intros s H.
  - simpl in H. discriminate.
  - simpl in H. unfold bind at 1 in H.
    rewrite run_create_document_chunk in H.
    destruct (raises E (S (S (tick s)))).
    + inversion H; subst. exists []. simpl. rewrite app_nil_r.
      repeat split; auto. lia.
    + unfold bind at 1 in H.
      destruct (for_each _ items _) as [[rs|e'] s1] eqn:Hloop; [discriminate|].
      inversion H; subst. clear H.
      destruct (IH _ Hloop) as (rows & He & Hlen & Hdc & Hmap & Hall).
      exists (chunk_row E document_id i c p s :: rows).
      simpl in Hdc. simpl.
      repeat split; auto.
      * lia.
      * rewrite Hdc, <- app_assoc. reflexivity.
      * rewrite Hmap. reflexivity.
Qed.

Lemma firstn_seq_le (k a n : nat) : k <= n -> firstn k (seq a n) = seq a k.
Proof.
  revert a n. induction k as [|k IH]; intros a n Hle; [reflexivity|].
  destruct n as [|n]; [lia|]. simpl. f_equal. apply IH. lia.
Qed.

Lemma filter_of_document_own (document_id : str) (rows : list DocumentChunk.t) :
  Forall (fun r => DocumentChunk.document_id r = document_id) rows ->
  filter (of_document document_id) rows = rows.
Proof.
  intros Hall. induction Hall as [|r rows Hr _ IH]; simpl; [reflexivity|].
  unfold of_document at 1. rewrite Hr, eqb_str_refl, IH. reflexivity.
Qed.

(** X21. An ingestion that fails while it persists the chunks is not
    rolled back and is never completed.  When [_store_document_chunks]
    raises, it raises the database error of the insert that failed; the
    rows of the chunks before it, with the ordinals 0, 1, ..., k-1 and
    their texts, stay in the table; and if there is at least one, every
    later [has_chunks] for the document whose read does not raise answers
    [True], so that the coordinator takes the document for ingested. *)
Theorem failed_ingestion_keeps_prefix (E : env) (self : QueryController)
    (document_id : str) (chunks : list str) (s s' : world) (e : exn) :
  _store_document_chunks E self document_id chunks s = (Raise e, s') ->
  exists rows,
    e = APIError /\
    length rows < length chunks /\
    document_chunks s' = document_chunks s ++ rows /\
    map DocumentChunk.chunk_index rows = seq 0 (length rows) /\
    map DocumentChunk.chunk_text rows = firstn (length rows) chunks /\
    Forall (fun r => DocumentChunk.document_id r = document_id) rows /\
    (rows <> [] ->
     forall s2,
       extends (document_chunks s') (document_chunks s2) ->
       raises E (tick s2) = false ->
       has_chunks E document_id s2 = (Ok true, advance 1 [] s2)).
Proof.
  intros H. unfold _store_document_chunks in H.
  destruct (run_store_chunks E (pinecone_service self) chunks document_id s)
    as (ids & s1 & Hrun & Hst).
  rewrite (bind_ok _ _ _ _ _ Hrun) in H.
  unfold bind at 1 in H.
  destruct (for_each _ (enumerate (combine chunks ids)) s1)
    as [[rows|e'] s2] eqn:Hloop; [discriminate|].
  inversion H; subst. clear H.
  destruct (raise_create_document_chunks E _ _ _ _ _ Hloop)
    as (rows & He & Hlen & Hdc & Hmap & Hall).
  pose proof (stored_length E _ _ _ _ _ _ Hst) as Hids.
  destruct (stored_tables E _ _ _ _ _ _ Hst) as [Hdc1 _].
  destruct (enumerate_combine_fields chunks ids Hids) as (Hf1 & Hf2 & Hf3).
  assert (Hitems : length (enumerate (combine chunks ids)) = length chunks).
  { rewrite enumerate_length, length_combine. lia. }
  rewrite Hitems in Hlen.
  exists rows.
  split; [exact He|]. split; [exact Hlen|].
  split; [rewrite Hdc, Hdc1; reflexivity|].
  split.
  { replace (map DocumentChunk.chunk_index rows)
      with (map fst (map chunk_fields rows)) by (rewrite map_map; reflexivity).
    rewrite Hmap, <- firstn_map, Hf1. apply firstn_seq_le. lia. }
  split.
  { replace (map DocumentChunk.chunk_text rows)
      with (map (fun item : nat * (str * str) => fst (snd item))
                (map chunk_fields rows)) by (rewrite map_map; reflexivity).
    rewrite Hmap, <- firstn_map, Hf2. reflexivity. }
  split; [exact Hall|].
  intros Hne s3 [more Hmore] Hr.
  rewrite run_has_chunks, Hr, Hmore, Hdc, !filter_app.
  rewrite (filter_of_document_own document_id rows Hall).
  destruct rows as [|r rows']; [congruence|].
  rewrite !length_app. simpl length.
  replace (0 <? _) with true; [reflexivity|].
  symmetry. apply Nat.ltb_lt. lia.
Qed.

(** The insert of the second chunk row raises. *)
Definition second_insert_fails_env : env :=
  demo_env [] 200 (fun n => n =? 9).

Lemma failed_ingestion_keeps_prefix_witness :
  exists rows,
    APIError = APIError /\
    length rows < 2 /\
    document_chunks
      (snd (_store_document_chunks second_insert_fails_env demo_controller
              (py "doc") [py "one"; py "two"] empty_world))
    = document_chunks empty_world ++ rows /\
    map DocumentChunk.chunk_index rows = seq 0 (length rows) /\
    map DocumentChunk.chunk_text rows = firstn (length rows) [py "one"; py "two"] /\
    Forall (fun r => DocumentChunk.document_id r = py "doc") rows /\
    (rows <> [] ->
     forall s2,
       extends
         (document_chunks
            (snd (_store_document_chunks second_insert_fails_env demo_controller
                    (py "doc") [py "one"; py "two"] empty_world)))
         (document_chunks s2) ->
       raises second_insert_fails_env (tick s2) = false ->
       has_chunks second_insert_fails_env (py "doc") s2
       = (Ok true, advance 1 [] s2)).
Proof.
  apply (failed_ingestion_keeps_prefix second_insert_fails_env demo_controller
           (py "doc") [py "one"; py "two"] empty_world
           (snd (_store_document_chunks second_insert_fails_env demo_controller
                   (py "doc") [py "one"; py "two"] empty_world))
           APIError).
  vm_compute. reflexivity.
Defined.

(* ===================================================================== *)
(** ** Reading the chunks of a document back *)
(* ===================================================================== *)

(** [.order("chunk_index")]: the rows by ascending [chunk_index]; rows
    with the same ordinal are left in table order here, the database may
    return them in any order. *)
Fixpoint insert_by_chunk_index (r : DocumentChunk.t) (rows : list DocumentChunk.t)
  : list DocumentChunk.t :=
  match rows with
  | [] => [r]
  | r' :: rows' =>
      if DocumentChunk.chunk_index r <=? DocumentChunk.chunk_index r'
      then r :: rows
      else r' :: insert_by_chunk_index r rows'
  end.

Fixpoint order_by_chunk_index (rows : list DocumentChunk.t)
  : list DocumentChunk.t :=
  match rows with
  | [] => []
  | r :: rows' => insert_by_chunk_index r (order_by_chunk_index rows')
  end.

(** [DatabaseService.get_document_chunks] *)
Definition get_document_chunks (E : env) (document_id : str)
  : M (list DocumentChunk.t) :=
  try_except
    (execute E ;;
     s <- get_world ;;
     ret (order_by_chunk_index
            (filter (fun c => eqb_str (DocumentChunk.document_id c) document_id)
                    (document_chunks s))))
    (fun _ => ret []).

Lemma run_get_document_chunks (E : env) (document_id : str) (s : world) :
  get_document_chunks E document_id s
  = (Ok (if raises E (tick s) then []
         else order_by_chunk_index
                (filter (of_document document_id) (document_chunks s))),
     advance 1 [] s).
Proof.
  unfold get_document_chunks, execute.
  destruct (raises E (tick s)) eqn:Hr.
  - erewrite try_except_raise.
    2:{ apply bind_fallible_raise. exact Hr. }
    reflexivity.
  - erewrite try_except_ok.
    2:{ rewrite bind_fallible_ok by exact Hr; cbv beta.
        rewrite bind_get_world; cbv beta. reflexivity. }
    reflexivity.
Qed.

(** Rows that come with the ordinals [a], [a+1], ... are in order. *)
Lemma order_by_chunk_index_seq (rows : list DocumentChunk.t) (a : nat) :
  map DocumentChunk.chunk_index rows = seq a (length rows) ->
  order_by_chunk_index rows = rows.
Proof.
  revert a. induction rows as [|r rows IH]; intros a H; [reflexivity|].
  simpl in H. injection H as Hr Hrest. simpl.
  rewrite (IH (S a) Hrest).
  destruct rows as [|r' rows']; [reflexivity|].
  simpl in Hrest. injection Hrest as Hr' _. simpl.
  replace (DocumentChunk.chunk_index r <=? DocumentChunk.chunk_index r')
    with true; [reflexivity|].
  symmetry. apply Nat.leb_le. lia.
Qed.

(** A completed [_store_document_chunks] appended one row for each chunk,
    with its ordinal and its text, under the id of the document. *)
Lemma _store_document_chunks_rows (E : env) (self : QueryController)
    (document_id : str) (chunks : list str) (s s' : world) :
  _store_document_chunks E self document_id chunks s = (Ok tt, s') ->
  exists rows,
    document_chunks s' = document_chunks s ++ rows /\
    map DocumentChunk.chunk_index rows = seq 0 (length chunks) /\
    map DocumentChunk.chunk_text rows = chunks /\
    Forall (fun r => DocumentChunk.document_id r = document_id) rows.
Proof.
  intros H. unfold _store_document_chunks in H.
  destruct (run_store_chunks E (pinecone_service self) chunks document_id s)
    as (ids & s1 & Hrun & Hst).
  rewrite (bind_ok _ _ _ _ _ Hrun) in H.
  unfold bind at 1 in H.
  destruct (for_each _ (enumerate (combine chunks ids)) s1)
    as [[rows|e] s2] eqn:Hloop; [|discriminate].
  inversion H; subst s2. clear H.
  destruct (run_create_document_chunks E _ _ _ _ _ Hloop)
    as (Hdc & Hmap & Hall & _ & _).
  pose proof (stored_length E _ _ _ _ _ _ Hst) as Hlen.
  destruct (stored_tables E _ _ _ _ _ _ Hst) as [Hdc1 _].
  destruct (enumerate_combine_fields chunks ids Hlen) as (Hf1 & Hf2 & _).
  exists rows. split; [rewrite Hdc, Hdc1; reflexivity|].
  split; [rewrite <- Hf1, <- Hmap, map_map; reflexivity|].
  split; [rewrite <- Hf2, <- Hmap, map_map; reflexivity|exact Hall].
Qed.

(** X22. What was stored is read back.  After a completed
    [_store_document_chunks] for a document that had no chunk row,
    [get_document_chunks] for that document, if its read does not raise,
    returns one row for each chunk, with the chunks' texts in the chunker's
    order and the ordinals 0, 1, ..., N-1. *)
Theorem get_document_chunks_round_trip (E : env) (self : QueryController)
    (document_id : str) (chunks : list str) (s s' : world) :
  _store_document_chunks E self document_id chunks s = (Ok tt, s') ->
  filter (of_document document_id) (document_chunks s) = [] ->
  raises E (tick s') = false ->
  exists rows,
    get_document_chunks E document_id s' = (Ok rows, advance 1 [] s') /\
    map DocumentChunk.chunk_text rows = chunks /\
    map DocumentChunk.chunk_index rows = seq 0 (length chunks).
Proof.
  intros H Hnone Hr.
  destruct (_store_document_chunks_rows E self document_id chunks s s' H)
    as (rows & Hdc & Hidx & Htext & Hall).
  exists rows. rewrite run_get_document_chunks, Hr, Hdc, filter_app, Hnone.
  simpl app. rewrite (filter_of_document_own document_id rows Hall).
  rewrite (order_by_chunk_index_seq rows 0).
  - auto.
  - rewrite Hidx. f_equal.
    apply (f_equal (@length _)) in Hidx. rewrite length_map, length_seq in Hidx.
    symmetry. exact Hidx.
Qed.

Lemma get_document_chunks_round_trip_witness :
  exists rows,
    get_document_chunks policy_env (py "doc")
      (snd (_store_document_chunks policy_env demo_controller (py "doc")
              [py "one"; py "two"] empty_world))
    = (Ok rows,
       advance 1 []
         (snd (_store_document_chunks policy_env demo_controller (py "doc")
                 [py "one"; py "two"] empty_world))) /\
    map DocumentChunk.chunk_text rows = [py "one"; py "two"] /\
    map DocumentChunk.chunk_index rows = seq 0 2.
Proof.
  apply (get_document_chunks_round_trip policy_env demo_controller (py "doc")
           [py "one"; py "two"] empty_world).
  - vm_compute. reflexivity.
  - reflexivity.
  - reflexivity.
Defined.

(* ===================================================================== *)
(** ** The route *)
(* ===================================================================== *)

(** [s.split(sep)] for a one-character separator: the pieces between the
    occurrences of the separator, empty pieces included. *)
Fixpoint split_on (sep : char) (s : str) : list str :=
  match s with
  | [] => [[]]
  | c :: s' =>
      if (c =? sep)%N then [] :: split_on sep s'
      else match split_on sep s' with
           | piece :: pieces => (c :: piece) :: pieces
           | [] => [[c]]
           end
  end.

(** [utils.auth.verify_bearer_token], with [settings.BEARER_TOKEN]. *)
Definition verify_bearer_token (BEARER_TOKEN token : str) : bool :=
  eqb_str token BEARER_TOKEN.

(** The [detail] of an [HTTPException]: a fixed text, or
    [f"Internal server error: {str(e)}"] for the exception [e]. *)
Inductive http_detail :=
| Detail (text : str)
| InternalServerError (e : exn).

(** What the route comes to: the response, or the [HTTPException] it
    raises. *)
Inductive http_outcome :=
| QueryResponse (answers : list str)
| HTTPException (status_code : nat) (detail : http_detail).

(** [routes.hackrx.process_query]; [authorization] is [None] when the
    request has no such header.  The token is
    [authorization.split(" ")[1]], which exists for a header that starts
    with "Bearer ". *)
Definition process_query (E : env) (BEARER_TOKEN : str)
    (controller : QueryController) (documents : str) (questions : list str)
    (authorization : option str) : M http_outcome :=
  let unauthorized :=
    ret (HTTPException 401 (Detail (py "Missing or invalid Authorization header"))) in
  match authorization with
  | None => unauthorized
  | Some authorization =>
      if negb (nonempty authorization)
         || negb (startswith (py "Bearer ") authorization)
      then unauthorized
      else
        let token := nth 1 (split_on sp authorization) [] in
        if negb (verify_bearer_token BEARER_TOKEN token) then
          ret (HTTPException 401 (Detail (py "Invalid bearer token")))
        else
          try_except
            (answers <- process_document_queries E controller documents questions ;;
             ret (QueryResponse answers))
            (fun e => ret (HTTPException 500 (InternalServerError e)))
  end.

(** The header up to its first space. *)
Fixpoint until_space (s : str) : str :=
  match s with
  | [] => []
  | c :: s' => if (c =? sp)%N then [] else c :: until_space s'
  end.

Lemma split_on_until_space (s : str) :
  exists pieces, split_on sp s = until_space s :: pieces.
Proof.
  induction s as [|c s (pieces & IH)]; simpl.
  - exists []. reflexivity.
  - destruct (c =? sp)%N.
    + eexists. reflexivity.
    + rewrite IH. eexists. reflexivity.
Qed.

Lemma until_space_split (s : str) :
  exists rest, s = until_space s ++ rest /\ (rest = [] \/ exists r, rest = sp :: r).
Proof.
  induction s as [|c s (rest & IH & Hrest)]; simpl.
  - exists []. auto.
  - destruct (N.eqb_spec c sp) as [->|Hc].
    + exists (sp :: s). split; [reflexivity|right; eauto].
    + exists rest. split; [simpl; congruence|exact Hrest].
Qed.

Lemma until_space_app (token rest : str) :
  ~ In sp token -> rest = [] \/ (exists r, rest = sp :: r) ->
  until_space (token ++ rest) = token.
Proof.
  intros Hno Hrest. induction token as [|c token IH]; simpl.
  - destruct Hrest as [->|[r ->]]; reflexivity.
  - destruct (N.eqb_spec c sp) as [->|Hc].
    + exfalso. apply Hno. left. reflexivity.
    + f_equal. apply IH. intros H. apply Hno. right. exact H.
Qed.

Lemma startswith_split (p s : str) :
  startswith p s = true -> exists x, s = p ++ x.
Proof.
  revert s. induction p as [|c p IH]; intros s H; simpl in H.
  - exists s. reflexivity.
  - destruct s as [|d s]; [discriminate|].
    destruct (N.eqb_spec c d) as [->|Hc]; [|discriminate].
    destruct (IH s H) as [x ->]. exists x. reflexivity.
Qed.

(** The token the route reads from a header that starts with "Bearer ". *)
Lemma bearer_token_piece (x : str) :
  nth 1 (split_on sp (py "Bearer " ++ x)) [] = until_space x.
Proof.
  destruct (split_on_until_space x) as [pieces H].
  simpl. rewrite H. reflexivity.
Qed.

(** The headers the route lets through: "Bearer ", the configured token,
    and then nothing or a space and anything. *)
Definition authorized (BEARER_TOKEN : str) (authorization : option str) : Prop :=
  exists rest,
    authorization = Some (py "Bearer " ++ BEARER_TOKEN ++ rest) /\
    (rest = [] \/ exists r, rest = sp :: r).

(** X23. The route answers every request, and reaches the coordinator only
    for an authorized one.  For a configured token without a space: a
    request whose Authorization header is "Bearer ", the token, and then
    nothing or a space followed by anything, gets the answers of
    [process_document_queries], or status 500 carrying the exception it
    raised, in the world that call left; any other request, without the
    header or with another one, gets status 401 and leaves the world as it
    was: nothing is fetched, embedded or written. *)
Theorem process_query_authorization (E : env) (BEARER_TOKEN : str)
    (controller : QueryController) (documents : str) (questions : list str)
    (authorization : option str) (s : world) :
  ~ In sp BEARER_TOKEN ->
  (authorized BEARER_TOKEN authorization ->
   process_query E BEARER_TOKEN controller documents questions authorization s
   = match process_document_queries E controller documents questions s with
     | (Ok answers, s') => (Ok (QueryResponse answers), s')
     | (Raise e, s') => (Ok (HTTPException 500 (InternalServerError e)), s')
     end) /\
  (~ authorized BEARER_TOKEN authorization ->
   exists detail,
     process_query E BEARER_TOKEN controller documents questions authorization s
     = (Ok (HTTPException 401 (Detail detail)), s)).
Proof.
  intros Hno. split.
  - intros (rest & -> & Hrest). unfold process_query. cbv zeta.
    rewrite startswith_app.
    replace (nonempty (py "Bearer " ++ BEARER_TOKEN ++ rest)) with true
      by reflexivity.
    cbv beta iota delta [negb orb].
    rewrite bearer_token_piece, (until_space_app _ _ Hno Hrest).
    unfold verify_bearer_token. rewrite eqb_str_refl.
    cbv beta iota delta [negb].
    unfold try_except, bind.
    destruct (process_document_queries E controller documents questions s)
      as [[answers|e] s']; reflexivity.
  - intros Hnot. unfold process_query. cbv zeta.
    destruct authorization as [h|]; [|eexists; reflexivity].
    destruct (negb (nonempty h) || negb (startswith (py "Bearer ") h)) eqn:Hh;
      [eexists; reflexivity|].
    apply orb_false_iff in Hh. destruct Hh as [_ Hstart].
    apply negb_false_iff in Hstart.
    destruct (startswith_split _ _ Hstart) as [x ->].
    rewrite bearer_token_piece. unfold verify_bearer_token.
    destruct (eqb_str (until_space x) BEARER_TOKEN) eqn:Htoken;
      [|eexists; reflexivity].
    exfalso. apply Hnot. apply eqb_str_eq in Htoken.
    destruct (until_space_split x) as (rest & Hx & Hrest).
    exists rest. split; [|exact Hrest].
    rewrite <- Htoken, <- Hx. reflexivity.
Qed.

(** A header with text after the token, and a header with two spaces. *)
Lemma process_query_authorization_witness :
  fst (process_query policy_env (py "secret") demo_controller url_ftp []
         (Some (py "Bearer secret and more")) empty_world)
  = Ok (HTTPException 500
          (InternalServerError
             (ValueError (py "Invalid URL format: ftp://example.com/a.pdf")))) /\
  exists detail,
    process_query policy_env (py "secret") demo_controller url_a []
                  (Some (py "Bearer  secret")) empty_world
    = (Ok (HTTPException 401 (Detail detail)), empty_world).
Proof.
  assert (Hno : ~ In sp (py "secret")).
  { intros H. vm_compute in H. intuition discriminate. }
  split.
  - rewrite (proj1 (process_query_authorization policy_env (py "secret")
                      demo_controller url_ftp []
                      (Some (py "Bearer secret and more")) empty_world Hno)).
    + vm_compute. reflexivity.
    + exists (py " and more"). split; [reflexivity|right; eexists; reflexivity].
  - apply (proj2 (process_query_authorization policy_env (py "secret")
                    demo_controller url_a []
                    (Some (py "Bearer  secret")) empty_world Hno)).
    intros (rest & Heq & _). inversion Heq.
Defined.
